(** * Eaglet log collector: a shallow embedding of [collector.ts] and [store.ts]

    The development follows the TypeScript sources under
    [eagle-test/src/lib]:

    - [Js]         JavaScript values as the collector handles them (a log
                   entry is a plain object), property lookup, the JSON round
                   trip and [maskSensitiveFields];
    - [Conf]       the types of [types.ts], the configuration record with its
                   defaults and the spread that merges a partial one;
    - [Store]      [IndexedDBStore] over a model of an IndexedDB object store;
    - [Collector]  the [LogCollector] class: its fields, timers, breadcrumbs,
                   rate limiter, persistence, circuit breaker, [flushQueue],
                   [captureLog], [updateConfig], the unload handler, and the
                   event loop that calls them;
    - [Calendar]   calendar minutes, for the keys of the rate limiter;
    - [Util]       the helpers at the top of [collector.ts]: [generateUUID],
                   [matchesUrl] and [matchesError], with [RegExp.test] and
                   its [lastIndex];
    - [Wrappers]   [debounce] and [throttle], with the timers they arm;
    - [Keyed]      the key order of the object store and sequences of store
                   operations;
    - [Discipline] what a running collector keeps true of its timers, its
                   stores and its sending lock;
    - [Batches]    what the browser lets through, and captures in a row;
    - [Scenario], [Cases]  concrete pages, environments and runs.

    The properties follow, one module per part of the collector.

    An asynchronous method is embedded as a function on the collector state
    that runs the call to completion; what the browser does at each [await]
    (a store request, the transport, [Math.random()], [new Date()]) is an
    argument of the function.  Numbers that the source keeps in JavaScript
    doubles are integers here ([Z], or [nat] for the per-minute counts) when
    the source only counts or indexes with them, and rationals ([Q]) when
    they are probabilities, random draws or times in milliseconds.

    Console output is embedded as the browser's own.  With
    [enableConsoleCapture] the collector wraps [console.warn] and
    [console.error] and takes its own diagnostics for new logs; this
    re-entry is not embedded.  [processQueue] records the call of
    [flushQueue] that it makes, as the effect [CallFlushQueue], and leaves
    the call itself to the event loop.  Statements that depend on either
    say what they assume. *)

From Stdlib Require Import ZArith QArith Lia Lqa List Sorted String Ascii DecimalString.
From Stdlib Require HexadecimalString.
From stdpp Require Import base option list gmap strings.

Set Warnings "-register-all".
Local Open Scope string_scope.
Local Open Scope list_scope.

(** ** JavaScript values, JSON round trip and masking *)

Module Js.

(** A value as [JSON.stringify] sees it.  [VUndefined] also stands for the
    values that serialise like it (functions, symbols). *)
Inductive jsval : Type :=
  | VUndefined
  | VNull
  | VBool (b : bool)
  | VNum (q : Q)
  | VStr (s : string)
  | VArr (items : list jsval)
  | VObj (props : list (string * jsval)).

(** The property name under which [for (const key in arr)] visits index [i]. *)
Definition index_key (i : nat) : string :=
  NilEmpty.string_of_uint (Nat.to_uint i).

(** [arr[key]] for an index key; [i] is the index of the head of [items]. *)
Fixpoint arr_get (key : string) (i : nat) (items : list jsval) : option jsval :=
  match items with
  | [] => None
  | x :: rest =>
      if String.eqb key (index_key i) then Some x else arr_get key (S i) rest
  end.

(** [obj[key]] for an own property. *)
Fixpoint obj_get (key : string) (props : list (string * jsval)) : option jsval :=
  match props with
  | [] => None
  | (k, v) :: rest => if String.eqb key k then Some v else obj_get key rest
  end.

(** [current[key]], restricted to the own enumerable properties that
    [for ... in] visits: atoms have none. *)
Definition get_prop (current : jsval) (key : string) : option jsval :=
  match current with
  | VArr items => arr_get key 0 items
  | VObj props => obj_get key props
  | _ => None
  end.

(** The value found by following [path] from [v], key by key. *)
Fixpoint get_path (v : jsval) (path : list string) : option jsval :=
  match path with
  | [] => Some v
  | key :: rest =>
      match get_prop v key with
      | Some child => get_path child rest
      | None => None
      end
  end.

(** [obj[key] = value]: overwrite in place, or append a new property. *)
Fixpoint obj_set (key : string) (value : jsval) (props : list (string * jsval))
  : list (string * jsval) :=
  match props with
  | [] => [(key, value)]
  | (k, v) :: rest =>
      if String.eqb key k then (k, value) :: rest
      else (k, v) :: obj_set key value rest
  end.

Definition set_prop (o : jsval) (key : string) (value : jsval) : jsval :=
  match o with
  | VObj props => VObj (obj_set key value props)
  | other => other
  end.

(** *** [JSON.parse(JSON.stringify(v))] *)

(** Properties whose value is [undefined] are left out of an object, and an
    [undefined] array element is written as [null]. *)
Definition roundtrip_props (f : jsval -> jsval)
  : list (string * jsval) -> list (string * jsval) :=
  fix go (props : list (string * jsval)) : list (string * jsval) :=
    match props with
    | [] => []
    | (k, VUndefined) :: rest => go rest
    | (k, v) :: rest => (k, f v) :: go rest
    end.

Fixpoint roundtrip (v : jsval) : jsval :=
  match v with
  | VUndefined => VNull
  | VArr items => VArr (List.map roundtrip items)
  | VObj props => VObj (roundtrip_props roundtrip props)
  | atom => atom
  end.

(** At top level [JSON.stringify(undefined)] is [undefined], which
    [JSON.parse] rejects: [None] is the thrown [SyntaxError]. *)
Definition JSON_roundtrip (v : jsval) : option jsval :=
  match v with
  | VUndefined => None
  | _ => Some (roundtrip v)
  end.

(** *** [maskSensitiveFields] (collector.ts, 695-714) *)

Definition MASK : string := "********".

(** [fieldsToMask.includes(key)] *)
Definition includes (fieldsToMask : list string) (key : string) : bool :=
  existsb (String.eqb key) fieldsToMask.

(** The loop body of [traverseAndMask] over the elements of an array: the
    element at an index named in [fieldsToMask] is overwritten, any other
    element is traversed ([f] leaves atoms alone). *)
Definition mask_items (f : jsval -> jsval) (fieldsToMask : list string)
  : nat -> list jsval -> list jsval :=
  fix go (i : nat) (items : list jsval) : list jsval :=
    match items with
    | [] => []
    | x :: rest =>
        (if includes fieldsToMask (index_key i) then VStr MASK else f x)
          :: go (S i) rest
    end.

(** The same loop body over the properties of an object. *)
Definition mask_props (f : jsval -> jsval) (fieldsToMask : list string)
  : list (string * jsval) -> list (string * jsval) :=
  fix go (props : list (string * jsval)) : list (string * jsval) :=
    match props with
    | [] => []
    | (k, v) :: rest =>
        (k, if includes fieldsToMask k then VStr MASK else f v) :: go rest
    end.

(** [traverseAndMask] mutates the private deep copy in place; the embedding
    returns the mutated copy.  Values with [typeof current !== 'object'] and
    [null] are returned untouched. *)
Fixpoint traverseAndMask (fieldsToMask : list string) (current : jsval) : jsval :=
  match current with
  | VArr items => VArr (mask_items (traverseAndMask fieldsToMask) fieldsToMask 0 items)
  | VObj props => VObj (mask_props (traverseAndMask fieldsToMask) fieldsToMask props)
  | atom => atom
  end.

Definition maskSensitiveFields (obj : jsval) (fieldsToMask : list string)
  : option jsval :=
  match JSON_roundtrip obj with
  | Some maskedObj => Some (traverseAndMask fieldsToMask maskedObj)
  | None => None
  end.

(** A value without properties of its own: [traverseAndMask] returns it as
    it is. *)
Definition is_atom (v : jsval) : bool :=
  match v with
  | VArr _ | VObj _ => false
  | _ => true
  end.

(** No key of [path] is named in [fieldsToMask]. *)
Definition unmasked_path (fieldsToMask path : list string) : bool :=
  forallb (fun key => negb (includes fieldsToMask key)) path.

End Js.

(** ** Types of [types.ts] and the configuration *)

Module Conf.
Import Js.

Inductive LogLevel : Type := Trace | Debug | Info | Warn | Error | Fatal | Critical.

#[export] Instance LogLevel_eq_dec : EqDecision LogLevel.
Proof. solve_decision. Defined.

Definition level_name (level : LogLevel) : string :=
  match level with
  | Trace => "trace" | Debug => "debug" | Info => "info" | Warn => "warn"
  | Error => "error" | Fatal => "fatal" | Critical => "critical"
  end.

Inductive BreadcrumbType : Type :=
  CrumbClick | CrumbNavigation | CrumbXhr | CrumbConsole | CrumbCustom | CrumbError.

Definition crumb_type_name (t : BreadcrumbType) : string :=
  match t with
  | CrumbClick => "click" | CrumbNavigation => "navigation" | CrumbXhr => "xhr"
  | CrumbConsole => "console" | CrumbCustom => "custom" | CrumbError => "error"
  end.

Record Breadcrumb : Type := mkBreadcrumb {
  timestamp : string;
  type : BreadcrumbType;
  message : string;
  data : option jsval;
}.

(** A log entry is a plain object: [maskSensitiveFields] and [beforeSend] may
    hand back any object in its place. *)
Definition LogEntry : Type := jsval.

(** [!!v] *)
Definition truthy (v : jsval) : bool :=
  match v with
  | VUndefined | VNull => false
  | VBool b => b
  | VNum q => negb (Qeq_bool q 0)
  | VStr s => negb (String.eqb s "")
  | VArr _ | VObj _ => true
  end.

(** [log.id] *)
Definition log_id (log : LogEntry) : jsval :=
  default VUndefined (get_prop log "id").

(** [log.id] as the string that [LogEntry.id] is declared to be. *)
Definition id_string (log : LogEntry) : option string :=
  match log_id log with
  | VStr s => Some s
  | _ => None
  end.

Definition crumb_to_js (b : Breadcrumb) : jsval :=
  VObj [("timestamp", VStr (timestamp b));
        ("type", VStr (crumb_type_name (type b)));
        ("message", VStr (message b));
        ("data", default VUndefined (data b))].

(** The fields of [Required<LogCollectorConfig>] that the modelled code reads.
    The two hooks are optional at run time: the code tests them before use. *)
Record Config : Type := mkConfig {
  dsn : string;
  apiKey : string;
  batchSize : Z;
  batchInterval : Z;
  maxRetries : Z;
  retryDelayMs : Z;
  logLevel : LogLevel;
  maskFields : list string;
  samplingRates : LogLevel -> option Q;
  maxLogsPerMinute : Z;
  beforeSend : option (LogEntry -> option LogEntry);
  beforeBreadcrumb : option (Breadcrumb -> option Breadcrumb);
  enableLocalStorage : bool;
  localStorageKey : string;
  maxLocalStorageSize : Z;
  enableIndexedDB : bool;
  maxBreadcrumbs : Z;
}.

(** A [Partial<LogCollectorConfig>]: [None] is a key that is not given. *)
Module Partial.
Record t : Type := mk {
  dsn : option string;
  apiKey : option string;
  batchSize : option Z;
  batchInterval : option Z;
  maxRetries : option Z;
  retryDelayMs : option Z;
  logLevel : option LogLevel;
  maskFields : option (list string);
  samplingRates : option (LogLevel -> option Q);
  maxLogsPerMinute : option Z;
  beforeSend : option (option (LogEntry -> option LogEntry));
  beforeBreadcrumb : option (option (Breadcrumb -> option Breadcrumb));
  enableLocalStorage : option bool;
  localStorageKey : option string;
  maxLocalStorageSize : option Z;
  enableIndexedDB : option bool;
  maxBreadcrumbs : option Z;
}.

Definition empty : t :=
  mk None None None None None None None None None None None None None None
     None None None.
End Partial.

(** [{ ...base, ...given }]: every key that is given replaces the whole value
    held under that key. *)
Definition spread (base : Config) (given : Partial.t) : Config :=
  {| dsn := default (dsn base) (Partial.dsn given);
     apiKey := default (apiKey base) (Partial.apiKey given);
     batchSize := default (batchSize base) (Partial.batchSize given);
     batchInterval := default (batchInterval base) (Partial.batchInterval given);
     maxRetries := default (maxRetries base) (Partial.maxRetries given);
     retryDelayMs := default (retryDelayMs base) (Partial.retryDelayMs given);
     logLevel := default (logLevel base) (Partial.logLevel given);
     maskFields := default (maskFields base) (Partial.maskFields given);
     samplingRates := default (samplingRates base) (Partial.samplingRates given);
     maxLogsPerMinute :=
       default (maxLogsPerMinute base) (Partial.maxLogsPerMinute given);
     beforeSend := default (beforeSend base) (Partial.beforeSend given);
     beforeBreadcrumb :=
       default (beforeBreadcrumb base) (Partial.beforeBreadcrumb given);
     enableLocalStorage :=
       default (enableLocalStorage base) (Partial.enableLocalStorage given);
     localStorageKey :=
       default (localStorageKey base) (Partial.localStorageKey given);
     maxLocalStorageSize :=
       default (maxLocalStorageSize base) (Partial.maxLocalStorageSize given);
     enableIndexedDB :=
       default (enableIndexedDB base) (Partial.enableIndexedDB given);
     maxBreadcrumbs := default (maxBreadcrumbs base) (Partial.maxBreadcrumbs given);
  |}.

(** The defaults of the constructor (collector.ts, 94-125); [dsn] and
    [apiKey] have none. *)
Definition defaults : Config :=
  {| dsn := ""; apiKey := "";
     batchSize := 10; batchInterval := 5000; maxRetries := 3;
     retryDelayMs := 1000;
     logLevel := Info;
     maskFields := [];
     samplingRates := fun _ => None;
     maxLogsPerMinute := 0;
     beforeSend := Some (fun logEntry => Some logEntry);
     beforeBreadcrumb := Some (fun breadcrumb => Some breadcrumb);
     enableLocalStorage := false;
     localStorageKey := "log_collector_queue";
     maxLocalStorageSize := 5 * 1024 * 1024;
     enableIndexedDB := false;
     maxBreadcrumbs := 50;
  |}.

Definition levelOrder : list LogLevel :=
  [Trace; Debug; Info; Warn; Error; Fatal; Critical].

(** [levelOrder.indexOf(level)] *)
Fixpoint indexOf (level : LogLevel) (order : list LogLevel) : Z :=
  match order with
  | [] => -1
  | l :: rest =>
      if decide (l = level) then 0
      else let i := indexOf level rest in if (i <? 0)%Z then -1 else (i + 1)%Z
  end.

(** [this.config.samplingRates[level] ?? 1.0] *)
Definition samplingRate (config : Config) (level : LogLevel) : Q :=
  default 1%Q (samplingRates config level).

(** The wall-clock reading that the rate limiter takes from [new Date()]. *)
Record LocalDate : Type := mkLocalDate {
  getFullYear : Z;
  getMonth : Z;
  getDate : Z;
  getHours : Z;
  getMinutes : Z;
}.

Definition minuteKey (now : LocalDate) : Z :=
  (getFullYear now * 100000000 + (getMonth now + 1) * 1000000
   + getDate now * 10000 + getHours now * 100 + getMinutes now)%Z.

End Conf.

(** ** [IndexedDBStore] (store.ts) *)

Module Store.
Import Js Conf.

Inductive TxMode : Type := ReadOnly | ReadWrite.

(** The calls a store makes to the IndexedDB API. *)
Inductive IdbCall : Type :=
  | IdbOpen
  | IdbTransaction (mode : TxMode)
  | IdbAdd (log : LogEntry)
  | IdbGetAll
  | IdbClear
  | IdbDelete (id : string).

(** The store object together with the database behind it.  An object store
    created with [{ keyPath: 'id' }] holds its records in ascending order of
    their key, and [getAll()] returns them in that order (Indexed Database
    API, "object store" and "getAll"); string keys compare code unit by code
    unit.  [objects] is the record list in that order, each with its key. *)
Record IndexedDBStore : Type := mkStore {
  db : bool;
  objects : list (string * LogEntry);
  calls : list IdbCall;
}.

(** What the browser does to the requests of one operation. *)
Record IdbEnv : Type := mkIdbEnv {
  openFails : bool;
  requestFails : bool;
}.

Inductive Settled (A : Type) : Type :=
  | Resolved (value : A)
  | Rejected.
Arguments Resolved {A} value.
Arguments Rejected {A}.

Definition fresh : IndexedDBStore := mkStore false [] [].

Definition called (c : IdbCall) (s : IndexedDBStore) : IndexedDBStore :=
  mkStore (db s) (objects s) (calls s ++ [c]).

(** [objectStore.add(value)] on the sorted records: an equal key is a
    [ConstraintError]. *)
Fixpoint idb_add (key : string) (log : LogEntry) (objs : list (string * LogEntry))
  : option (list (string * LogEntry)) :=
  match objs with
  | [] => Some [(key, log)]
  | (k, o) :: rest =>
      match String.compare key k with
      | Lt => Some ((key, log) :: (k, o) :: rest)
      | Eq => None
      | Gt => option_map (cons (k, o)) (idb_add key log rest)
      end
  end.

(** [objectStore.delete(id)] *)
Definition idb_delete (id : string) (objs : list (string * LogEntry))
  : list (string * LogEntry) :=
  List.filter (fun kv => negb (String.eqb (fst kv) id)) objs.

(** [if (!this.db) await this.openDb()] *)
Definition openDb (env : IdbEnv) (s : IndexedDBStore)
  : IndexedDBStore * Settled unit :=
  if db s then (s, Resolved tt)
  else
    let s1 := called IdbOpen s in
    if openFails env then (s1, Rejected)
    else (mkStore true (objects s1) (calls s1), Resolved tt).

(** [addLog]; [uuid] is what [generateUUID()] would return. *)
Definition addLog (env : IdbEnv) (uuid : string) (log : LogEntry)
  (s : IndexedDBStore) : IndexedDBStore * Settled unit :=
  match openDb env s with
  | (s1, Rejected) => (s1, Rejected)
  | (s1, Resolved _) =>
      let log1 := if truthy (log_id log) then log
                  else set_prop log "id" (VStr uuid) in
      let s2 := called (IdbAdd log1) (called (IdbTransaction ReadWrite) s1) in
      match id_string log1 with
      | None => (s2, Rejected)
      | Some key =>
          if requestFails env then (s2, Rejected)
          else match idb_add key log1 (objects s2) with
               | Some objs => (mkStore (db s2) objs (calls s2), Resolved tt)
               | None => (s2, Rejected)
               end
      end
  end.

(** [getAllLogs] *)
Definition getAllLogs (env : IdbEnv) (s : IndexedDBStore)
  : IndexedDBStore * Settled (list LogEntry) :=
  match openDb env s with
  | (s1, Rejected) => (s1, Rejected)
  | (s1, Resolved _) =>
      let s2 := called IdbGetAll (called (IdbTransaction ReadOnly) s1) in
      if requestFails env then (s2, Rejected)
      else (s2, Resolved (List.map snd (objects s2)))
  end.

(** [clearLogs] *)
Definition clearLogs (env : IdbEnv) (s : IndexedDBStore)
  : IndexedDBStore * Settled unit :=
  match openDb env s with
  | (s1, Rejected) => (s1, Rejected)
  | (s1, Resolved _) =>
      let s2 := called IdbClear (called (IdbTransaction ReadWrite) s1) in
      if requestFails env then (s2, Rejected)
      else (mkStore (db s2) [] (calls s2), Resolved tt)
  end.

(** [deleteLogs]; [ids = None] is a missing argument.  A failing request of
    the loop aborts the transaction, which undoes the deletes and rejects. *)
Definition deleteLogs (env : IdbEnv) (ids : option (list string))
  (s : IndexedDBStore) : IndexedDBStore * Settled unit :=
  match ids with
  | None | Some [] => (s, Resolved tt)
  | Some ids =>
      match openDb env s with
      | (s1, Rejected) => (s1, Rejected)
      | (s1, Resolved _) =>
          let s2 := fold_left (fun acc id => called (IdbDelete id) acc) ids
                      (called (IdbTransaction ReadWrite) s1) in
          if requestFails env then (s2, Rejected)
          else (mkStore (db s2)
                  (fold_left (fun objs id => idb_delete id objs) ids (objects s2))
                  (calls s2),
                Resolved tt)
      end
  end.

End Store.

(** ** The collector (collector.ts) *)

Module Collector.
Import Js Conf Store.

(** What a pending timer will run. *)
Inductive TimerAction : Type :=
  | BatchTick
  | RetryFlush (retries : Z)
  | CircuitReset
  | RateJanitor.

Record Timer : Type := mkTimer {
  tid : nat;
  due : Q;
  action : TimerAction;
}.

Inductive SendError : Type :=
  | HttpError (status : Z) (errorText : string)
  | Thrown (reason : string).

(** What the collector does to the outside: transport calls, the two
    delivery callbacks, console output, and [processQueue] starting another
    [flushQueue()]. *)
Inductive Effect : Type :=
  | SendBeacon (url : string) (batch : list LogEntry)
  | Fetch (url : string) (apiKeyHeader : option string) (batch : list LogEntry)
      (keepalive : bool)
  | OnSendSuccess (logsSent : list LogEntry)
  | OnSendFailure (error : SendError) (logsFailed : list LogEntry)
  | ConsoleLog (text : string)
  | ConsoleWarn (text : string)
  | ConsoleError (text : string)
  | CallFlushQueue.

(** The fields of [LogCollector], then the event loop it runs on ([clock] in
    milliseconds, the pending timers, the next timer handle) and the effects
    so far, oldest first.  Timer handles start at 1, as in a browser, so a
    handle that is set is truthy. *)
Record State : Type := mkState {
  config : Config;
  logQueue : list LogEntry;
  _breadcrumbs : list Breadcrumb;
  timer : option nat;
  isSending : bool;
  circuitOpen : bool;
  consecutiveFailures : Z;
  circuitResetTimer : option nat;
  logCounts : gmap Z nat;
  currentMinute : Z;
  rateLimitTimer : option nat;
  localStorageStore : option (gmap string (list LogEntry));
  indexedDBStore : option IndexedDBStore;
  clock : Q;
  timers : list Timer;
  nextTimer : nat;
  effects : list Effect;
}.

Definition CIRCUIT_BREAKER_THRESHOLD : Z := 5.
Definition CIRCUIT_BREAKER_RESET_DELAY : Q := 60000.

Definition set_config (v : Config) (st : State) : State :=
  mkState v (logQueue st) (_breadcrumbs st) (timer st) (isSending st)
    (circuitOpen st) (consecutiveFailures st) (circuitResetTimer st)
    (logCounts st) (currentMinute st) (rateLimitTimer st)
    (localStorageStore st) (indexedDBStore st) (clock st) (timers st)
    (nextTimer st) (effects st).

Definition set_logQueue (v : list LogEntry) (st : State) : State :=
  mkState (config st) v (_breadcrumbs st) (timer st) (isSending st)
    (circuitOpen st) (consecutiveFailures st) (circuitResetTimer st)
    (logCounts st) (currentMinute st) (rateLimitTimer st)
    (localStorageStore st) (indexedDBStore st) (clock st) (timers st)
    (nextTimer st) (effects st).

Definition set_breadcrumbs (v : list Breadcrumb) (st : State) : State :=
  mkState (config st) (logQueue st) v (timer st) (isSending st)
    (circuitOpen st) (consecutiveFailures st) (circuitResetTimer st)
    (logCounts st) (currentMinute st) (rateLimitTimer st)
    (localStorageStore st) (indexedDBStore st) (clock st) (timers st)
    (nextTimer st) (effects st).

Definition set_timer (v : option nat) (st : State) : State :=
  mkState (config st) (logQueue st) (_breadcrumbs st) v (isSending st)
    (circuitOpen st) (consecutiveFailures st) (circuitResetTimer st)
    (logCounts st) (currentMinute st) (rateLimitTimer st)
    (localStorageStore st) (indexedDBStore st) (clock st) (timers st)
    (nextTimer st) (effects st).

Definition set_isSending (v : bool) (st : State) : State :=
  mkState (config st) (logQueue st) (_breadcrumbs st) (timer st) v
    (circuitOpen st) (consecutiveFailures st) (circuitResetTimer st)
    (logCounts st) (currentMinute st) (rateLimitTimer st)
    (localStorageStore st) (indexedDBStore st) (clock st) (timers st)
    (nextTimer st) (effects st).

Definition set_circuitOpen (v : bool) (st : State) : State :=
  mkState (config st) (logQueue st) (_breadcrumbs st) (timer st)
    (isSending st) v (consecutiveFailures st) (circuitResetTimer st)
    (logCounts st) (currentMinute st) (rateLimitTimer st)
    (localStorageStore st) (indexedDBStore st) (clock st) (timers st)
    (nextTimer st) (effects st).

Definition set_consecutiveFailures (v : Z) (st : State) : State :=
  mkState (config st) (logQueue st) (_breadcrumbs st) (timer st)
    (isSending st) (circuitOpen st) v (circuitResetTimer st) (logCounts st)
    (currentMinute st) (rateLimitTimer st) (localStorageStore st)
    (indexedDBStore st) (clock st) (timers st) (nextTimer st) (effects st).

Definition set_circuitResetTimer (v : option nat) (st : State) : State :=
  mkState (config st) (logQueue st) (_breadcrumbs st) (timer st)
    (isSending st) (circuitOpen st) (consecutiveFailures st) v
    (logCounts st) (currentMinute st) (rateLimitTimer st)
    (localStorageStore st) (indexedDBStore st) (clock st) (timers st)
    (nextTimer st) (effects st).

Definition set_logCounts (v : gmap Z nat) (st : State) : State :=
  mkState (config st) (logQueue st) (_breadcrumbs st) (timer st)
    (isSending st) (circuitOpen st) (consecutiveFailures st)
    (circuitResetTimer st) v (currentMinute st) (rateLimitTimer st)
    (localStorageStore st) (indexedDBStore st) (clock st) (timers st)
    (nextTimer st) (effects st).

Definition set_currentMinute (v : Z) (st : State) : State :=
  mkState (config st) (logQueue st) (_breadcrumbs st) (timer st)
    (isSending st) (circuitOpen st) (consecutiveFailures st)
    (circuitResetTimer st) (logCounts st) v (rateLimitTimer st)
    (localStorageStore st) (indexedDBStore st) (clock st) (timers st)
    (nextTimer st) (effects st).

Definition set_rateLimitTimer (v : option nat) (st : State) : State :=
  mkState (config st) (logQueue st) (_breadcrumbs st) (timer st)
    (isSending st) (circuitOpen st) (consecutiveFailures st)
    (circuitResetTimer st) (logCounts st) (currentMinute st) v
    (localStorageStore st) (indexedDBStore st) (clock st) (timers st)
    (nextTimer st) (effects st).

Definition set_localStorageStore (v : option (gmap string (list LogEntry))) (st : State) : State :=
  mkState (config st) (logQueue st) (_breadcrumbs st) (timer st)
    (isSending st) (circuitOpen st) (consecutiveFailures st)
    (circuitResetTimer st) (logCounts st) (currentMinute st)
    (rateLimitTimer st) v (indexedDBStore st) (clock st) (timers st)
    (nextTimer st) (effects st).

Definition set_indexedDBStore (v : option IndexedDBStore) (st : State) : State :=
  mkState (config st) (logQueue st) (_breadcrumbs st) (timer st)
    (isSending st) (circuitOpen st) (consecutiveFailures st)
    (circuitResetTimer st) (logCounts st) (currentMinute st)
    (rateLimitTimer st) (localStorageStore st) v (clock st) (timers st)
    (nextTimer st) (effects st).

Definition set_clock (v : Q) (st : State) : State :=
  mkState (config st) (logQueue st) (_breadcrumbs st) (timer st)
    (isSending st) (circuitOpen st) (consecutiveFailures st)
    (circuitResetTimer st) (logCounts st) (currentMinute st)
    (rateLimitTimer st) (localStorageStore st) (indexedDBStore st) v
    (timers st) (nextTimer st) (effects st).

Definition set_timers (v : list Timer) (st : State) : State :=
  mkState (config st) (logQueue st) (_breadcrumbs st) (timer st)
    (isSending st) (circuitOpen st) (consecutiveFailures st)
    (circuitResetTimer st) (logCounts st) (currentMinute st)
    (rateLimitTimer st) (localStorageStore st) (indexedDBStore st)
    (clock st) v (nextTimer st) (effects st).

Definition set_nextTimer (v : nat) (st : State) : State :=
  mkState (config st) (logQueue st) (_breadcrumbs st) (timer st)
    (isSending st) (circuitOpen st) (consecutiveFailures st)
    (circuitResetTimer st) (logCounts st) (currentMinute st)
    (rateLimitTimer st) (localStorageStore st) (indexedDBStore st)
    (clock st) (timers st) v (effects st).

Definition set_effects (v : list Effect) (st : State) : State :=
  mkState (config st) (logQueue st) (_breadcrumbs st) (timer st)
    (isSending st) (circuitOpen st) (consecutiveFailures st)
    (circuitResetTimer st) (logCounts st) (currentMinute st)
    (rateLimitTimer st) (localStorageStore st) (indexedDBStore st)
    (clock st) (timers st) (nextTimer st) v.

Definition emit (e : Effect) (st : State) : State :=
  set_effects (effects st ++ [e]) st.

(** *** Timers *)

(** [setTimeout(action, delay)]; the handle returned is [nextTimer st]. *)
Definition setTimeout (act : TimerAction) (delay : Q) (st : State) : State :=
  set_nextTimer (S (nextTimer st))
    (set_timers (timers st ++ [mkTimer (nextTimer st) (clock st + delay) act]) st).

(** [clearTimeout(handle)] and [clearInterval(handle)] *)
Definition clearTimeout (handle : nat) (st : State) : State :=
  set_timers (List.filter (fun t => negb (Nat.eqb (tid t) handle)) (timers st)) st.

(** *** Breadcrumbs (collector.ts, 250-270) *)

(** [arr.shift()] *)
Definition shift {A : Type} (l : list A) : list A := List.tl l.

Definition addBreadcrumb (ts : string) (type : BreadcrumbType) (message : string)
  (data : option jsval) (st : State) : State :=
  let breadcrumb := mkBreadcrumb ts type message data in
  let accepted :=
    match beforeBreadcrumb (config st) with
    | Some hook => hook breadcrumb
    | None => Some breadcrumb
    end in
  match accepted with
  | None => st
  | Some breadcrumb =>
      let pushed := _breadcrumbs st ++ [breadcrumb] in
      if (maxBreadcrumbs (config st) <? Z.of_nat (length pushed))%Z
      then set_breadcrumbs (shift pushed) st
      else set_breadcrumbs pushed st
  end.

(** *** Rate limiter (collector.ts, 610-627 and 954-977) *)

Definition rate_limited_warning : string :=
  "LogCollector: Log skipped due to rate limiting".

(** Step 3 of [captureLog].  The flag is [true] when the log passes. *)
Definition rateLimit (today : LocalDate) (st : State) : State * bool :=
  if (0 <? maxLogsPerMinute (config st))%Z then
    let currentMinuteKey := minuteKey today in
    let st1 :=
      if (currentMinute st =? currentMinuteKey)%Z then st
      else set_currentMinute currentMinuteKey (set_logCounts ∅ st) in
    let count := (default 0%nat (logCounts st1 !! currentMinuteKey) + 1)%nat in
    let st2 := set_logCounts (<[currentMinuteKey := count]> (logCounts st1)) st1 in
    if (maxLogsPerMinute (config st2) <? Z.of_nat count)%Z
    then (emit (ConsoleWarn rate_limited_warning) st2, false)
    else (st2, true)
  else (st, true).

Definition initRateLimiter (today : LocalDate) (st : State) : State :=
  let st1 := set_currentMinute (minuteKey today) st in
  let st2 := set_logCounts (<[currentMinute st1 := 0%nat]> (logCounts st1)) st1 in
  set_rateLimitTimer (Some (nextTimer st2)) (setTimeout RateJanitor 60000 st2).

(** The body of the [setInterval] callback of [initRateLimiter]. *)
Definition rateJanitor (today : LocalDate) (st : State) : State :=
  let newMinuteKey := minuteKey today in
  let kept := filter (fun kv => (newMinuteKey <= kv.1)%Z) (logCounts st) in
  let ensured :=
    match kept !! newMinuteKey with
    | None => <[newMinuteKey := 0%nat]> kept
    | Some _ => kept
    end in
  set_currentMinute newMinuteKey (set_logCounts ensured st).

(** *** Batching and persistence (collector.ts, 716-798) *)

Definition startBatchTimer (st : State) : State :=
  let st1 := match timer st with
             | Some handle => clearTimeout handle st
             | None => st
             end in
  set_timer (Some (nextTimer st1))
    (setTimeout BatchTick (inject_Z (batchInterval (config st1))) st1).

(** Both branches of [processQueue] test the same condition. *)
Definition processQueue (st : State) : State :=
  if (batchSize (config st) <=? Z.of_nat (length (logQueue st)))%Z
  then emit CallFlushQueue st
  else st.

(** Give [log] an id when it has none; [uuid] is the next [generateUUID()]. *)
Definition ensure_id (uuid : string) (log : LogEntry) : LogEntry :=
  if truthy (log_id log) then log else set_prop log "id" (VStr uuid).

(** What the browser does during one [saveLogsToLocalStorage]. *)
Record StorageEnv : Type := mkStorageEnv {
  serializedLength : Z;
  setItemThrows : bool;
}.

Definition saveLogsToLocalStorage (env : StorageEnv) (uuid : nat -> string)
  (st : State) : State :=
  match localStorageStore st with
  | None => st
  | Some slots =>
      let st1 := set_logQueue (imap (fun i log => ensure_id (uuid i) log) (logQueue st)) st in
      let key := localStorageKey (config st1) in
      if setItemThrows env then
        set_localStorageStore (Some (delete key slots))
          (emit (ConsoleError "LogCollector: Error saving to LocalStorage") st1)
      else if (serializedLength env <? maxLocalStorageSize (config st1))%Z then
        set_localStorageStore (Some (<[key := logQueue st1]> slots)) st1
      else
        emit (ConsoleWarn "LogCollector: LocalStorage limit reached, not all logs saved.") st1
  end.

Definition loadLogsFromLocalStorage (st : State) : State :=
  match localStorageStore st with
  | None => st
  | Some slots =>
      let key := localStorageKey (config st) in
      match slots !! key with
      | Some parsedLogs =>
          emit (ConsoleLog "LogCollector: Loaded logs from LocalStorage.")
            (set_localStorageStore (Some (delete key slots))
               (set_logQueue (parsedLogs ++ logQueue st) st))
      | None => st
      end
  end.

Definition loadLogsFromPersistence (env : IdbEnv) (st : State) : State :=
  match indexedDBStore st with
  | None => st
  | Some store =>
      match getAllLogs env store with
      | (store', Resolved storedLogs) =>
          let st1 := set_indexedDBStore (Some store') st in
          if (0 <? length storedLogs)%nat
          then emit (ConsoleLog "LogCollector: Loaded logs from IndexedDB.")
                 (set_logQueue (storedLogs ++ logQueue st1) st1)
          else st1
      | (store', Rejected) =>
          let st1 := emit (ConsoleError "LogCollector: Error loading logs from IndexedDB.")
                       (set_indexedDBStore (Some store') st) in
          match localStorageStore st1 with
          | Some _ => loadLogsFromLocalStorage st1
          | None => st1
          end
      end
  end.

(** *** Circuit breaker (collector.ts, 931-952) *)

Definition openCircuit (st : State) : State :=
  let st1 := set_circuitOpen true st in
  let st2 := match circuitResetTimer st1 with
             | Some handle => clearTimeout handle st1
             | None => st1
             end in
  set_circuitResetTimer (Some (nextTimer st2))
    (setTimeout CircuitReset CIRCUIT_BREAKER_RESET_DELAY st2).

Definition closeCircuit (st : State) : State :=
  let st1 := set_consecutiveFailures 0 (set_circuitOpen false st) in
  match circuitResetTimer st1 with
  | Some handle => set_circuitResetTimer None (clearTimeout handle st1)
  | None => st1
  end.

(** The callback that [openCircuit] arms, up to its call of [flushQueue()]. *)
Definition circuitReset (st : State) : State :=
  emit (ConsoleLog "LogCollector: Circuit breaker moved to half-open state. Attempting flush.")
    (set_consecutiveFailures 0 (set_circuitOpen false st)).

(** *** Sending (collector.ts, 800-929) *)

Inductive BeaconOutcome : Type :=
  | BeaconAbsent
  | BeaconReturns (queued : bool)
  | BeaconThrows (reason : string).

(** What [this.originalFetch?.call(...)] comes to: [originalFetch] was never
    saved, a response arrives (with the outcome of [response.text()], read
    only when [ok] is false), or the call rejects. *)
Inductive FetchOutcome : Type :=
  | NoFetch
  | Responds (ok : bool) (status : Z) (errorText : option string)
  | FetchRejects (reason : string).

(** What the environment does during one [flushQueue]: the store, the length
    of [JSON.stringify(logsToSend)], [navigator.sendBeacon], the transport,
    and the [Math.random()] drawn for the retry delay. *)
Record FlushEnv : Type := mkFlushEnv {
  idb : IdbEnv;
  payloadLength : Z;
  beacon : BeaconOutcome;
  fetched : FetchOutcome;
  jitter : Q;
}.

Definition handleSendSuccess (env : IdbEnv) (logsSent : list LogEntry)
  (idsToDelete : list string) (st : State) : State :=
  let st1 := closeCircuit (set_consecutiveFailures 0 st) in
  let st2 := emit (OnSendSuccess logsSent) st1 in
  match indexedDBStore st2 with
  | Some store =>
      if (0 <? length idsToDelete)%nat then
        match deleteLogs env (Some idsToDelete) store with
        | (store', Resolved _) => set_indexedDBStore (Some store') st2
        | (store', Rejected) =>
            emit (ConsoleError "LogCollector: Error clearing successfully sent logs from IndexedDB:")
              (set_indexedDBStore (Some store') st2)
        end
      else st2
  | None =>
      match localStorageStore st2 with
      | Some slots =>
          set_localStorageStore (Some (delete (localStorageKey (config st2)) slots)) st2
      | None => st2
      end
  end.

Definition handleSendFailure (random : Q) (logsFailed : list LogEntry)
  (retries : Z) (error : SendError) (originalIds : list string) (st : State)
  : State :=
  let st1 := set_consecutiveFailures (consecutiveFailures st + 1) st in
  let st2 := emit (OnSendFailure error logsFailed) st1 in
  if (CIRCUIT_BREAKER_THRESHOLD <=? consecutiveFailures st2)%Z then
    emit (ConsoleError "LogCollector: Circuit breaker opened due to too many failures.")
      (openCircuit st2)
  else if (retries <? maxRetries (config st2))%Z then
    let delay := (inject_Z (retryDelayMs (config st2)) * 2 ^ retries + random * 100)%Q in
    setTimeout (RetryFlush (retries + 1)) delay
      (emit (ConsoleWarn "LogCollector: Retrying") st2)
  else
    emit (ConsoleError "LogCollector: Max retries reached for batch. Logs will remain in persistence until next successful flush attempt.") st2.

(** [arr.slice(0, n)] *)
Definition slice0 {A : Type} (l : list A) (n : Z) : list A :=
  if (n <? 0)%Z then firstn (Z.to_nat (Z.of_nat (length l) + n)) l
  else firstn (Z.to_nat n) l.

(** [arr.splice(0, n)]: the removed elements, then what is left in [arr]. *)
Definition splice0 {A : Type} (l : list A) (n : Z) : list A * list A :=
  (firstn (Z.to_nat n) l, skipn (Z.to_nat n) l).

(** [logsToSend.map(log => log.id).filter(id => id !== undefined)], with ids
    of the declared type. *)
Definition ids_of (logs : list LogEntry) : list string :=
  omap id_string logs.

Definition apiKeyHeader (cfg : Config) : option string :=
  if String.eqb (apiKey cfg) "" then None else Some (apiKey cfg).

(** The [try] block of [flushQueue], with its two [catch] clauses. *)
Definition transmit (env : FlushEnv) (logsToSend : list LogEntry) (retries : Z)
  (isUnload : bool) (logsIdsToDelete : list string) (st : State) : State :=
  let url := dsn (config st) in
  let viaFetch (st : State) : State :=
    match fetched env with
    | NoFetch =>
        handleSendSuccess (idb env) logsToSend logsIdsToDelete
          (emit (ConsoleLog "LogCollector: Logs sent successfully via fetch.") st)
    | Responds ok status errorText =>
        let st1 := emit (Fetch url (apiKeyHeader (config st)) logsToSend isUnload) st in
        if ok then
          handleSendSuccess (idb env) logsToSend logsIdsToDelete
            (emit (ConsoleLog "LogCollector: Logs sent successfully via fetch.") st1)
        else
          match errorText with
          | Some text =>
              handleSendFailure (jitter env) logsToSend retries
                (HttpError status text) logsIdsToDelete
                (emit (ConsoleError "LogCollector: Failed to send logs") st1)
          | None => emit (ConsoleLog "error") st1
          end
    | FetchRejects reason =>
        (* the inner [catch (error)] only prints the error *)
        emit (ConsoleLog "error")
          (emit (Fetch url (apiKeyHeader (config st)) logsToSend isUnload) st)
    end in
  if isUnload && (payloadLength env <? 60 * 1024)%Z then
    match beacon env with
    | BeaconAbsent => viaFetch st
    | BeaconReturns true =>
        handleSendSuccess (idb env) logsToSend logsIdsToDelete
          (emit (ConsoleLog "LogCollector: Logs sent via navigator.sendBeacon.")
             (emit (SendBeacon url logsToSend) st))
    | BeaconReturns false =>
        viaFetch
          (emit (ConsoleWarn "LogCollector: navigator.sendBeacon failed to queue data. Falling back to fetch.")
             (emit (SendBeacon url logsToSend) st))
    | BeaconThrows reason =>
        (* the outer [catch (error: any)] *)
        handleSendFailure (jitter env) logsToSend retries (Thrown reason)
          logsIdsToDelete
          (emit (ConsoleError "LogCollector: Network error sending logs:")
             (emit (SendBeacon url logsToSend) st))
    end
  else viaFetch st.

(** Lines 811-821: the batch and the ids to delete after it is sent.  With
    a durable store the batch is read from it (a failed read gives no
    records); without one it is spliced off the in-memory queue. *)
Definition selectBatch (env : FlushEnv) (st : State)
  : State * list LogEntry * list string :=
  match indexedDBStore st with
  | Some store =>
      let '(store', read) := getAllLogs (idb env) store in
      let allStoredLogs := match read with
                           | Resolved logs => logs
                           | Rejected => []
                           end in
      let logsToSend := slice0 allStoredLogs (batchSize (config st)) in
      (set_indexedDBStore (Some store') st, logsToSend, ids_of logsToSend)
  | None =>
      let '(logsToSend, rest) := splice0 (logQueue st) (batchSize (config st)) in
      (set_logQueue rest st, logsToSend, [])
  end.

(** The [finally] block of [flushQueue]. *)
Definition finishFlush (logsToSend : list LogEntry) (st : State) : State :=
  let st1 := set_isSending false st in
  match indexedDBStore st1 with
  | Some _ => if (0 <? length logsToSend)%nat then processQueue st1 else st1
  | None => if (0 <? length (logQueue st1))%nat then processQueue st1 else st1
  end.

(** One call of [flushQueue(retries, isUnload)], run to completion.  The call
    that [processQueue] makes in the [finally] block is recorded as
    [CallFlushQueue]; it is a call of its own. *)
Definition flushQueue (env : FlushEnv) (retries : Z) (isUnload : bool)
  (st : State) : State :=
  if isSending st || circuitOpen st || String.eqb (dsn (config st)) "" then st
  else
    let '(st1, logsToSend, logsIdsToDelete) :=
      selectBatch env (set_isSending true st) in
    if (length logsToSend =? 0)%nat then set_isSending false st1
    else
      finishFlush logsToSend
        (transmit env logsToSend retries isUnload logsIdsToDelete st1).

(** *** [captureLog] (collector.ts, 596-693) *)

(** What the environment supplies to one [captureLog]: the [Math.random()]
    of the sampling step, [new Date()], its ISO form, the successive
    [generateUUID()] results, the two context providers, [getDeviceInfo()],
    and the browser's treatment of each store write. *)
Record CaptureEnv : Type := mkCaptureEnv {
  sample : Q;
  today : LocalDate;
  isoNow : string;
  uuid : nat -> string;
  globalCtx : jsval;
  userCtx : jsval;
  deviceInfo : jsval;
  addEnv : nat -> IdbEnv;
  storageEnv : StorageEnv;
}.

(** [await Promise.all(logs.map(log => store.addLog(log)))]: every [addLog]
    runs, and the whole rejects when one of them does.  [i] numbers the head
    of [logs]; [envs] and [uuids] say how the browser treats each write and
    what [generateUUID()] returns in it. *)
Fixpoint addLogs (envs : nat -> IdbEnv) (uuids : nat -> string) (i : nat)
  (logs : list LogEntry) (store : IndexedDBStore) : IndexedDBStore * bool :=
  match logs with
  | [] => (store, true)
  | log :: rest =>
      let '(store1, settled) := addLog (envs i) (uuids (S i)) log store in
      let '(store2, ok) := addLogs envs uuids (S i) rest store1 in
      (store2, match settled with Resolved _ => ok | Rejected => false end)
  end.

(** Lines 669-692: enqueue, persist, then [processQueue]. *)
Definition enqueue (env : CaptureEnv) (logEntry : LogEntry) (st : State) : State :=
  let st1 := set_logQueue (logQueue st ++ [logEntry]) st in
  let st2 :=
    match indexedDBStore st1 with
    | Some store =>
        let logsToPersist := logQueue st1 in
        let st2 := set_logQueue [] st1 in
        let '(store', ok) := addLogs (addEnv env) (uuid env) 0 logsToPersist store in
        let st3 := set_indexedDBStore (Some store') st2 in
        if ok then st3
        else
          let st4 := emit (ConsoleError "LogCollector: Failed to persist log to IndexedDB. Re-queuing to memory and falling back to LocalStorage if enabled.") st3 in
          (* [this.logQueue.unshift(...this.logQueue)] *)
          let st5 := set_logQueue (logQueue st4 ++ logQueue st4) st4 in
          match localStorageStore st5 with
          | Some _ => saveLogsToLocalStorage (storageEnv env) (uuid env) st5
          | None => st5
          end
    | None =>
        match localStorageStore st1 with
        | Some _ => saveLogsToLocalStorage (storageEnv env) (uuid env) st1
        | None => st1
        end
    end in
  processQueue st2.

(** [this.config.beforeSend(logEntry)] and the test of what it returns:
    [None] is a dropped log. *)
Definition callBeforeSend (hook : LogEntry -> option LogEntry) (logEntry : LogEntry)
  : option LogEntry :=
  match hook logEntry with
  | Some modifiedLogEntry =>
      if truthy modifiedLogEntry then Some modifiedLogEntry else None
  | None => None
  end.

(** Lines 657-667: masking and the [beforeSend] hook.  The outer [None] is an
    exception out of [maskSensitiveFields], [Some None] a dropped log. *)
Definition applyBeforeSend (cfg : Config) (logEntry : LogEntry)
  : option (option LogEntry) :=
  match beforeSend cfg with
  | Some hook =>
      let masked :=
        if (0 <? length (maskFields cfg))%nat
        then maskSensitiveFields logEntry (maskFields cfg)
        else Some logEntry in
      match masked with
      | None => None
      | Some logEntry1 => Some (callBeforeSend hook logEntry1)
      end
  | None => Some (Some logEntry)
  end.

(** The record built at lines 640-655. *)
Definition buildLogEntry (env : CaptureEnv) (level : LogLevel) (message : string)
  (additionalContext : jsval) (st : State) : LogEntry :=
  let logEntry :=
    VObj [("level", VStr (level_name level));
          ("message", VStr message);
          ("timestamp", VStr (isoNow env));
          ("service", VStr "frontend-app");
          ("context", additionalContext);
          ("globalContext", globalCtx env);
          ("userContext", userCtx env);
          ("device", deviceInfo env);
          ("breadcrumbs", VArr (List.map crumb_to_js (_breadcrumbs st)))] in
  match indexedDBStore st with
  | Some _ => ensure_id (uuid env 0) logEntry
  | None => logEntry
  end.

(** [captureLog(level, args, additionalContext)]; [message] is the text that
    lines 629-638 join from [args]. *)
Definition captureLog (env : CaptureEnv) (level : LogLevel) (message : string)
  (additionalContext : jsval) (st : State) : State :=
  if (indexOf level levelOrder <? indexOf (logLevel (config st)) levelOrder)%Z
  then st
  else if negb (Qle_bool (sample env) (samplingRate (config st) level)) then st
  else
    let '(st1, pass) := rateLimit (today env) st in
    if negb pass then st1
    else
      let logEntry := buildLogEntry env level message additionalContext st1 in
      match applyBeforeSend (config st1) logEntry with
      | Some (Some logEntry1) => enqueue env logEntry1 st1
      | Some None | None => st1
      end.

(** *** The unload handler (collector.ts, 191-229) *)

Record UnloadEnv : Type := mkUnloadEnv {
  unloadUuid : nat -> string;
  unloadAdd : nat -> IdbEnv;
  unloadRead : IdbEnv;
  unloadPayloadLength : Z;
  unloadBeacon : BeaconOutcome;
  unloadDelete : IdbEnv;
  unloadFlush : FlushEnv;
}.

Definition unloadHandler (env : UnloadEnv) (st : State) : State :=
  let st1 :=
    match indexedDBStore st with
    | Some store =>
        if (0 <? length (logQueue st))%nat then
          let logs := imap (fun i log => ensure_id (unloadUuid env i) log) (logQueue st) in
          let '(store', ok) := addLogs (unloadAdd env) (unloadUuid env) 0 logs store in
          let st' := set_logQueue [] (set_indexedDBStore (Some store') st) in
          if ok then st'
          else emit (ConsoleError "LogCollector: Error saving pending logs to IndexedDB on unload") st'
        else st
    | None => st
    end in
  let viaFlush (st : State) : State := flushQueue (unloadFlush env) 0 true st in
  match indexedDBStore st1 with
  | Some store =>
      if isSending st1 then viaFlush st1
      else
        let '(store', read) := getAllLogs (unloadRead env) store in
        let logsToSendFromDB := match read with
                                | Resolved logs => logs
                                | Rejected => []
                                end in
        let st2 := set_indexedDBStore (Some store') st1 in
        match unloadBeacon env with
        | BeaconAbsent => viaFlush st2
        | outcome =>
            if (0 <? length logsToSendFromDB)%nat
               && negb (String.eqb (dsn (config st2)) "")
            then
              if (unloadPayloadLength env <? 60 * 1024)%Z then
                let st3 := emit (SendBeacon (dsn (config st2)) logsToSendFromDB) st2 in
                match outcome with
                | BeaconReturns true =>
                    let st4 := emit (ConsoleLog "LogCollector: Logs sent via navigator.sendBeacon on unload.") st3 in
                    let sentIds := ids_of logsToSendFromDB in
                    if (0 <? length sentIds)%nat then
                      match deleteLogs (unloadDelete env) (Some sentIds) store' with
                      | (store'', Resolved _) => set_indexedDBStore (Some store'') st4
                      | (store'', Rejected) =>
                          emit (ConsoleError "Error clearing sent logs from DB")
                            (set_indexedDBStore (Some store'') st4)
                      end
                    else st4
                | BeaconThrows _ => st3
                | _ =>
                    viaFlush
                      (emit (ConsoleWarn "LogCollector: navigator.sendBeacon failed to queue data on unload. Falling back to fetch.") st3)
                end
              else
                viaFlush
                  (emit (ConsoleWarn "LogCollector: Logs too large for sendBeacon on unload. Falling back to fetch with keepalive.") st2)
            else viaFlush st2
        end
  | None => viaFlush st1
  end.

(** *** [updateConfig] (collector.ts, 163-189) *)

Definition updateConfig (today : LocalDate) (newConfig : Partial.t) (st : State)
  : State :=
  let oldMaxLogsPerMinute := maxLogsPerMinute (config st) in
  let st1 := set_config (spread (config st) newConfig) st in
  let st2 := emit (ConsoleLog "LogCollector: Configuration updated.") st1 in
  let st3 :=
    match Partial.batchInterval newConfig, Partial.batchSize newConfig with
    | None, None => st2
    | _, _ => startBatchTimer st2
    end in
  match Partial.maxLogsPerMinute newConfig with
  | Some newMax =>
      if (newMax =? oldMaxLogsPerMinute)%Z then st3
      else
        let st4 := match rateLimitTimer st3 with
                   | Some handle => set_rateLimitTimer None (clearTimeout handle st3)
                   | None => st3
                   end in
        if (0 <? maxLogsPerMinute (config st4))%Z then initRateLimiter today st4
        else st4
  | None => st3
  end.

(** *** The constructor (collector.ts, 92-153) *)

(** The page the collector starts in: which storage APIs exist and what they
    hold from earlier visits. *)
Record BootEnv : Type := mkBootEnv {
  bootDate : LocalDate;
  indexedDB : option (list (string * LogEntry));
  localStorage : option (gmap string (list LogEntry));
  bootIdb : IdbEnv;
}.

Definition blank (cfg : Config) : State :=
  mkState cfg [] [] None false false 0 None ∅ 0 None None None 0 [] 1 [].

Definition construct (given : Partial.t) (env : BootEnv) : State :=
  let st0 := blank (spread defaults given) in
  let st1 := if String.eqb (dsn (config st0)) ""
             then emit (ConsoleWarn "LogCollector: DSN is not configured. Logs will not be sent.") st0
             else st0 in
  let st2 :=
    match enableIndexedDB (config st1), indexedDB env with
    | true, Some persisted =>
        loadLogsFromPersistence (bootIdb env)
          (set_indexedDBStore (Some (mkStore false persisted [])) st1)
    | _, _ =>
        match enableLocalStorage (config st1), localStorage env with
        | true, Some slots =>
            loadLogsFromLocalStorage (set_localStorageStore (Some slots) st1)
        | _, _ => st1
        end
    end in
  let st3 := startBatchTimer st2 in
  if (0 <? maxLogsPerMinute (config st3))%Z
  then initRateLimiter (bootDate env) st3
  else st3.

(** *** The event loop *)

(** What can happen to a running collector: time passes, a pending timer
    whose time has come fires, or one of the entry points is called
    ([flushQueue] by [processQueue] or the unload handler, [captureLog] and
    [addBreadcrumb] by the adapters and the public API, [updateConfig]), or
    the page unloads. *)
Inductive Event : Type :=
  | Advance (dt : Q)
  | Fire (t : Timer) (env : FlushEnv) (today : LocalDate)
  | CallFlush (env : FlushEnv) (retries : Z) (isUnload : bool)
  | CallCapture (env : CaptureEnv) (level : LogLevel) (message : string)
      (additionalContext : jsval)
  | CallBreadcrumb (ts : string) (type : BreadcrumbType) (message : string)
      (data : option jsval)
  | CallUpdate (today : LocalDate) (newConfig : Partial.t)
  | Unload (env : UnloadEnv).

(** The callback of timer [t].  A timeout is gone once it fires; the
    janitor's interval is armed again. *)
Definition fire (t : Timer) (env : FlushEnv) (today : LocalDate) (st : State)
  : State :=
  let st1 := clearTimeout (tid t) st in
  match action t with
  | BatchTick => startBatchTimer (flushQueue env 0 false st1)
  | RetryFlush retries => flushQueue env retries false st1
  | CircuitReset => flushQueue env 0 false (circuitReset st1)
  | RateJanitor =>
      rateJanitor today
        (set_timers (timers st1 ++ [mkTimer (tid t) (due t + 60000) RateJanitor]) st1)
  end.

Definition run (e : Event) (st : State) : State :=
  match e with
  | Advance dt => set_clock (clock st + dt) st
  | Fire t env today => fire t env today st
  | CallFlush env retries isUnload => flushQueue env retries isUnload st
  | CallCapture env level message ctx => captureLog env level message ctx st
  | CallBreadcrumb ts type message data => addBreadcrumb ts type message data st
  | CallUpdate today newConfig => updateConfig today newConfig st
  | Unload env => unloadHandler env st
  end.

(** When an event can happen: time does not run backwards, and a timer
    fires only while pending and not before it is due. *)
Definition enabled (e : Event) (st : State) : Prop :=
  match e with
  | Advance dt => (0 <= dt)%Q
  | Fire t _ _ => In t (timers st) /\ (due t <= clock st)%Q
  | _ => True
  end.

Inductive steps : State -> list Event -> State -> Prop :=
  | steps_nil st : steps st [] st
  | steps_cons st e es st' :
      enabled e st -> steps (run e st) es st' -> steps st (e :: es) st'.

(** *** Runs of the delivery engine *)

(** A regular flush from [st] is attempted ([st] is idle, the circuit is
    closed, a [dsn] is configured, there are records to send) and the
    endpoint answers it with a status that is not 2xx. *)
Definition http_failed_flush (env : FlushEnv) (st : State) : bool :=
  negb (isSending st) && negb (circuitOpen st)
  && negb (String.eqb (dsn (config st)) "")
  && (0 <? length (selectBatch env (set_isSending true st)).1.2)%nat
  && match fetched env with
     | Responds false _ (Some _) => true
     | _ => false
     end.

(** [flushQueue(retries)] called for each of [calls], in order. *)
Definition flushes (calls : list (FlushEnv * Z)) (st : State) : State :=
  fold_left (fun st call => flushQueue call.1 call.2 false st) calls st.

(** Each of these calls is a flush that fails over HTTP. *)
Fixpoint all_http_failed (calls : list (FlushEnv * Z)) (st : State) : bool :=
  match calls with
  | [] => true
  | call :: rest =>
      http_failed_flush call.1 st
      && all_http_failed rest (flushQueue call.1 call.2 false st)
  end.

(** A regular flush from [st] is attempted and the endpoint answers it with
    a 2xx status. *)
Definition http_ok_flush (env : FlushEnv) (st : State) : bool :=
  negb (isSending st) && negb (circuitOpen st)
  && negb (String.eqb (dsn (config st)) "")
  && (0 <? length (selectBatch env (set_isSending true st)).1.2)%nat
  && match fetched env with
     | Responds true _ _ => true
     | _ => false
     end.

(** *** Invariants of the breaker *)

(** Every pending reset timer is the one whose handle the breaker holds, and
    the circuit is open while one is pending. *)
Definition reset_tracked (st : State) : Prop :=
  forall t, In t (timers st) -> action t = CircuitReset ->
    circuitOpen st = true /\ circuitResetTimer st = Some (tid t).

(** [st'] has the clock and the breaker of [st], and no reset timer that
    [st] did not have. *)
Definition quiet (st st' : State) : Prop :=
  clock st' = clock st /\
  circuitOpen st' = circuitOpen st /\
  consecutiveFailures st' = consecutiveFailures st /\
  circuitResetTimer st' = circuitResetTimer st /\
  forall t, In t (timers st') -> action t = CircuitReset -> In t (timers st).

(** [st'] has the clock of [st] and keeps its reset timers tracked. *)
Definition fair (st st' : State) : Prop :=
  clock st' = clock st /\ (reset_tracked st -> reset_tracked st').

(** Until [deadline] the circuit is open and no reset timer is due. *)
Definition held_open (deadline : Q) (st : State) : Prop :=
  (clock st < deadline)%Q ->
  circuitOpen st = true /\
  forall t, In t (timers st) -> action t = CircuitReset -> (deadline <= due t)%Q.

(** The state after [events], and what it takes for them to be possible. *)
Definition runs (events : list Event) (st : State) : State :=
  fold_left (fun st e => run e st) events st.

Fixpoint all_enabled (events : list Event) (st : State) : Prop :=
  match events with
  | [] => True
  | e :: rest => enabled e st /\ all_enabled rest (run e st)
  end.

(** A state that a collector can be in: some events after its construction. *)
Definition reachable (st : State) : Prop :=
  exists given boot events, steps (construct given boot) events st.

(** *** Runs of the breadcrumb ring and of the rate limiter *)

(** What [beforeBreadcrumb] lets through, as it is pushed. *)
Definition accepted (cfg : Config) (inputs : list Breadcrumb) : list Breadcrumb :=
  omap (fun b => match beforeBreadcrumb cfg with
                 | Some hook => hook b
                 | None => Some b
                 end) inputs.

(** [addBreadcrumb] called once for each of [inputs], in order. *)
Definition addBreadcrumbs (inputs : list Breadcrumb) (st : State) : State :=
  fold_left
    (fun st b => addBreadcrumb (timestamp b) (type b) (message b) (data b) st)
    inputs st.

(** What touches the rate limiter: a log reaching step 3 of [captureLog], or
    a tick of the janitor timer; each reads the wall clock. *)
Inductive LimiterEvent : Type :=
  | Arrival (date : LocalDate)
  | JanitorTick (date : LocalDate).


(** The minute key and the verdict of each arrival, in order. *)
Fixpoint limiterRun (events : list LimiterEvent) (st : State) : list (Z * bool) :=
  match events with
  | [] => []
  | Arrival date :: rest =>
      let '(st1, pass) := rateLimit date st in
      (minuteKey date, pass) :: limiterRun rest st1
  | JanitorTick date :: rest => limiterRun rest (rateJanitor date st)
  end.

(** The count that the limiter holds for minute [key]. *)
Definition counted (key : Z) (st : State) : nat :=
  default 0%nat (logCounts st !! key).

(** The count an arrival of minute [key] starts from: the stored one while
    [key] is the current minute, zero after the reset otherwise. *)
Definition base_count (key : Z) (st : State) : nat :=
  if (currentMinute st =? key)%Z then counted key st else 0%nat.


(** [lastn n l]: the last [n] elements of [l], in order. *)
Definition lastn {A : Type} (n : nat) (l : list A) : list A :=
  skipn (length l - n) l.

End Collector.

(** ** Calendar minutes *)

Module Calendar.
Import Conf.



End Calendar.

(** ** The helpers at the top of [collector.ts] *)

Module Util.
Import Js Conf.

(** *** [generateUUID] (collector.ts, 55-61; store.ts, 10-16) *)

(** [x | 0] on a number: truncate, then wrap to 32 bits, signed. *)
Definition truncate (x : Q) : Z := Z.quot (Qnum x) (Zpos (Qden x)).

Definition toInt32 (x : Q) : Z :=
  ((truncate x + 2 ^ 31) mod 2 ^ 32 - 2 ^ 31)%Z.

(** [v.toString(16)] for an integer [v]. *)
Definition toString16 (v : Z) : string :=
  let digits (n : Z) :=
    HexadecimalString.NilZero.string_of_uint (N.to_hex_uint (Z.to_N n)) in
  if (v <? 0)%Z then "-" ++ digits (- v)%Z else digits v.

(** The callback of [replace]: [c] is the matched character and [random]
    the [Math.random()] drawn for it. *)
Definition replacement (c : ascii) (random : Q) : string :=
  let r := toInt32 (random * 16) in
  let v := if Ascii.eqb c "x" then r else Z.lor (Z.land r 3) 8 in
  toString16 v.

(** [template.replace(/[xy]/g, callback)]; [draws i] is the [i]-th
    [Math.random()] of the call. *)
Fixpoint replace_xy (template : string) (draws : nat -> Q) (i : nat) : string :=
  match template with
  | EmptyString => EmptyString
  | String c rest =>
      if Ascii.eqb c "x" || Ascii.eqb c "y"
      then replacement c (draws i) ++ replace_xy rest draws (S i)
      else String c (replace_xy rest draws i)
  end.

Definition generateUUID (draws : nat -> Q) : string :=
  replace_xy "xxxxxxxx-xxxx-4xxx-yxxx-xxxxxxxxxxxx" draws 0.

Definition hex_digits : list ascii :=
  ["0"; "1"; "2"; "3"; "4"; "5"; "6"; "7"; "8"; "9"; "a"; "b"; "c"; "d"; "e"; "f"]%char.

(** *** [matchesUrl] and [matchesError] (collector.ts, 27-52) *)

(** [s.includes(pattern)] *)
Fixpoint includes_string (s pattern : string) : bool :=
  String.prefix pattern s
  || match s with
     | EmptyString => false
     | String _ rest => includes_string rest pattern
     end.

(** A regular expression object: its [global] and [sticky] flags, its
    [lastIndex], and the matcher of its pattern: [matchAt s i] is the end of
    the match that starts at index [i] of [s], when there is one. *)
Record RegExp : Type := mkRegExp {
  global : bool;
  sticky : bool;
  lastIndex : nat;
  matchAt : string -> nat -> option nat;
}.

(** The first match that starts at one of the [n + 1] indices from [i]. *)
Fixpoint search (matcher : string -> nat -> option nat) (s : string) (i n : nat)
  : option nat :=
  match matcher s i with
  | Some e => Some e
  | None =>
      match n with
      | O => None
      | S n' => search matcher s (S i) n'
      end
  end.

(** [r.test(s)], and [r] afterwards.  Without the [g] and [y] flags the
    search starts at 0 and [lastIndex] is left alone; with one of them it
    starts at [lastIndex] (and with [y] stays there), a match moves
    [lastIndex] to its end and a failure puts it back to 0. *)
Definition test (r : RegExp) (s : string) : bool * RegExp :=
  let stateful := global r || sticky r in
  let start := if stateful then lastIndex r else 0%nat in
  let result :=
    if (String.length s <? start)%nat then None
    else if sticky r then matchAt r s start
    else search (matchAt r) s start (String.length s - start) in
  let moved (to : nat) :=
    if stateful then mkRegExp (global r) (sticky r) to (matchAt r) else r in
  match result with
  | Some e => (true, moved e)
  | None => (false, moved 0%nat)
  end.

(** [patterns.some(callback)] for a callback that may change the pattern it
    is given: the patterns after the first accepted one are not visited. *)
Fixpoint some_of {P : Type} (callback : P -> bool * P) (patterns : list P)
  : bool * list P :=
  match patterns with
  | [] => (false, [])
  | pattern :: rest =>
      let '(accepted, pattern') := callback pattern in
      if accepted then (true, pattern' :: rest)
      else let '(found, rest') := some_of callback rest in
           (found, pattern' :: rest')
  end.

(** A pattern of [ignoreUrls]. *)
Inductive UrlPattern : Type :=
  | UrlString (pattern : string)
  | UrlRegExp (pattern : RegExp).

(** [matchesUrl(url, patterns)], and the patterns afterwards. *)
Definition matchesUrl (url : string) (patterns : list UrlPattern)
  : bool * list UrlPattern :=
  some_of (fun pattern =>
             match pattern with
             | UrlString text => (includes_string url text, pattern)
             | UrlRegExp r => let '(found, r') := test r url in (found, UrlRegExp r')
             end) patterns.

(** An [Error | string]. *)
Inductive ErrorValue : Type :=
  | ErrorString (text : string)
  | ErrorObject (name message : string) (stack : option string).

(** A pattern of [ignoreErrors]; a function is taken by what it returns for
    an error, and [ErrorOther] is a value of any other type. *)
Inductive ErrorPattern : Type :=
  | ErrorText (pattern : string)
  | ErrorRegExp (pattern : RegExp)
  | ErrorFunction (accepts : ErrorValue -> bool)
  | ErrorOther.

(** [matchesError(error, patterns)], and the patterns afterwards. *)
Definition matchesError (error : ErrorValue) (patterns : list ErrorPattern)
  : bool * list ErrorPattern :=
  let errorMessage := match error with
                      | ErrorString text => text
                      | ErrorObject _ message _ => message
                      end in
  some_of (fun pattern =>
             match pattern with
             | ErrorText text => (includes_string errorMessage text, pattern)
             | ErrorRegExp r =>
                 let '(found, r') := test r errorMessage in (found, ErrorRegExp r')
             | ErrorFunction accepts => (accepts error, pattern)
             | ErrorOther => (false, pattern)
             end) patterns.

(** The regular expression has neither the [g] nor the [y] flag. *)
Definition flagless (r : RegExp) : bool := negb (global r || sticky r).

Definition flagless_url (pattern : UrlPattern) : bool :=
  match pattern with
  | UrlString _ => true
  | UrlRegExp r => flagless r
  end.

Definition flagless_error (pattern : ErrorPattern) : bool :=
  match pattern with
  | ErrorRegExp r => flagless r
  | _ => true
  end.

(** The pattern of [r] matches somewhere in [s]. *)
Definition occurs (r : RegExp) (s : string) : Prop :=
  exists i e, (i <= String.length s)%nat /\ matchAt r s i = Some e.

End Util.

(** ** [debounce] and [throttle] *)

Module Wrappers.

(** *** [debounce] and [throttle] (collector.ts, 4-25) *)

(** What happens to a wrapped function: it is called, time passes, or the
    timer with some handle fires. *)
Inductive WrapperEvent (A : Type) : Type :=
  | Called (args : A)
  | Elapsed (dt : Q)
  | Fired (handle : nat).
Arguments Called {A} args.
Arguments Elapsed {A} dt.
Arguments Fired {A} handle.

Section Debounce.
Context {A : Type}.

(** The closure of [debounce(func, delay)] and the browser's timers: the
    clock, the variable [timeout], the timers armed and neither fired nor
    cleared (handle, due time, the arguments that [func] will be applied
    to), the next handle, and the arguments [func] was applied to so far. *)
Record Debounced : Type := mkDebounced {
  d_clock : Q;
  timeout : option nat;
  d_timers : list (nat * Q * A);
  d_next : nat;
  d_applied : list A;
}.

(** [debounce(func, delay)], made at time [now]: [timeout] is undefined. *)
Definition debounce (now : Q) : Debounced := mkDebounced now None [] 1 [].

(** A call of the function that [debounce] returns. *)
Definition debounced (delay : Q) (args : A) (d : Debounced) : Debounced :=
  let kept := match timeout d with
              | Some handle =>
                  List.filter (fun t => negb (Nat.eqb t.1.1 handle)) (d_timers d)
              | None => d_timers d
              end in
  mkDebounced (d_clock d) (Some (d_next d))
    (kept ++ [(d_next d, (d_clock d + delay)%Q, args)]) (S (d_next d)) (d_applied d).

Definition debounce_run (delay : Q) (e : WrapperEvent A) (d : Debounced) : Debounced :=
  match e with
  | Called args => debounced delay args d
  | Elapsed dt =>
      mkDebounced (d_clock d + dt)%Q (timeout d) (d_timers d) (d_next d) (d_applied d)
  | Fired handle =>
      match List.find (fun t => Nat.eqb t.1.1 handle) (d_timers d) with
      | Some t =>
          mkDebounced (d_clock d) (timeout d)
            (List.filter (fun t => negb (Nat.eqb t.1.1 handle)) (d_timers d))
            (d_next d) (d_applied d ++ [t.2])
      | None => d
      end
  end.

(** Time does not run backwards, and a timer fires only while pending and
    not before it is due. *)
Definition debounce_enabled (e : WrapperEvent A) (d : Debounced) : bool :=
  match e with
  | Called _ => true
  | Elapsed dt => Qle_bool 0 dt
  | Fired handle =>
      existsb (fun t => Nat.eqb t.1.1 handle && Qle_bool t.1.2 (d_clock d)) (d_timers d)
  end.

(** The closure after [events], when they can happen in this order. *)
Fixpoint debounce_runs (delay : Q) (events : list (WrapperEvent A)) (d : Debounced)
  : option Debounced :=
  match events with
  | [] => Some d
  | e :: rest =>
      if debounce_enabled e d then debounce_runs delay rest (debounce_run delay e d)
      else None
  end.

(** The call that is waiting to be passed on after [events]: its time and
    its arguments.  A later call replaces it, a firing timer uses it up. *)
Fixpoint waiting_call (now : Q) (last : option (Q * A)) (events : list (WrapperEvent A))
  : option (Q * A) :=
  match events with
  | [] => last
  | Called args :: rest => waiting_call now (Some (now, args)) rest
  | Elapsed dt :: rest => waiting_call (now + dt)%Q last rest
  | Fired _ :: rest => waiting_call now None rest
  end.

(** The calls passed on during [events]: those that were still waiting when
    a timer fired. *)
Fixpoint passed_on (last : option A) (events : list (WrapperEvent A)) : list A :=
  match events with
  | [] => []
  | Called args :: rest => passed_on (Some args) rest
  | Elapsed _ :: rest => passed_on last rest
  | Fired _ :: rest =>
      match last with
      | Some args => args :: passed_on None rest
      | None => passed_on None rest
      end
  end.

(** The timers of [d] are those of the waiting call. *)
Definition tracks (delay : Q) (d : Debounced) (last : option (Q * A)) : Prop :=
  match last with
  | Some (called_at, args) =>
      exists handle, timeout d = Some handle /\
                     d_timers d = [(handle, (called_at + delay)%Q, args)]
  | None => d_timers d = []
  end.

End Debounce.
Arguments Debounced A : clear implicits.

Section Throttle.
Context {A R : Type}.

(** The closure of [throttle(func, limit)] and the browser's timers: the
    clock, the variables [inThrottle] and [lastResult] ([undefined] at
    first), the timers pending (handle, due time), the next handle, the
    arguments [func] was applied to, and what each call returned. *)
Record Throttled : Type := mkThrottled {
  t_clock : Q;
  inThrottle : bool;
  lastResult : option R;
  t_timers : list (nat * Q);
  t_next : nat;
  t_applied : list A;
  t_returned : list (option R);
}.

Definition throttle (now : Q) : Throttled := mkThrottled now false None [] 1 [] [].

(** A call of the function that [throttle] returns. *)
Definition throttled (func : A -> R) (limit : Q) (args : A) (t : Throttled) : Throttled :=
  if inThrottle t then
    mkThrottled (t_clock t) true (lastResult t) (t_timers t) (t_next t) (t_applied t)
      (t_returned t ++ [lastResult t])
  else
    mkThrottled (t_clock t) true (Some (func args))
      (t_timers t ++ [(t_next t, (t_clock t + limit)%Q)]) (S (t_next t))
      (t_applied t ++ [args]) (t_returned t ++ [Some (func args)]).

Definition throttle_run (func : A -> R) (limit : Q) (e : WrapperEvent A) (t : Throttled)
  : Throttled :=
  match e with
  | Called args => throttled func limit args t
  | Elapsed dt =>
      mkThrottled (t_clock t + dt)%Q (inThrottle t) (lastResult t) (t_timers t)
        (t_next t) (t_applied t) (t_returned t)
  | Fired handle =>
      match List.find (fun p => Nat.eqb p.1 handle) (t_timers t) with
      | Some _ =>
          mkThrottled (t_clock t) false (lastResult t)
            (List.filter (fun p => negb (Nat.eqb p.1 handle)) (t_timers t))
            (t_next t) (t_applied t) (t_returned t)
      | None => t
      end
  end.

Definition throttle_enabled (e : WrapperEvent A) (t : Throttled) : bool :=
  match e with
  | Called _ => true
  | Elapsed dt => Qle_bool 0 dt
  | Fired handle =>
      existsb (fun p => Nat.eqb p.1 handle && Qle_bool p.2 (t_clock t)) (t_timers t)
  end.

Fixpoint throttle_runs (func : A -> R) (limit : Q) (events : list (WrapperEvent A))
  (t : Throttled) : option Throttled :=
  match events with
  | [] => Some t
  | e :: rest =>
      if throttle_enabled e t
      then throttle_runs func limit rest (throttle_run func limit e t)
      else None
  end.

(** The calls let through during [events]: the first one, and the first one
    after each firing of the timer. *)
Fixpoint let_through (open_ : bool) (events : list (WrapperEvent A)) : list A :=
  match events with
  | [] => []
  | Called args :: rest =>
      if open_ then args :: let_through false rest else let_through false rest
  | Elapsed _ :: rest => let_through open_ rest
  | Fired _ :: rest => let_through true rest
  end.

(** The time of the last call let through, while its window is shut. *)
Fixpoint shut_since (now : Q) (since : option Q) (events : list (WrapperEvent A))
  : option Q :=
  match events with
  | [] => since
  | Called _ :: rest =>
      shut_since now (match since with Some at_ => Some at_ | None => Some now end) rest
  | Elapsed dt :: rest => shut_since (now + dt)%Q since rest
  | Fired _ :: rest => shut_since now None rest
  end.

(** What the calls of [events] return: the result of the last call let
    through. *)
Fixpoint answers (func : A -> R) (open_ : bool) (last : option R)
  (events : list (WrapperEvent A)) : list (option R) :=
  match events with
  | [] => []
  | Called args :: rest =>
      if open_ then Some (func args) :: answers func false (Some (func args)) rest
      else last :: answers func false last rest
  | Elapsed _ :: rest => answers func open_ last rest
  | Fired _ :: rest => answers func true last rest
  end.

(** The window is shut exactly while its timer is pending. *)
Definition window (limit : Q) (t : Throttled) (since : option Q) : Prop :=
  match since with
  | Some applied_at =>
      inThrottle t = true /\
      exists handle, t_timers t = [(handle, (applied_at + limit)%Q)]
  | None => inThrottle t = false /\ t_timers t = []
  end.

End Throttle.
Arguments Throttled A R : clear implicits.

End Wrappers.

(** ** The key order of the object store *)

Module Keyed.
Import Js Conf Store.

(** The keys are in strictly ascending order. *)
Fixpoint ascending (keys : list string) : bool :=
  match keys with
  | k1 :: (k2 :: _) as rest =>
      match String.compare k1 k2 with
      | Lt => ascending rest
      | _ => false
      end
  | _ => true
  end.

(** Every record is held under its own [id]. *)
Definition keyed_by_id (objs : list (string * LogEntry)) : bool :=
  forallb (fun kv => match id_string kv.2 with
                     | Some key => String.eqb key kv.1
                     | None => false
                     end) objs.

Definition well_keyed (objs : list (string * LogEntry)) : bool :=
  ascending (List.map fst objs) && keyed_by_id objs.

Definition records (s : IndexedDBStore) : list LogEntry := List.map snd (objects s).
Definition keys (s : IndexedDBStore) : list string := List.map fst (objects s).

(** [ids.includes(id)] *)
Definition listed (ids : list string) (id : string) : bool :=
  existsb (String.eqb id) ids.


(** One operation on the store, and a sequence of them; each comes with what
    the browser does to its requests. *)
Inductive Request : Type :=
  | Add (uuid : string) (log : LogEntry)
  | GetAll
  | Clear
  | Delete (ids : option (list string)).

Definition perform (step : IdbEnv * Request) (s : IndexedDBStore) : IndexedDBStore :=
  match step.2 with
  | Add uuid log => (addLog step.1 uuid log s).1
  | GetAll => (getAllLogs step.1 s).1
  | Clear => (clearLogs step.1 s).1
  | Delete ids => (deleteLogs step.1 ids s).1
  end.

Definition performs (steps : list (IdbEnv * Request)) (s : IndexedDBStore)
  : IndexedDBStore :=
  fold_left (fun s step => perform step s) steps s.

(** The records after an attempted [add] at [key]. *)
Definition put (key : string) (log : LogEntry) (objs : list (string * LogEntry))
  : list (string * LogEntry) :=
  default objs (idb_add key log objs).

(** Every character of [s] is an ASCII character.  On such strings the
    order of the bytes is the order of the UTF-16 code units, by which
    IndexedDB compares string keys. *)
Definition ascii_only (s : string) : bool :=
  forallb (fun c => (nat_of_ascii c <? 128)%nat) (list_ascii_of_string s).

(** The record that an [Add] writes has an ASCII string as its id (its own,
    or else the generated one); IndexedDB also takes numbers, dates and
    arrays as keys. *)
Definition plain_id (step : IdbEnv * Request) : bool :=
  match step.2 with
  | Add uuid log =>
      match id_string (Collector.ensure_id uuid log) with
      | Some key => ascii_only key
      | None => false
      end
  | _ => true
  end.

End Keyed.

(** ** Timers, stores and the sending lock of a running collector *)

Module Discipline.
Import Js Conf Store Collector.

(** [o] holds a value: the test [if (this.indexedDBStore)]. *)
Definition present {A : Type} (o : option A) : bool :=
  match o with Some _ => true | None => false end.

(** The field of the collector that holds the handle of a timer with this
    callback; the retries of [handleSendFailure] are held nowhere. *)
Definition owner (st : State) (t : Timer) : Prop :=
  match action t with
  | BatchTick => timer st = Some (tid t)
  | CircuitReset => circuitResetTimer st = Some (tid t)
  | RateJanitor => rateLimitTimer st = Some (tid t)
  | RetryFlush _ => True
  end.

Definition handle_below (n : nat) (handle : option nat) : Prop :=
  match handle with Some h => (h < n)%nat | None => True end.

Definition distinct_handles (a b : option nat) : Prop :=
  match a, b with Some x, Some y => x <> y | _, _ => True end.

(** The pending timers have handles of their own, all handed out already,
    and each batch, reset and janitor timer is the one whose handle the
    collector holds in the field for it. *)
Definition timers_owned (st : State) : Prop :=
  List.NoDup (List.map tid (timers st)) /\
  Forall (fun t => (tid t < nextTimer st)%nat) (timers st) /\
  (handle_below (nextTimer st) (timer st) /\
   handle_below (nextTimer st) (circuitResetTimer st) /\
   handle_below (nextTimer st) (rateLimitTimer st)) /\
  (distinct_handles (timer st) (circuitResetTimer st) /\
   distinct_handles (timer st) (rateLimitTimer st) /\
   distinct_handles (circuitResetTimer st) (rateLimitTimer st)) /\
  Forall (owner st) (timers st).

(** A batch timer is pending. *)
Definition batch_pending (st : State) : Prop :=
  exists t, In t (timers st) /\ action t = BatchTick.

(** [st'] has the stores that [st] has, and keeps the timers in order. *)
Definition loose (st st' : State) : Prop :=
  present (indexedDBStore st') = present (indexedDBStore st) /\
  present (localStorageStore st') = present (localStorageStore st) /\
  (timers_owned st -> timers_owned st') /\
  (timers_owned st -> batch_pending st -> batch_pending st').

(** The same, and [isSending] is as it was. *)
Definition tidy (st st' : State) : Prop :=
  loose st st' /\ isSending st' = isSending st.

(** What the constructor establishes. *)
Definition orderly (st : State) : Prop :=
  timers_owned st /\ batch_pending st /\ isSending st = false /\
  present (indexedDBStore st) && present (localStorageStore st) = false.

End Discipline.

(** ** Batches and their delivery *)

Module Batches.
Import Js Conf Store Collector Keyed.

(** The browser lets the requests of one operation on [s] through. *)
Definition lets_through (env : IdbEnv) (s : IndexedDBStore) : bool :=
  (db s || negb (openFails env)) && negb (requestFails env).

(** [st'] has the effects of [st] and then some more, none of them a call
    of [flushQueue] by [processQueue]. *)
Definition calm (st st' : State) : Prop :=
  exists more, effects st' = effects st ++ more /\ ~ In CallFlushQueue more.

(** [captureLog] has accepted each of [entries], in order, and come to
    lines 669-692 with it. *)
Definition enqueues (envs : list CaptureEnv) (entries : list LogEntry) (st : State)
  : State :=
  fold_left (fun st step => enqueue step.1 step.2 st) (zip envs entries) st.

End Batches.

(** ** Concrete runs *)

Module Scenario.
Import Js Conf Store Collector.

Definition endpoint : string := "http://127.0.0.1:8080/ingest".

(** A collector configured with a [dsn], the durable store and one record
    per batch; everything else at its default. *)
Definition durable : Partial.t :=
  {| Partial.dsn := Some endpoint;
     Partial.apiKey := Some "super_secret_api_key";
     Partial.batchSize := Some 1%Z;
     Partial.batchInterval := None;
     Partial.maxRetries := None;
     Partial.retryDelayMs := None;
     Partial.logLevel := None;
     Partial.maskFields := None;
     Partial.samplingRates := None;
     Partial.maxLogsPerMinute := None;
     Partial.beforeSend := None;
     Partial.beforeBreadcrumb := None;
     Partial.enableLocalStorage := Some true;
     Partial.localStorageKey := None;
     Partial.maxLocalStorageSize := None;
     Partial.enableIndexedDB := Some true;
     Partial.maxBreadcrumbs := None |}.

Definition healthy : IdbEnv := mkIdbEnv false false.
Definition failing : IdbEnv := mkIdbEnv false true.

Definition morning : LocalDate := mkLocalDate 2025 0 15 10 30.

(** A page with both storage APIs and nothing stored yet. *)
Definition page : BootEnv := mkBootEnv morning (Some []) (Some ∅) healthy.

(** A capture whose store writes succeed and one whose writes fail; the
    record gets [id] as its id. *)
Definition capture (id : string) (writes : IdbEnv) : CaptureEnv :=
  {| sample := 0; today := morning; isoNow := "2025-01-15T10:30:00.000Z";
     uuid := fun _ => id;
     globalCtx := VObj []; userCtx := VNull; deviceInfo := VObj [];
     addEnv := fun _ => writes;
     storageEnv := mkStorageEnv 100 false |}.

(** Flushes answered with HTTP 500, with HTTP 200, and with a rejected
    [fetch]; no beacon, the store reads well. *)
Definition answered (outcome : FetchOutcome) : FlushEnv :=
  mkFlushEnv healthy 100 BeaconAbsent outcome 0.

Definition http500 : FlushEnv := answered (Responds false 500 (Some "Internal Server Error")).
Definition http200 : FlushEnv := answered (Responds true 200 None).
Definition offline : FlushEnv := answered (FetchRejects "TypeError: Failed to fetch").

(** The record that [captureLog] builds for [info(message)] with id [id]. *)
Definition info_entry (message id : string) : LogEntry :=
  VObj [("level", VStr "info"); ("message", VStr message);
        ("timestamp", VStr "2025-01-15T10:30:00.000Z");
        ("service", VStr "frontend-app"); ("context", VObj []);
        ("globalContext", VObj []); ("userContext", VNull);
        ("device", VObj []); ("breadcrumbs", VArr []); ("id", VStr id)].

(** Two results of [generateUUID()]. *)
Definition uuid_b : string := "b3f1c2d4-5e6f-4a7b-8c9d-0e1f2a3b4c5d".
Definition uuid_a : string := "a1b2c3d4-e5f6-4a7b-9c8d-7e6f5a4b3c2d".

(** Two logs, accepted in this order; the first gets the id [uuid_b], the
    second the id [uuid_a]. *)
Definition first_captured : Event :=
  CallCapture (capture uuid_b healthy) Info "first" (VObj []).
Definition second_captured : Event :=
  CallCapture (capture uuid_a healthy) Info "second" (VObj []).

Definition two_captured : State :=
  runs [first_captured; second_captured] (construct durable page).

(** Five flushes in a row that the endpoint answers with HTTP 500, and five
    whose [fetch] rejects. *)
Definition five_failures : list (FlushEnv * Z) :=
  [(http500, 0%Z); (http500, 1%Z); (http500, 2%Z); (http500, 3%Z); (http500, 0%Z)].

Definition five_rejections : list (FlushEnv * Z) :=
  [(offline, 0%Z); (offline, 0%Z); (offline, 0%Z); (offline, 0%Z); (offline, 0%Z)].

Definition five_failed_flushes : list Event :=
  List.map (fun call => CallFlush call.1 call.2 false) five_failures.

(** The circuit has just opened; then 60 s pass. *)
Definition opened : State := runs five_failed_flushes two_captured.
Definition waited : State := run (Advance 60000) opened.

(** The reset timer that [opened] holds. *)
Definition reset_timer : Timer := mkTimer 5 (0 + 60000) CircuitReset.

(** A record with a secret nested under a masked key, and the defaults with
    [maskFields = ["password"]]. *)
Definition nested_secret : LogEntry :=
  VObj [("level", VStr "info"); ("message", VStr "x");
        ("context", VObj [("password", VObj [("keep", VStr "k")]);
                          ("nested", VObj [("token", VStr "t"); ("keep", VStr "k")])])].

Definition masking : Config := spread defaults
  {| Partial.dsn := None; Partial.apiKey := None; Partial.batchSize := None;
     Partial.batchInterval := None; Partial.maxRetries := None;
     Partial.retryDelayMs := None; Partial.logLevel := None;
     Partial.maskFields := Some ["password"; "token"];
     Partial.samplingRates := None; Partial.maxLogsPerMinute := None;
     Partial.beforeSend := None; Partial.beforeBreadcrumb := None;
     Partial.enableLocalStorage := None; Partial.localStorageKey := None;
     Partial.maxLocalStorageSize := None; Partial.enableIndexedDB := None;
     Partial.maxBreadcrumbs := None |}.

(** New sampling rates that name [info] only. *)
Definition info_only : LogLevel -> option Q :=
  fun level => match level with Info => Some (8 # 10) | _ => None end.

Definition resample : Partial.t :=
  {| Partial.dsn := None; Partial.apiKey := None; Partial.batchSize := None;
     Partial.batchInterval := None; Partial.maxRetries := None;
     Partial.retryDelayMs := None; Partial.logLevel := None;
     Partial.maskFields := None;
     Partial.samplingRates := Some info_only; Partial.maxLogsPerMinute := None;
     Partial.beforeSend := None; Partial.beforeBreadcrumb := None;
     Partial.enableLocalStorage := None; Partial.localStorageKey := None;
     Partial.maxLocalStorageSize := None; Partial.enableIndexedDB := None;
     Partial.maxBreadcrumbs := None |}.

(** A collector that samples [debug] at 0.1 and [info] at 0.5, caps logs at
    two per minute and keeps two breadcrumbs. *)
Definition tuned : Partial.t :=
  {| Partial.dsn := Some endpoint; Partial.apiKey := None; Partial.batchSize := None;
     Partial.batchInterval := None; Partial.maxRetries := None;
     Partial.retryDelayMs := None; Partial.logLevel := None;
     Partial.maskFields := None;
     Partial.samplingRates :=
       Some (fun level => match level with
                          | Debug => Some (1 # 10)
                          | Info => Some (5 # 10)
                          | _ => None
                          end);
     Partial.maxLogsPerMinute := Some 2%Z;
     Partial.beforeSend := None; Partial.beforeBreadcrumb := None;
     Partial.enableLocalStorage := None; Partial.localStorageKey := None;
     Partial.maxLocalStorageSize := None; Partial.enableIndexedDB := None;
     Partial.maxBreadcrumbs := Some 2%Z |}.

Definition tuned_collector : State := construct tuned page.

Definition crumb (message : string) : Breadcrumb :=
  mkBreadcrumb "2025-01-15T10:30:00.000Z" CrumbCustom message None.


End Scenario.

(** ** More runs *)

Module Cases.
Import Js Conf Store Collector Scenario Util Wrappers Keyed Batches.

(** The two records of [two_captured], and its store. *)
Definition first_entry : LogEntry := info_entry "first" uuid_b.
Definition second_entry : LogEntry := info_entry "second" uuid_a.

Definition two_stored : IndexedDBStore :=
  default fresh (indexedDBStore two_captured).

(** The same two records added to an empty store, and the store after the
    first of them. *)
Definition two_adds : list (IdbEnv * Request) :=
  [(healthy, Add uuid_b first_entry); (healthy, Add uuid_a second_entry)].

Definition one_stored : IndexedDBStore :=
  performs [(healthy, Add uuid_b first_entry)] fresh.

(** The regular expression of a literal [text], without flags: it matches
    at [i] when [text] starts there. *)
Definition literal (text : string) : RegExp :=
  mkRegExp false false 0
    (fun s i =>
       if String.prefix text (String.substring i (String.length s - i) s)
       then Some (i + String.length text)%nat
       else None).

(** [ignoreUrls: ['/health', /analytics/]] and
    [ignoreErrors: ['ResizeObserver', /Script error/]] *)
Definition ignored_urls : list UrlPattern :=
  [UrlString "/health"; UrlRegExp (literal "analytics")].

Definition ignored_errors : list ErrorPattern :=
  [ErrorText "ResizeObserver"; ErrorRegExp (literal "Script error")].

(** A [Math.random()] that always returns 0.5. *)
Definition half : nat -> Q := fun _ => 1 # 2.

(** Two calls 100 ms apart of a function debounced by 300 ms, then the
    timer of the second call fires. *)
Definition burst : list (WrapperEvent string) :=
  [Called "a"; Elapsed 100; Called "b"; Elapsed 300; Fired 2].

(** Two calls 10 ms apart of a function throttled to one call per second,
    and a third call after the timer has fired. *)
Definition clicks : list (WrapperEvent string) :=
  [Called "a"; Elapsed 10; Called "bb"; Elapsed 1000; Fired 1; Called "ccc"].

(** A collector without a store, with the default batches of ten records,
    and one with [localStorage] only and batches of two, each after three
    captures. *)
Definition memory_only : Partial.t :=
  Partial.mk (Some endpoint) None None None None None None None None None
    None None None None None None None.


Definition three_captures : list Event :=
  [CallCapture (capture uuid_b healthy) Info "first" (VObj []);
   CallCapture (capture uuid_a healthy) Info "second" (VObj []);
   CallCapture (capture uuid_a healthy) Info "third" (VObj [])].

Definition three_queued : State := runs three_captures (construct memory_only page).

(** A flush whose [originalFetch] was never saved. *)
Definition no_fetch : FlushEnv := answered NoFetch.

(** The page unloads; [sendBeacon] takes the payload. *)
Definition leaving : UnloadEnv :=
  mkUnloadEnv (fun _ => uuid_a) (fun _ => healthy) healthy 100 (BeaconReturns true)
    healthy http200.

(** [updateConfig({ maxLogsPerMinute: 5 })] *)
Definition five_per_minute : Partial.t :=
  Partial.mk None None None None None None None None None (Some 5%Z)
    None None None None None None None.

(** Two failed flushes, and one after the endpoint has recovered. *)
Definition two_failures : list (FlushEnv * Z) := [(http500, 0%Z); (http500, 1%Z)].
Definition one_failure : list (FlushEnv * Z) := [(http500, 0%Z)].

(** The page is loaded again with the first record still in the store. *)
Definition reloaded : BootEnv :=
  mkBootEnv morning (Some [(uuid_b, first_entry)]) (Some ∅) healthy.

End Cases.

(** * Properties *)

(** ** Masking *)

Module MaskingFacts.
Import Js.

Lemma arr_get_mask_items f fields key : forall items i,
  arr_get key i (mask_items f fields i items)
  = (fun x => if includes fields key then VStr MASK else f x) <$> arr_get key i items.
Proof.
  induction items as [|x rest IH]; intros i; simpl; [reflexivity|].
  destruct (String.eqb_spec key (index_key i)) as [->|_]; [reflexivity|apply IH].
Qed.

Lemma obj_get_mask_props f fields key : forall props,
  obj_get key (mask_props f fields props)
  = (fun x => if includes fields key then VStr MASK else f x) <$> obj_get key props.
Proof.
  induction props as [|[k v] rest IH]; simpl; [reflexivity|].
  destruct (String.eqb_spec key k) as [->|_]; [reflexivity|apply IH].
Qed.

(** One step below a traversed value: a masked key holds the mask, any other
    key holds the traversed child. *)
Lemma get_prop_traverse fields v key :
  get_prop (traverseAndMask fields v) key
  = (fun x => if includes fields key then VStr MASK else traverseAndMask fields x)
      <$> get_prop v key.
Proof.
  destruct v; simpl; try reflexivity.
  - apply arr_get_mask_items.
  - apply obj_get_mask_props.
Qed.

Lemma get_path_app v p q :
  get_path v (p ++ q) = get_path v p ≫= fun c => get_path c q.
Proof.
  revert v; induction p as [|key p IH]; intros v; simpl; [reflexivity|].
  destruct (get_prop v key); simpl; [apply IH|reflexivity].
Qed.

Lemma get_path_atom_string s p : p <> [] -> get_path (VStr s) p = None.
Proof. destruct p; [congruence|reflexivity]. Qed.

(** Along a path that names no masked key the traversal commutes with
    lookup. *)
Lemma get_path_unmasked fields : forall p v,
  unmasked_path fields p = true ->
  get_path (traverseAndMask fields v) p = traverseAndMask fields <$> get_path v p.
Proof.
  induction p as [|key p IH]; intros v Hp; simpl in *; [reflexivity|].
  apply andb_prop in Hp as [Hk Hp]. apply negb_true_iff in Hk.
  rewrite get_prop_traverse, Hk.
  destruct (get_prop v key); simpl; [apply IH, Hp|reflexivity].
Qed.

(** Whatever the traversed value holds at a path ending in a masked key is the
    mask. *)
Lemma get_path_masked fields k : includes fields k = true -> forall p v x,
  get_path (traverseAndMask fields v) (p ++ [k]) = Some x -> x = VStr MASK.
Proof.
  intros Hk. induction p as [|key p IH]; intros v x; simpl;
    rewrite get_prop_traverse.
  - rewrite Hk. destruct (get_prop v k); simpl; congruence.
  - destruct (get_prop v key) as [c|]; simpl; [|congruence].
    destruct (includes fields key).
    + rewrite get_path_atom_string; [congruence|]. destruct p; discriminate.
    + apply IH.
Qed.

(** A masked key that is reached without crossing another masked key is still
    there afterwards. *)
Lemma get_path_masked_present fields k p v :
  includes fields k = true -> unmasked_path fields p = true ->
  is_Some (get_path v (p ++ [k])) ->
  get_path (traverseAndMask fields v) (p ++ [k]) = Some (VStr MASK).
Proof.
  intros Hk Hp [x Hx]. rewrite get_path_app in *.
  rewrite (get_path_unmasked _ _ _ Hp).
  destruct (get_path v p) as [c|]; simpl in *; [|discriminate].
  rewrite get_prop_traverse, Hk.
  destruct (get_prop c k); simpl in *; [reflexivity|discriminate].
Qed.

(** Nothing survives strictly below a masked key. *)
Lemma get_path_below_masked fields k p q v :
  includes fields k = true -> q <> [] ->
  get_path (traverseAndMask fields v) (p ++ k :: q) = None.
Proof.
  intros Hk Hq.
  replace (p ++ k :: q) with ((p ++ [k]) ++ q) by (rewrite <- app_assoc; reflexivity).
  rewrite get_path_app.
  destruct (get_path (traverseAndMask fields v) (p ++ [k])) as [x|] eqn:E;
    simpl; [|reflexivity].
  apply (get_path_masked _ _ Hk) in E as ->. apply get_path_atom_string, Hq.
Qed.

(** *** The JSON copy *)

Lemma roundtrip_defined v : roundtrip v <> VUndefined.
Proof. destruct v; discriminate. Qed.

(** A copy made by the round trip is its own round trip: it holds nothing
    that serialisation would drop or rewrite. *)
Lemma roundtrip_stable : forall v : jsval, roundtrip (roundtrip v) = roundtrip v.
Proof.
  fix roundtrip_stable 1.
  intros v. destruct v as [| | | | |items|props]; simpl; try reflexivity.
  - f_equal. induction items as [|x rest IH]; simpl; [reflexivity|].
    f_equal; [apply roundtrip_stable|exact IH].
  - f_equal. induction props as [|[k x] rest IH]; simpl; [reflexivity|].
    pose proof (roundtrip_stable x) as Hx.
    destruct x; simpl in *; try exact IH; rewrite IH; try reflexivity;
      do 2 f_equal; exact Hx.
Qed.

End MaskingFacts.

(** ** The store *)

Module StoreFacts.
Import Js Conf Store.

(** C10. [deleteLogs] with a missing or empty id list resolves at once and
    returns the store as it was: the database is not opened ([db] and
    [calls] are unchanged, so neither [IdbOpen] nor [IdbTransaction] was
    issued) and the records are untouched. *)
Theorem deleteLogs_without_ids (env : IdbEnv) (s : IndexedDBStore) :
  deleteLogs env None s = (s, Resolved tt) /\
  deleteLogs env (Some []) s = (s, Resolved tt).
Proof. split; reflexivity. Qed.

(** With ids to delete, a store that is not open yet does open the
    database first. *)
Lemma deleteLogs_with_ids_opens (env : IdbEnv) (id : string) (ids : list string)
  (s : IndexedDBStore) :
  db s = false ->
  exists later, calls (deleteLogs env (Some (id :: ids)) s).1 = calls s ++ IdbOpen :: later.
Proof.
  intros Hdb. unfold deleteLogs, openDb. rewrite Hdb.
  destruct (openFails env); simpl; [exists []; reflexivity|].
  assert (Hcalls : forall ids acc,
             calls (fold_left (fun acc id => called (IdbDelete id) acc) ids acc)
             = calls acc ++ List.map IdbDelete ids).
  { clear. induction ids as [|i rest IH]; intros acc; simpl.
    - rewrite app_nil_r. reflexivity.
    - rewrite IH. simpl. rewrite <- app_assoc. reflexivity. }
  destruct (requestFails env); simpl; rewrite Hcalls; simpl;
    rewrite <- !app_assoc; simpl; eexists; reflexivity.
Qed.

End StoreFacts.

(** ** Configuration *)

Module ConfFacts.
Import Js Conf Store Collector.

Lemma config_startBatchTimer st : config (startBatchTimer st) = config st.
Proof. unfold startBatchTimer. destruct (timer st); reflexivity. Qed.

(** [updateConfig] leaves in [config] exactly the spread of the old
    configuration and the new keys. *)
Lemma config_updateConfig today newConfig st :
  config (updateConfig today newConfig st) = spread (config st) newConfig.
Proof.
  unfold updateConfig.
  set (st2 := emit _ _).
  assert (H2 : config st2 = spread (config st) newConfig) by reflexivity.
  set (st3 := match Partial.batchInterval newConfig, Partial.batchSize newConfig with
              | None, None => st2 | _, _ => startBatchTimer st2 end).
  assert (H3 : config st3 = spread (config st) newConfig).
  { subst st3. destruct (Partial.batchInterval newConfig), (Partial.batchSize newConfig);
      rewrite ?config_startBatchTimer; exact H2. }
  destruct (Partial.maxLogsPerMinute newConfig) as [newMax|]; [|exact H3].
  destruct (newMax =? _)%Z; [exact H3|].
  destruct (rateLimitTimer st3); simpl;
    match goal with |- context [if ?c then _ else _] => destruct c end;
    simpl; exact H3.
Qed.

(** C9. After [updateConfig] with a [samplingRates] key, the configured
    [samplingRates] object is the given one as a whole, whatever was
    configured before: the rate that [captureLog] reads for a level is the
    given rate when the new object has one, and the default 1 for every level
    it leaves out. *)
Theorem updateConfig_replaces_samplingRates
  (today : LocalDate) (newConfig : Partial.t) (S : LogLevel -> option Q)
  (st : State) (level : LogLevel) :
  Partial.samplingRates newConfig = Some S ->
  let st' := updateConfig today newConfig st in
  samplingRates (config st') = S /\
  samplingRate (config st') level = default 1%Q (S level) /\
  (S level = None -> samplingRate (config st') level = 1%Q).
Proof.
  intros HS st'. subst st'. rewrite config_updateConfig.
  unfold samplingRate, spread; simpl. rewrite HS; simpl.
  repeat split. intros ->. reflexivity.
Qed.

End ConfFacts.

(** ** The breadcrumb ring *)

Module RingFacts.
Import Js Conf Store Collector.

Lemma lastn_length {A} (n : nat) (l : list A) : length (lastn n l) = Nat.min n (length l).
Proof. unfold lastn. rewrite length_skipn. lia. Qed.

Lemma lastn_all {A} (n : nat) (l : list A) : length l <= n -> lastn n l = l.
Proof. intros H. unfold lastn. replace (length l - n) with 0 by lia. reflexivity. Qed.

(** Pushing onto the last [n] and shifting when that exceeds [n] gives the
    last [n] of the longer list. *)
Lemma lastn_push {A} (n : nat) (l : list A) (x : A) :
  lastn n (l ++ [x])
  = if (n <? length (lastn n l ++ [x]))%nat then shift (lastn n l ++ [x])
    else lastn n l ++ [x].
Proof.
  rewrite length_app, lastn_length; simpl.
  destruct (Nat.ltb_spec n (Nat.min n (length l) + 1)) as [Hfull|Hroom].
  - assert (Hn : n <= length l) by lia.
    unfold lastn, shift. rewrite length_app; simpl.
    destruct (Nat.eq_dec n 0) as [->|Hpos].
    { rewrite Nat.sub_0_r, !skipn_all2 by (rewrite ?length_app; simpl; lia).
      reflexivity. }
    replace (length l + 1 - n) with (S (length l - n)) by lia.
    rewrite skipn_app.
    replace (S (length l - n) - length l) with 0 by lia. simpl.
    destruct (skipn (length l - n) l) as [|y ys] eqn:E.
    + apply (f_equal (@length A)) in E. rewrite length_skipn in E. simpl in E. lia.
    + simpl. f_equal.
      change (S (length l - n)) with (1 + (length l - n)).
      rewrite <- skipn_skipn, E. reflexivity.
  - rewrite !lastn_all; rewrite ?length_app; simpl; try lia. reflexivity.
Qed.

Lemma config_addBreadcrumb ts ty msg dat st :
  config (addBreadcrumb ts ty msg dat st) = config st.
Proof.
  unfold addBreadcrumb.
  destruct (match beforeBreadcrumb (config st) with Some _ => _ | None => _ end);
    [|reflexivity].
  destruct (_ <? _)%Z; reflexivity.
Qed.

(** One call keeps the ring equal to the last [C] of everything accepted so
    far. *)
Lemma addBreadcrumb_lastn (b : Breadcrumb) (st : State) (sofar : list Breadcrumb) :
  let C := Z.to_nat (maxBreadcrumbs (config st)) in
  _breadcrumbs st = lastn C sofar ->
  _breadcrumbs (addBreadcrumb (timestamp b) (type b) (message b) (data b) st)
  = lastn C (sofar ++ accepted (config st) [b]).
Proof.
  intros C Hring. unfold addBreadcrumb, accepted; simpl.
  replace (mkBreadcrumb (timestamp b) (type b) (message b) (data b)) with b
    by (destruct b; reflexivity).
  destruct (match beforeBreadcrumb (config st) with Some hook => hook b | None => Some b end)
    as [b'|]; simpl.
  - rewrite lastn_push, <- Hring.
    destruct (Z.ltb_spec (maxBreadcrumbs (config st)) (Z.of_nat (length (_breadcrumbs st ++ [b']))));
      destruct (Nat.ltb_spec C (length (_breadcrumbs st ++ [b']))); subst C;
      try reflexivity; rewrite length_app in *; simpl in *; lia.
  - rewrite app_nil_r. exact Hring.
Qed.

Lemma accepted_cons cfg b rest :
  accepted cfg (b :: rest) = accepted cfg [b] ++ accepted cfg rest.
Proof.
  unfold accepted; simpl.
  destruct (match beforeBreadcrumb cfg with Some hook => hook b | None => Some b end);
    reflexivity.
Qed.

Lemma addBreadcrumbs_lastn (inputs : list Breadcrumb) : forall (st : State) sofar,
  let C := Z.to_nat (maxBreadcrumbs (config st)) in
  _breadcrumbs st = lastn C sofar ->
  _breadcrumbs (addBreadcrumbs inputs st)
  = lastn C (sofar ++ accepted (config st) inputs).
Proof.
  induction inputs as [|b rest IH]; intros st sofar C Hring.
  - simpl. unfold accepted; simpl. rewrite app_nil_r. exact Hring.
  - unfold addBreadcrumbs in *; simpl fold_left.
    pose proof (addBreadcrumb_lastn b st sofar Hring) as Hstep.
    specialize (IH (addBreadcrumb (timestamp b) (type b) (message b) (data b) st)
                  (sofar ++ accepted (config st) [b])).
    rewrite config_addBreadcrumb in IH. rewrite (IH Hstep).
    rewrite <- app_assoc, <- accepted_cons. reflexivity.
Qed.

(** C8. Starting from an empty ring, after the calls of [addBreadcrumb] for
    [inputs] the ring holds exactly the last [min N C] of the [N] breadcrumbs
    that [beforeBreadcrumb] accepted, in the order they were pushed, where
    [C] is [maxBreadcrumbs]. *)
Theorem breadcrumb_ring_keeps_last (st : State) (inputs : list Breadcrumb) :
  _breadcrumbs st = [] ->
  let C := Z.to_nat (maxBreadcrumbs (config st)) in
  let pushed := accepted (config st) inputs in
  _breadcrumbs (addBreadcrumbs inputs st)
  = lastn (Nat.min (length pushed) C) pushed.
Proof.
  intros Hempty C pushed.
  rewrite (addBreadcrumbs_lastn inputs st []); [|rewrite Hempty; reflexivity].
  simpl. fold pushed. fold C. unfold lastn. f_equal. lia.
Qed.

End RingFacts.

(** ** The rate limiter *)

Module LimiterFacts.
Import Js Conf Store Collector Calendar.

Lemma rateLimit_spec (d : LocalDate) (st : State) :
  (0 < maxLogsPerMinute (config st))%Z ->
  let key := minuteKey d in
  let st' := fst (rateLimit d st) in
  let count := S (base_count key st) in
  config st' = config st /\
  currentMinute st' = key /\
  counted key st' = count /\
  snd (rateLimit d st) = negb (maxLogsPerMinute (config st) <? Z.of_nat count)%Z /\
  (currentMinute st <> key -> logCounts st' = {[key := 1%nat]}) /\
  effects st' = effects st ++
    (if snd (rateLimit d st) then [] else [ConsoleWarn rate_limited_warning]).
Proof.
  intros HM key st' count. subst st' count. unfold rateLimit. fold key.
  destruct (Z.ltb_spec 0 (maxLogsPerMinute (config st))) as [_|]; [|lia].
  unfold base_count, counted.
  destruct (Z.eqb_spec (currentMinute st) key) as [Hcur|Hcur]; simpl.
  - rewrite Nat.add_1_r.
    match goal with |- context [if ?c then _ else _] => destruct c end; simpl;
      rewrite ?lookup_insert_eq, ?app_nil_r; repeat split; congruence.
  - rewrite lookup_empty; simpl.
    match goal with |- context [if ?c then _ else _] => destruct c end; simpl;
      rewrite ?lookup_insert_eq, ?app_nil_r; repeat split; reflexivity.
Qed.






(** Within one minute the verdicts only depend on the count the minute
    started from. *)
Lemma verdicts_in_minute key : forall dates st,
  (0 < maxLogsPerMinute (config st))%Z ->
  Forall (fun d => minuteKey d = key) dates ->
  List.map snd (limiterRun (List.map Arrival dates) st)
  = List.map (fun i => (Z.of_nat (base_count key st + i) <? maxLogsPerMinute (config st))%Z)
      (seq 0 (length dates)).
Proof.
  induction dates as [|d rest IH]; intros st HM Hkey; [reflexivity|].
  inversion Hkey as [|? ? Hd Hrest]; subst.
  pose proof (rateLimit_spec d st HM) as (Hcfg & Hcur' & Hcnt & Hpass & _).
  simpl in *. destruct (rateLimit d st) as [st1 pass]; simpl in *.
  f_equal.
  - subst pass. rewrite Nat.add_0_r.
    destruct (Z.ltb_spec (maxLogsPerMinute (config st))
                (Z.of_nat (S (base_count (minuteKey d) st))));
      destruct (Z.ltb_spec (Z.of_nat (base_count (minuteKey d) st))
                  (maxLogsPerMinute (config st))); simpl; try reflexivity; lia.
  - rewrite (IH st1); [|rewrite Hcfg; exact HM|exact Hrest].
    unfold base_count at 1. rewrite Hcfg, Hcur', Z.eqb_refl, Hcnt; simpl.
    rewrite <- seq_shift, List.map_map.
    apply List.map_ext. intros i. do 2 f_equal. lia.
Qed.



End LimiterFacts.

(** ** The delivery engine *)

Module DeliveryFacts.
Import Js Conf Store Collector.

(** Unfold the field updates and reduce the projections over them. *)
Ltac fields :=
  unfold emit, set_config, set_logQueue, set_breadcrumbs, set_timer,
    set_isSending, set_circuitOpen, set_consecutiveFailures,
    set_circuitResetTimer, set_logCounts, set_currentMinute,
    set_rateLimitTimer, set_localStorageStore, set_indexedDBStore, set_clock,
    set_timers, set_nextTimer, set_effects in *;
  cbn [config logQueue _breadcrumbs timer isSending circuitOpen
       consecutiveFailures circuitResetTimer logCounts currentMinute
       rateLimitTimer localStorageStore indexedDBStore clock timers nextTimer
       effects] in *.

Ltac split_match :=
  match goal with
  | |- context [match ?x with _ => _ end] => destruct x eqn:?
  end.

(** *** [quiet] and [fair] steps *)

Lemma quiet_refl st : quiet st st.
Proof. unfold quiet; auto. Qed.

Lemma quiet_trans st1 st2 st3 : quiet st1 st2 -> quiet st2 st3 -> quiet st1 st3.
Proof.
  intros (Hc & Ho & Hf & Hh & Ht) (Hc' & Ho' & Hf' & Hh' & Ht'). unfold quiet.
  repeat split; try congruence. auto.
Qed.

Lemma fair_refl st : fair st st.
Proof. unfold fair; auto. Qed.

Lemma fair_trans st1 st2 st3 : fair st1 st2 -> fair st2 st3 -> fair st1 st3.
Proof. intros (Hc & HJ) (Hc' & HJ'). split; [congruence|auto]. Qed.

Lemma quiet_fair st st' : quiet st st' -> fair st st'.
Proof.
  intros (Hc & Ho & Hf & Hh & Ht). split; [exact Hc|].
  intros HJ t Hin Hact. rewrite Ho, Hh. apply HJ; auto.
Qed.

Lemma quiet_held_open deadline st st' :
  quiet st st' -> held_open deadline st -> held_open deadline st'.
Proof.
  intros (Hc & Ho & Hf & Hh & Ht) Hheld Hlt. rewrite Hc in Hlt.
  destruct (Hheld Hlt) as [Hopen Hdue]. split; [congruence|]. auto.
Qed.

(** A step that touches neither the clock, nor the breaker, nor the timers. *)
Lemma quiet_same st st' :
  clock st' = clock st -> circuitOpen st' = circuitOpen st ->
  consecutiveFailures st' = consecutiveFailures st ->
  circuitResetTimer st' = circuitResetTimer st -> timers st' = timers st ->
  quiet st st'.
Proof. intros Hc Ho Hf Hh Ht. unfold quiet. rewrite Ht. auto 6. Qed.

(** A step that may change the failure counter but nothing else of the
    breaker. *)
Lemma fair_same st st' :
  clock st' = clock st -> circuitOpen st' = circuitOpen st ->
  circuitResetTimer st' = circuitResetTimer st -> timers st' = timers st ->
  fair st st'.
Proof.
  intros Hc Ho Hh Ht. split; [exact Hc|].
  intros HJ t Hin Hact. rewrite Ho, Hh. apply HJ; [rewrite <- Ht|]; assumption.
Qed.

Lemma quiet_emit e st : quiet st (emit e st).
Proof. apply quiet_same; reflexivity. Qed.

Lemma quiet_setTimeout act delay st :
  act <> CircuitReset -> quiet st (setTimeout act delay st).
Proof.
  intros Hact. unfold quiet, setTimeout. fields. repeat split.
  intros t Hin Ht. apply in_app_or in Hin as [Hin|[<-|[]]]; [exact Hin|].
  simpl in Ht. contradiction.
Qed.

Lemma quiet_clearTimeout handle st : quiet st (clearTimeout handle st).
Proof.
  unfold quiet, clearTimeout. fields. repeat split.
  intros t Hin _. apply List.filter_In in Hin as [Hin _]. exact Hin.
Qed.

Lemma quiet_startBatchTimer st : quiet st (startBatchTimer st).
Proof.
  unfold startBatchTimer.
  set (st1 := match timer st with Some _ => _ | None => _ end).
  assert (H1 : quiet st st1)
    by (subst st1; destruct (timer st); [apply quiet_clearTimeout|apply quiet_refl]).
  apply quiet_trans with st1; [exact H1|].
  apply quiet_trans with (setTimeout BatchTick (inject_Z (batchInterval (config st1))) st1);
    [apply quiet_setTimeout; discriminate|apply quiet_same; reflexivity].
Qed.

Lemma quiet_processQueue st : quiet st (processQueue st).
Proof.
  unfold processQueue. destruct (_ <=? _)%Z; [apply quiet_emit|apply quiet_refl].
Qed.

Lemma quiet_finishFlush batch st : quiet st (finishFlush batch st).
Proof.
  unfold finishFlush.
  apply quiet_trans with (set_isSending false st); [apply quiet_same; reflexivity|].
  repeat split_match; first [apply quiet_processQueue|apply quiet_refl].
Qed.

Lemma quiet_selectBatch env st : quiet st (selectBatch env st).1.1.
Proof.
  unfold selectBatch. repeat split_match; simpl; apply quiet_same; reflexivity.
Qed.

Lemma quiet_initRateLimiter today st : quiet st (initRateLimiter today st).
Proof.
  unfold initRateLimiter.
  set (st2 := set_logCounts _ (set_currentMinute _ st)).
  apply quiet_trans with st2; [apply quiet_same; reflexivity|].
  apply quiet_trans with (setTimeout RateJanitor 60000 st2);
    [apply quiet_setTimeout; discriminate|apply quiet_same; reflexivity].
Qed.

Lemma quiet_rateJanitor today st : quiet st (rateJanitor today st).
Proof. apply quiet_same; reflexivity. Qed.

Lemma quiet_rateLimit today st : quiet st (rateLimit today st).1.
Proof.
  unfold rateLimit. repeat split_match; simpl; apply quiet_same; reflexivity.
Qed.

Lemma quiet_saveLogsToLocalStorage env uuids st :
  quiet st (saveLogsToLocalStorage env uuids st).
Proof.
  unfold saveLogsToLocalStorage.
  repeat split_match; try apply quiet_refl; apply quiet_same; reflexivity.
Qed.

Lemma quiet_loadLogsFromLocalStorage st : quiet st (loadLogsFromLocalStorage st).
Proof.
  unfold loadLogsFromLocalStorage.
  repeat split_match; try apply quiet_refl; apply quiet_same; reflexivity.
Qed.

Lemma quiet_loadLogsFromPersistence env st :
  quiet st (loadLogsFromPersistence env st).
Proof.
  unfold loadLogsFromPersistence.
  repeat split_match; try apply quiet_refl;
    try (apply quiet_same; reflexivity).
  all: eapply quiet_trans; [|apply quiet_loadLogsFromLocalStorage];
    apply quiet_same; reflexivity.
Qed.

Lemma quiet_enqueue env logEntry st : quiet st (enqueue env logEntry st).
Proof.
  unfold enqueue.
  eapply quiet_trans; [|apply quiet_processQueue].
  repeat split_match;
    try (eapply quiet_trans; [|apply quiet_saveLogsToLocalStorage]);
    apply quiet_same; reflexivity.
Qed.

Lemma quiet_captureLog env level message ctx st :
  quiet st (captureLog env level message ctx st).
Proof.
  unfold captureLog.
  destruct (_ <? _)%Z; [apply quiet_refl|].
  destruct (negb _); [apply quiet_refl|].
  pose proof (quiet_rateLimit (today env) st) as Hq.
  destruct (rateLimit (today env) st) as [st1 pass]; simpl in Hq.
  destruct (negb pass); [exact Hq|].
  repeat split_match; try exact Hq.
  eapply quiet_trans; [exact Hq|apply quiet_enqueue].
Qed.

Lemma quiet_addBreadcrumb ts ty msg dat st :
  quiet st (addBreadcrumb ts ty msg dat st).
Proof.
  unfold addBreadcrumb.
  repeat split_match; try apply quiet_refl; apply quiet_same; reflexivity.
Qed.

Lemma quiet_updateConfig today newConfig st :
  quiet st (updateConfig today newConfig st).
Proof.
  unfold updateConfig.
  set (st2 := emit _ (set_config _ st)).
  assert (H2 : quiet st st2) by (apply quiet_same; reflexivity).
  set (st3 := match Partial.batchInterval newConfig, Partial.batchSize newConfig with
              | None, None => st2 | _, _ => startBatchTimer st2 end).
  assert (H3 : quiet st st3).
  { subst st3. destruct (Partial.batchInterval newConfig), (Partial.batchSize newConfig);
      try exact H2; (eapply quiet_trans; [exact H2|apply quiet_startBatchTimer]). }
  clearbody st3.
  destruct (Partial.maxLogsPerMinute newConfig); [|exact H3].
  destruct (_ =? _)%Z; [exact H3|].
  set (st4 := match rateLimitTimer st3 with Some _ => _ | None => _ end).
  assert (H4 : quiet st st4).
  { subst st4. destruct (rateLimitTimer st3); [|exact H3].
    eapply quiet_trans; [exact H3|].
    eapply quiet_trans; [apply quiet_clearTimeout|apply quiet_same; reflexivity]. }
  clearbody st4.
  destruct (_ <? _)%Z; [|exact H4].
  eapply quiet_trans; [exact H4|apply quiet_initRateLimiter].
Qed.

(** *** The breaker operations *)

Lemma fair_closeCircuit st : fair st (closeCircuit st).
Proof.
  split; [unfold closeCircuit; fields; destruct (circuitResetTimer st); reflexivity|].
  intros HJ t Hin Hact. exfalso. unfold closeCircuit in Hin. fields.
  destruct (circuitResetTimer st) as [h|] eqn:Hh; unfold clearTimeout in Hin; fields.
  - apply List.filter_In in Hin as [Hin Hne].
    destruct (HJ t Hin Hact) as [_ Hhandle]. rewrite Hh in Hhandle.
    injection Hhandle as ->. rewrite Nat.eqb_refl in Hne. discriminate.
  - destruct (HJ t Hin Hact) as [_ Hhandle]. congruence.
Qed.

Lemma closeCircuit_closed st :
  circuitOpen (closeCircuit st) = false /\ consecutiveFailures (closeCircuit st) = 0%Z.
Proof. unfold closeCircuit. fields. destruct (circuitResetTimer st); split; reflexivity. Qed.

(** After [openCircuit] the circuit is open and the only reset timer is the
    new one, due [CIRCUIT_BREAKER_RESET_DELAY] from now. *)
Lemma openCircuit_spec st :
  reset_tracked st ->
  let st' := openCircuit st in
  clock st' = clock st /\
  consecutiveFailures st' = consecutiveFailures st /\
  circuitOpen st' = true /\
  circuitResetTimer st' = Some (nextTimer st) /\
  In (mkTimer (nextTimer st) (clock st + CIRCUIT_BREAKER_RESET_DELAY) CircuitReset)
     (timers st') /\
  forall t, In t (timers st') -> action t = CircuitReset ->
    t = mkTimer (nextTimer st) (clock st + CIRCUIT_BREAKER_RESET_DELAY) CircuitReset.
Proof.
  intros HJ st'. subst st'. unfold openCircuit, setTimeout. fields.
  assert (Hold : forall t,
             In t (timers (match circuitResetTimer st with
                           | Some handle => clearTimeout handle (set_circuitOpen true st)
                           | None => set_circuitOpen true st
                           end)) -> action t = CircuitReset -> False).
  { intros t Hin Hact.
    destruct (circuitResetTimer st) as [h|] eqn:Hh; unfold clearTimeout in Hin; fields.
    - apply List.filter_In in Hin as [Hin Hne].
      destruct (HJ t Hin Hact) as [_ Hhandle]. rewrite Hh in Hhandle.
      injection Hhandle as ->. rewrite Nat.eqb_refl in Hne. discriminate.
    - destruct (HJ t Hin Hact) as [_ Hhandle]. congruence. }
  destruct (circuitResetTimer st) as [h|]; unfold clearTimeout in *; fields;
    (repeat split;
     [apply in_or_app; right; left; reflexivity
     |intros t Hin Hact; apply in_app_or in Hin as [Hin|[<-|[]]];
      [destruct (Hold t Hin Hact)|reflexivity]]).
Qed.

Lemma fair_openCircuit st : fair st (openCircuit st).
Proof.
  split.
  - unfold openCircuit, setTimeout. fields.
    destruct (circuitResetTimer st); reflexivity.
  - intros HJ t Hin Hact.
    destruct (openCircuit_spec st HJ) as (_ & _ & Hopen & Hh & _ & Honly).
    rewrite (Honly t Hin Hact). split; [exact Hopen|exact Hh].
Qed.

Lemma fair_handleSendSuccess env logsSent ids st :
  fair st (handleSendSuccess env logsSent ids st).
Proof.
  unfold handleSendSuccess.
  apply fair_trans with (closeCircuit (set_consecutiveFailures 0 st)).
  { apply fair_trans with (set_consecutiveFailures 0 st);
      [apply fair_same; reflexivity|apply fair_closeCircuit]. }
  apply quiet_fair.
  repeat split_match; apply quiet_same; reflexivity.
Qed.

Lemma handleSendSuccess_closed env logsSent ids st :
  let st' := handleSendSuccess env logsSent ids st in
  circuitOpen st' = false /\ consecutiveFailures st' = 0%Z.
Proof.
  unfold handleSendSuccess.
  destruct (closeCircuit_closed (set_consecutiveFailures 0 st)) as [Ho Hc].
  repeat split_match; fields; auto.
Qed.

Lemma fair_handleSendFailure random logsFailed retries error ids st :
  fair st (handleSendFailure random logsFailed retries error ids st).
Proof.
  unfold handleSendFailure.
  set (st2 := emit _ (set_consecutiveFailures _ st)).
  assert (H2 : fair st st2) by (apply fair_same; reflexivity).
  clearbody st2.
  destruct (_ <=? _)%Z.
  - eapply fair_trans; [exact H2|].
    eapply fair_trans; [apply fair_openCircuit|apply quiet_fair, quiet_emit].
  - destruct (_ <? _)%Z.
    + eapply fair_trans; [exact H2|]. apply quiet_fair.
      eapply quiet_trans; [apply quiet_emit|apply quiet_setTimeout; discriminate].
    + eapply fair_trans; [exact H2|apply quiet_fair, quiet_emit].
Qed.

(** What a failure does to the breaker: the counter goes up by one; at the
    threshold the circuit opens and the reset timer is armed, below it the
    breaker is left as it was. *)
Lemma handleSendFailure_spec random logsFailed retries error ids st :
  reset_tracked st ->
  let st' := handleSendFailure random logsFailed retries error ids st in
  consecutiveFailures st' = (consecutiveFailures st + 1)%Z /\
  clock st' = clock st /\
  if (CIRCUIT_BREAKER_THRESHOLD <=? consecutiveFailures st + 1)%Z then
    circuitOpen st' = true /\
    circuitResetTimer st' = Some (nextTimer st) /\
    In (mkTimer (nextTimer st) (clock st + CIRCUIT_BREAKER_RESET_DELAY) CircuitReset)
       (timers st') /\
    forall t, In t (timers st') -> action t = CircuitReset ->
      t = mkTimer (nextTimer st) (clock st + CIRCUIT_BREAKER_RESET_DELAY) CircuitReset
  else circuitOpen st' = circuitOpen st.
Proof.
  intros HJ st'. subst st'. unfold handleSendFailure.
  set (st2 := emit _ (set_consecutiveFailures _ st)).
  assert (HJ2 : reset_tracked st2) by exact HJ.
  change (consecutiveFailures st2) with (consecutiveFailures st + 1)%Z.
  destruct (_ <=? _)%Z.
  - destruct (openCircuit_spec st2 HJ2) as (Hc & Hf & Ho & Hh & Hin & Honly).
    repeat split; assumption.
  - destruct (_ <? _)%Z; repeat split.
Qed.

(** *** [flushQueue] *)

Lemma fair_transmit env logsToSend retries isUnload ids st :
  fair st (transmit env logsToSend retries isUnload ids st).
Proof.
  unfold transmit.
  repeat split_match;
    repeat first
      [ apply fair_refl
      | apply quiet_fair, quiet_emit
      | eapply fair_trans; [|apply fair_handleSendSuccess]
      | eapply fair_trans; [|apply fair_handleSendFailure]
      | eapply fair_trans; [|apply quiet_fair, quiet_emit] ].
Qed.

(** While the circuit is open, [flushQueue] returns at once. *)
Lemma flushQueue_open env retries isUnload st :
  circuitOpen st = true -> flushQueue env retries isUnload st = st.
Proof.
  intros Hopen. unfold flushQueue. rewrite Hopen, orb_true_r. reflexivity.
Qed.

Lemma fair_flushQueue env retries isUnload st :
  fair st (flushQueue env retries isUnload st).
Proof.
  unfold flushQueue.
  destruct (_ || _); [apply fair_refl|].
  pose proof (quiet_selectBatch env (set_isSending true st)) as Hq.
  destruct (selectBatch env (set_isSending true st)) as [[st1 batch] ids].
  simpl in Hq.
  assert (H1 : fair st st1).
  { apply fair_trans with (set_isSending true st);
      [apply quiet_fair, quiet_same; reflexivity|apply quiet_fair, Hq]. }
  destruct (_ =? _)%nat.
  - eapply fair_trans; [exact H1|apply quiet_fair, quiet_same; reflexivity].
  - eapply fair_trans; [exact H1|].
    eapply fair_trans; [apply fair_transmit|apply quiet_fair, quiet_finishFlush].
Qed.

Lemma timers_finishFlush batch st : timers (finishFlush batch st) = timers st.
Proof.
  unfold finishFlush, processQueue. repeat split_match; reflexivity.
Qed.

(** *** Timer callbacks, the unload handler and events *)

(** Once the pending reset timer [t] is cleared, no reset timer is left. *)
Lemma no_reset_after_clear t st :
  reset_tracked st -> In t (timers st) -> action t = CircuitReset ->
  forall t', In t' (timers (clearTimeout (tid t) st)) -> action t' <> CircuitReset.
Proof.
  intros HJ Hin Hact t' Hin' Hact'. unfold clearTimeout in Hin'. fields.
  apply List.filter_In in Hin' as [Hin' Hne].
  destruct (HJ t Hin Hact) as [_ Hh]. destruct (HJ t' Hin' Hact') as [_ Hh'].
  rewrite Hh in Hh'. injection Hh' as Heq. rewrite Heq, Nat.eqb_refl in Hne.
  discriminate.
Qed.

Lemma fair_fire t env today st :
  In t (timers st) -> fair st (fire t env today st).
Proof.
  intros Hin. unfold fire.
  destruct (action t) eqn:Hact.
  - eapply fair_trans; [apply quiet_fair, quiet_clearTimeout|].
    eapply fair_trans; [apply fair_flushQueue|apply quiet_fair, quiet_startBatchTimer].
  - eapply fair_trans; [apply quiet_fair, quiet_clearTimeout|apply fair_flushQueue].
  - apply fair_trans with (circuitReset (clearTimeout (tid t) st));
      [|apply fair_flushQueue].
    split; [reflexivity|]. intros HJ t' Hin' Hact'.
    destruct (no_reset_after_clear t st HJ Hin Hact t' Hin' Hact').
  - eapply fair_trans; [apply quiet_fair, quiet_clearTimeout|].
    apply quiet_fair. unfold quiet, rateJanitor. fields. repeat split.
    intros t' Hin' Hact'. apply in_app_or in Hin' as [Hin'|[<-|[]]];
      [exact Hin'|discriminate].
Qed.

Lemma quiet_fire_open t env today st :
  circuitOpen st = true -> action t <> CircuitReset ->
  quiet st (fire t env today st).
Proof.
  intros Hopen Hact. unfold fire.
  assert (Hopen1 : circuitOpen (clearTimeout (tid t) st) = true) by exact Hopen.
  destruct (action t); try contradiction.
  - rewrite (flushQueue_open _ _ _ _ Hopen1).
    eapply quiet_trans; [apply quiet_clearTimeout|apply quiet_startBatchTimer].
  - rewrite (flushQueue_open _ _ _ _ Hopen1). apply quiet_clearTimeout.
  - eapply quiet_trans; [apply quiet_clearTimeout|].
    unfold quiet, rateJanitor. fields. repeat split.
    intros t' Hin' Hact'. apply in_app_or in Hin' as [Hin'|[<-|[]]];
      [exact Hin'|discriminate].
Qed.

(** The unload handler does quiet work and then, on most paths, ends in
    [flushQueue(0, true)]. *)
Lemma unloadHandler_shape env st :
  exists st2, quiet st st2 /\
    (unloadHandler env st = st2 \/
     unloadHandler env st = flushQueue (unloadFlush env) 0 true st2).
Proof.
  unfold unloadHandler.
  repeat split_match;
    lazymatch goal with
    | |- exists st2, _ /\ (flushQueue ?e ?r ?u ?x = st2 \/ _) =>
        exists x; split; [apply quiet_same; reflexivity|right; reflexivity]
    | |- exists st2, _ /\ (?x = st2 \/ _) =>
        exists x; split; [apply quiet_same; reflexivity|left; reflexivity]
    end.
Qed.

Lemma fair_unloadHandler env st : fair st (unloadHandler env st).
Proof.
  destruct (unloadHandler_shape env st) as (st2 & Hq & [->| ->]).
  - apply quiet_fair, Hq.
  - eapply fair_trans; [apply quiet_fair, Hq|apply fair_flushQueue].
Qed.

Lemma quiet_unloadHandler_open env st :
  circuitOpen st = true -> quiet st (unloadHandler env st).
Proof.
  intros Hopen.
  destruct (unloadHandler_shape env st) as (st2 & Hq & [->| ->]); [exact Hq|].
  rewrite flushQueue_open; [exact Hq|].
  destruct Hq as (_ & Ho & _). congruence.
Qed.

(** No event turns the clock back, and every event keeps the reset timers
    tracked. *)
Lemma run_fair e st :
  enabled e st ->
  (clock st <= clock (run e st))%Q /\
  (reset_tracked st -> reset_tracked (run e st)).
Proof.
  intros Hen.
  assert (Hfair : forall st', fair st st' ->
            (clock st <= clock st')%Q /\ (reset_tracked st -> reset_tracked st')).
  { intros st' [Hc HJ]. rewrite Hc. split; [apply Qle_refl|exact HJ]. }
  destruct e; simpl in *.
  - split; [lra|]. intros HJ. exact HJ.
  - apply Hfair, fair_fire, Hen.
  - apply Hfair, fair_flushQueue.
  - apply Hfair, quiet_fair, quiet_captureLog.
  - apply Hfair, quiet_fair, quiet_addBreadcrumb.
  - apply Hfair, quiet_fair, quiet_updateConfig.
  - apply Hfair, fair_unloadHandler.
Qed.

Lemma construct_tracked given boot : reset_tracked (construct given boot).
Proof.
  assert (Hq : quiet (blank (spread defaults given)) (construct given boot)).
  { unfold construct.
    set (st0 := blank _).
    set (st1 := if String.eqb _ _ then _ else st0).
    assert (H1 : quiet st0 st1)
      by (subst st1; destruct (String.eqb _ _); [apply quiet_emit|apply quiet_refl]).
    clearbody st1.
    set (st2 := match enableIndexedDB (config st1), indexedDB boot with
                | true, Some _ => _ | _, _ => _ end).
    assert (H2 : quiet st0 st2).
    { subst st2. eapply quiet_trans; [exact H1|].
      repeat split_match;
        try apply quiet_refl;
        try (eapply quiet_trans; [|apply quiet_loadLogsFromPersistence];
             apply quiet_same; reflexivity);
        (eapply quiet_trans; [|apply quiet_loadLogsFromLocalStorage];
         apply quiet_same; reflexivity). }
    clearbody st2.
    assert (H3 : quiet st0 (startBatchTimer st2))
      by (eapply quiet_trans; [exact H2|apply quiet_startBatchTimer]).
    destruct (_ <? _)%Z; [|exact H3].
    eapply quiet_trans; [exact H3|apply quiet_initRateLimiter]. }
  apply (quiet_fair _ _ Hq). intros t [].
Qed.

Lemma steps_tracked st events st' :
  steps st events st' -> reset_tracked st -> reset_tracked st'.
Proof.
  induction 1 as [|st e es st' Hen _ IH]; intros HJ; [exact HJ|].
  apply IH, (run_fair e st Hen), HJ.
Qed.

Lemma reachable_tracked st : reachable st -> reset_tracked st.
Proof.
  intros (given & boot & events & Hsteps).
  apply (steps_tracked _ _ _ Hsteps), construct_tracked.
Qed.

(** Until the deadline nothing re-closes an open circuit. *)
Lemma run_held_open deadline e st :
  enabled e st -> held_open deadline st -> held_open deadline (run e st).
Proof.
  intros Hen Hheld.
  destruct (Qlt_le_dec (clock st) deadline) as [Hlt|Hpast].
  - destruct (Hheld Hlt) as [Hopen Hdue].
    destruct e; simpl in *.
    + intros Hlt'. fields. split; [exact Hopen|exact Hdue].
    + destruct Hen as [Hin Hnow].
      apply (quiet_held_open _ st); [|exact Hheld].
      apply quiet_fire_open; [exact Hopen|].
      intros Hact. specialize (Hdue t Hin Hact). lra.
    + rewrite flushQueue_open; assumption.
    + apply (quiet_held_open _ st); [apply quiet_captureLog|exact Hheld].
    + apply (quiet_held_open _ st); [apply quiet_addBreadcrumb|exact Hheld].
    + apply (quiet_held_open _ st); [apply quiet_updateConfig|exact Hheld].
    + apply (quiet_held_open _ st);
        [apply quiet_unloadHandler_open, Hopen|exact Hheld].
  - intros Hlt'. destruct (run_fair e st Hen) as [Hmono _]. lra.
Qed.

Lemma steps_held_open deadline st events st' :
  steps st events st' -> held_open deadline st -> held_open deadline st'.
Proof.
  induction 1 as [|st e es st' Hen _ IH]; intros Hheld; [exact Hheld|].
  apply IH, run_held_open; assumption.
Qed.

(** *** Flushes that fail and flushes that succeed *)

(** A flush that fails over HTTP is one [handleSendFailure] on the selected
    batch, between the request and the [finally] block. *)
Lemma http_failed_flush_shape env retries st :
  http_failed_flush env st = true ->
  exists st1 batch ids status text,
    selectBatch env (set_isSending true st) = (st1, batch, ids) /\
    flushQueue env retries false st
    = finishFlush batch
        (handleSendFailure (jitter env) batch retries (HttpError status text) ids
           (emit (ConsoleError "LogCollector: Failed to send logs")
              (emit (Fetch (dsn (config st1)) (apiKeyHeader (config st1)) batch false)
                 st1))).
Proof.
  unfold http_failed_flush. intros H.
  apply andb_prop in H as [H Hfetch]. apply andb_prop in H as [H Hbatch].
  apply andb_prop in H as [H Hdsn]. apply andb_prop in H as [Hidle Hclosed].
  apply negb_true_iff in Hidle, Hclosed, Hdsn.
  unfold flushQueue. rewrite Hidle, Hclosed, Hdsn. simpl "||".
  destruct (selectBatch env (set_isSending true st)) as [[st1 batch] ids].
  simpl in Hbatch.
  destruct batch as [|log batch]; [discriminate|].
  destruct (fetched env) as [|[|] status [text|]|] eqn:Hf; try discriminate.
  exists st1, (log :: batch), ids, status, text. split; [reflexivity|].
  simpl Nat.eqb. cbv iota. unfold transmit. rewrite Hf. reflexivity.
Qed.

(** Such a flush adds one to the failure counter; when that reaches the
    threshold the circuit is open afterwards, with one reset timer pending,
    due 60000 ms later; below the threshold the circuit stays closed. *)
Lemma http_failed_flush_spec env retries st :
  http_failed_flush env st = true -> reset_tracked st ->
  let st' := flushQueue env retries false st in
  consecutiveFailures st' = (consecutiveFailures st + 1)%Z /\
  clock st' = clock st /\
  reset_tracked st' /\
  if (CIRCUIT_BREAKER_THRESHOLD <=? consecutiveFailures st + 1)%Z then
    circuitOpen st' = true /\
    (exists handle,
        circuitResetTimer st' = Some handle /\
        In (mkTimer handle (clock st + CIRCUIT_BREAKER_RESET_DELAY) CircuitReset)
           (timers st')) /\
    forall t, In t (timers st') -> action t = CircuitReset ->
      due t = (clock st + CIRCUIT_BREAKER_RESET_DELAY)%Q
  else circuitOpen st' = false.
Proof.
  intros Hfail HJ st'.
  assert (HJ' : reset_tracked st') by (apply (fair_flushQueue env retries false st), HJ).
  destruct (http_failed_flush_shape env retries st Hfail)
    as (st1 & batch & ids & status & text & Hsel & Hflush).
  pose proof (quiet_selectBatch env (set_isSending true st)) as Hq.
  rewrite Hsel in Hq. simpl in Hq.
  set (sent := emit _ (emit _ st1)) in Hflush.
  assert (Hq1 : quiet st sent).
  { apply quiet_trans with (set_isSending true st); [apply quiet_same; reflexivity|].
    eapply quiet_trans; [exact Hq|]. apply quiet_same; reflexivity. }
  assert (HJ1 : reset_tracked sent) by (apply (quiet_fair _ _ Hq1), HJ).
  destruct Hq1 as (Hc1 & Ho1 & Hf1 & _).
  pose proof (handleSendFailure_spec (jitter env) batch retries (HttpError status text)
                ids sent HJ1) as (Hcount & Hclock & Hbreaker).
  set (failed := handleSendFailure _ _ _ _ _ sent) in *.
  destruct (quiet_finishFlush batch failed) as (Hc2 & Ho2 & Hf2 & Hh2 & _).
  pose proof (timers_finishFlush batch failed) as Ht2.
  subst st'. rewrite Hflush in *. fold failed in HJ' |- *.
  rewrite Hf1, Hc1 in *.
  split; [congruence|]. split; [congruence|]. split; [exact HJ'|].
  destruct (_ <=? _)%Z.
  - destruct Hbreaker as (Ho & Hh & Hin & Honly).
    split; [congruence|]. split.
    + exists (nextTimer sent). rewrite Hh2, Ht2. split; assumption.
    + intros t Hint Hact. rewrite Ht2 in Hint.
      rewrite (Honly t Hint Hact). reflexivity.
  - rewrite Ho2, Hbreaker, Ho1.
    unfold http_failed_flush in Hfail.
    destruct (circuitOpen st); [|reflexivity].
    rewrite andb_false_r in Hfail. discriminate.
Qed.

(** A run of flushes that all fail over HTTP counts them one by one. *)
Lemma all_http_failed_spec : forall attempts st,
  all_http_failed attempts st = true -> reset_tracked st ->
  let st' := flushes attempts st in
  consecutiveFailures st' = (consecutiveFailures st + Z.of_nat (length attempts))%Z /\
  clock st' = clock st /\
  reset_tracked st' /\
  (attempts <> [] ->
   if (CIRCUIT_BREAKER_THRESHOLD <=? consecutiveFailures st + Z.of_nat (length attempts))%Z
   then
     circuitOpen st' = true /\
     (exists handle,
         circuitResetTimer st' = Some handle /\
         In (mkTimer handle (clock st + CIRCUIT_BREAKER_RESET_DELAY) CircuitReset)
            (timers st')) /\
     forall t, In t (timers st') -> action t = CircuitReset ->
       due t = (clock st + CIRCUIT_BREAKER_RESET_DELAY)%Q
   else circuitOpen st' = false).
Proof.
  induction attempts as [|[env retries] rest IH]; intros st Hall HJ.
  - simpl. split; [lia|]. split; [reflexivity|]. split; [exact HJ|congruence].
  - simpl in Hall. apply andb_prop in Hall as [Hhead Hrest].
    pose proof (http_failed_flush_spec env retries st Hhead HJ)
      as (Hcount & Hclock & HJ1 & Hbreaker).
    unfold flushes in *. simpl fold_left. simpl fst in *. simpl snd in *.
    set (st1 := flushQueue env retries false st) in *.
    specialize (IH st1 Hrest HJ1) as (Hcount' & Hclock' & HJ' & Hbreaker').
    rewrite Hcount', Hclock', Hcount, Hclock.
    replace (Z.of_nat (length ((env, retries) :: rest)))
      with (1 + Z.of_nat (length rest))%Z by (simpl length; lia).
    split; [lia|]. split; [reflexivity|]. split; [exact HJ'|]. intros _.
    destruct rest as [|call rest'].
    + simpl in *. rewrite Z.add_0_r. exact Hbreaker.
    + rewrite Hcount, Hclock in Hbreaker'. rewrite Z.add_assoc.
      apply Hbreaker'. discriminate.
Qed.

(** A flush that the endpoint accepts leaves the circuit closed and the
    failure counter at zero. *)
Lemma http_ok_flush_spec env retries st :
  http_ok_flush env st = true ->
  let st' := flushQueue env retries false st in
  circuitOpen st' = false /\ consecutiveFailures st' = 0%Z.
Proof.
  unfold http_ok_flush. intros H.
  apply andb_prop in H as [H Hfetch]. apply andb_prop in H as [H Hbatch].
  apply andb_prop in H as [H Hdsn]. apply andb_prop in H as [Hidle Hclosed].
  apply negb_true_iff in Hidle, Hclosed, Hdsn.
  unfold flushQueue. rewrite Hidle, Hclosed, Hdsn. simpl "||".
  destruct (selectBatch env (set_isSending true st)) as [[st1 batch] ids].
  simpl in Hbatch.
  destruct batch as [|log batch]; [discriminate|].
  destruct (fetched env) as [|[|] status text|] eqn:Hf; try discriminate.
  simpl Nat.eqb. cbv iota. unfold transmit. rewrite Hf. simpl andb. cbv iota.
  set (ok := handleSendSuccess _ _ _ _).
  destruct (handleSendSuccess_closed (idb env) (log :: batch) ids
              (emit (ConsoleLog "LogCollector: Logs sent successfully via fetch.")
                 (emit (Fetch (dsn (config st1)) (apiKeyHeader (config st1))
                          (log :: batch) false) st1))) as [Ho Hc].
  fold ok in Ho, Hc.
  destruct (quiet_finishFlush (log :: batch) ok) as (_ & Ho2 & Hf2 & _).
  rewrite Ho2, Hf2. split; assumption.
Qed.

(** A regular flush whose [fetch] rejects leaves the failure counter, the
    breaker and the timers as they were, and calls no delivery callback: it
    only issues the request and prints the error. *)
Lemma rejected_fetch_spec env retries st reason :
  isSending st = false -> circuitOpen st = false ->
  String.eqb (dsn (config st)) "" = false ->
  fetched env = FetchRejects reason ->
  let '(st1, batch, ids) := selectBatch env (set_isSending true st) in
  batch <> [] ->
  let st' := flushQueue env retries false st in
  consecutiveFailures st' = consecutiveFailures st /\
  circuitOpen st' = false /\
  timers st' = timers st /\
  exists more,
    effects st'
    = effects st1
      ++ [Fetch (dsn (config st1)) (apiKeyHeader (config st1)) batch false;
          ConsoleLog "error"] ++ more
    /\ (more = [] \/ more = [CallFlushQueue]).
Proof.
  intros Hidle Hclosed Hdsn Hf.
  pose proof (quiet_selectBatch env (set_isSending true st)) as Hq.
  unfold flushQueue. rewrite Hidle, Hclosed, Hdsn. simpl "||".
  assert (Ht : timers (selectBatch env (set_isSending true st)).1.1 = timers st)
    by (unfold selectBatch; repeat split_match; reflexivity).
  destruct (selectBatch env (set_isSending true st)) as [[st1 batch] ids].
  simpl in Hq, Ht. destruct Hq as (_ & Ho & Hc & _).
  intros Hbatch. destruct batch as [|log batch]; [congruence|].
  simpl Nat.eqb. cbv iota. unfold transmit. rewrite Hf. simpl andb. cbv iota.
  unfold finishFlush, processQueue.
  repeat split_match; fields; rewrite ?Ho, ?Hc, ?Ht; repeat split; auto;
    first [ solve [exists [CallFlushQueue]; rewrite <- !app_assoc; simpl; auto]
          | solve [exists []; rewrite <- ?app_assoc; simpl; auto] ].
Qed.

(** *** Runs *)

Lemma steps_runs : forall events st,
  all_enabled events st -> steps st events (runs events st).
Proof.
  induction events as [|e rest IH]; intros st Hen; [constructor|].
  destruct Hen as [He Hrest]. econstructor; [exact He|apply IH, Hrest].
Qed.

Lemma runs_reachable given boot events :
  all_enabled events (construct given boot) ->
  reachable (runs events (construct given boot)).
Proof. intros Hen. exists given, boot, events. apply steps_runs, Hen. Qed.

(** The breaker for the failures that the engine counts.  In a running
    collector whose failure counter is at zero, five flushes in a row that
    fail over HTTP (each attempted on a non-empty batch and answered with a
    non-2xx status) open the circuit and arm the reset timer for 60000 ms
    later.  From then on, in every state that the collector can
    reach before that time, the circuit is still open, and any call of
    [flushQueue] returns the state unchanged: nothing is sent, no callback
    runs, and neither the durable store nor the in-memory queue loses a
    record. *)
Theorem open_circuit_suppresses_flushes
  (st : State) (attempts : list (FlushEnv * Z)) :
  reachable st ->
  consecutiveFailures st = 0%Z ->
  length attempts = 5%nat ->
  all_http_failed attempts st = true ->
  let opened := flushes attempts st in
  let deadline := (clock opened + CIRCUIT_BREAKER_RESET_DELAY)%Q in
  circuitOpen opened = true /\
  (exists handle,
      circuitResetTimer opened = Some handle /\
      In (mkTimer handle deadline CircuitReset) (timers opened)) /\
  forall events st',
    steps opened events st' -> (clock st' < deadline)%Q ->
    circuitOpen st' = true /\
    forall env retries isUnload, flushQueue env retries isUnload st' = st'.
Proof.
  intros Hreach Hzero Hlen Hall opened deadline.
  pose proof (all_http_failed_spec attempts st Hall (reachable_tracked st Hreach))
    as (_ & Hclock & _ & Hbreaker).
  assert (Hne : attempts <> []) by (destruct attempts; [discriminate|congruence]).
  specialize (Hbreaker Hne). rewrite Hzero, Hlen in Hbreaker.
  simpl in Hbreaker. destruct Hbreaker as (Hopen & Htimer & Honly).
  fold opened in Hclock, Hopen, Htimer, Honly.
  subst deadline. rewrite Hclock.
  split; [exact Hopen|]. split; [exact Htimer|].
  intros events st' Hsteps Hbefore.
  assert (Hheld : held_open (clock st + CIRCUIT_BREAKER_RESET_DELAY) opened).
  { intros _. split; [exact Hopen|].
    intros t Hin Hact. rewrite (Honly t Hin Hact). apply Qle_refl. }
  destruct (steps_held_open _ _ _ _ Hsteps Hheld Hbefore) as [Hopen' _].
  split; [exact Hopen'|]. intros env retries isUnload.
  apply flushQueue_open, Hopen'.
Qed.

(** The reset timer in general.  When it fires, its callback closes
    the circuit and sets the failure counter to zero before it calls
    [flushQueue()]: there is no state between open and closed.  A flush that
    then succeeds leaves the circuit closed with the counter at zero.
    Flushes that fail over HTTP are counted from zero again: after [n >= 1]
    of them in a row the circuit is open exactly when [n] has reached the
    threshold of 5, so a single failure leaves it closed; the fifth arms the
    reset timer for another 60000 ms. *)
Theorem reset_timer_closes_circuit
  (st : State) (t : Timer) (attempts : list (FlushEnv * Z)) :
  reachable st -> In t (timers st) -> action t = CircuitReset ->
  let closed := circuitReset (clearTimeout (tid t) st) in
  (forall env today, fire t env today st = flushQueue env 0 false closed) /\
  circuitOpen closed = false /\
  consecutiveFailures closed = 0%Z /\
  (forall env retries,
      http_ok_flush env closed = true ->
      circuitOpen (flushQueue env retries false closed) = false /\
      consecutiveFailures (flushQueue env retries false closed) = 0%Z) /\
  (attempts <> [] -> all_http_failed attempts closed = true ->
   circuitOpen (flushes attempts closed)
   = (CIRCUIT_BREAKER_THRESHOLD <=? Z.of_nat (length attempts))%Z) /\
  (length attempts = 5%nat -> all_http_failed attempts closed = true ->
   exists handle,
     circuitResetTimer (flushes attempts closed) = Some handle /\
     In (mkTimer handle (clock st + CIRCUIT_BREAKER_RESET_DELAY) CircuitReset)
        (timers (flushes attempts closed))).
Proof.
  intros Hreach Hin Hact closed.
  split; [intros env today; unfold fire; rewrite Hact; reflexivity|].
  split; [reflexivity|]. split; [reflexivity|].
  split; [intros env retries Hok; apply http_ok_flush_spec, Hok|].
  assert (HJ : reset_tracked closed).
  { intros t' Hin' Hact'.
    destruct (no_reset_after_clear t st (reachable_tracked st Hreach) Hin Hact t' Hin' Hact'). }
  split.
  - intros Hne Hall.
    pose proof (all_http_failed_spec attempts closed Hall HJ) as (_ & _ & _ & Hbreaker).
    specialize (Hbreaker Hne).
    change (consecutiveFailures closed) with 0%Z in Hbreaker. simpl Z.add in Hbreaker.
    destruct (_ <=? _)%Z; [apply Hbreaker|exact Hbreaker].
  - intros Hlen Hall.
    pose proof (all_http_failed_spec attempts closed Hall HJ) as (_ & _ & _ & Hbreaker).
    assert (Hne : attempts <> []) by (destruct attempts; [discriminate|congruence]).
    specialize (Hbreaker Hne). rewrite Hlen in Hbreaker.
    change (consecutiveFailures closed) with 0%Z in Hbreaker.
    change (clock closed) with (clock st) in Hbreaker.
    simpl in Hbreaker. apply Hbreaker.
Qed.

End DeliveryFacts.

(** ** The claims on masking, persistence and batch order *)

Module MaskingClaim.
Import Js Conf Store Collector Scenario MaskingFacts.

(** C6, as the code has it.  With a non-empty [maskFields] and a
    [beforeSend] hook configured (the default is the identity hook), the
    record handed to the hook is the masked JSON copy of the record (a copy
    that a further round trip leaves as it is), and in it: (1) whatever is found at a path whose final key is in [maskFields]
    is the string ["********"]; (2) a masked key of the copy that is reached
    through unmasked keys is still present, holding the mask; (3) at every
    path that names no masked key the record holds the masked form of what
    the JSON copy holds there, so (4) every atom at such a path is unchanged;
    (5) nothing is left at any path strictly below a masked key. *)
Theorem masking_step
  (cfg : Config) (hook : LogEntry -> option LogEntry) (record : LogEntry) :
  maskFields cfg <> [] -> beforeSend cfg = Some hook -> record <> VUndefined ->
  let fields := maskFields cfg in
  let copy := roundtrip record in
  roundtrip copy = copy /\
  exists masked,
    maskSensitiveFields record fields = Some masked /\
    applyBeforeSend cfg record = Some (callBeforeSend hook masked) /\
    (forall path key value,
        includes fields key = true ->
        get_path masked (path ++ [key]) = Some value -> value = VStr MASK) /\
    (forall path key,
        unmasked_path fields path = true -> includes fields key = true ->
        is_Some (get_path copy (path ++ [key])) ->
        get_path masked (path ++ [key]) = Some (VStr MASK)) /\
    (forall path,
        unmasked_path fields path = true ->
        get_path masked path = traverseAndMask fields <$> get_path copy path) /\
    (forall path value,
        unmasked_path fields path = true ->
        get_path copy path = Some value -> is_atom value = true ->
        get_path masked path = Some value) /\
    (forall path key below,
        includes fields key = true -> below <> [] ->
        get_path masked (path ++ key :: below) = None).
Proof.
  intros Hfields Hhook Hrecord fields copy.
  split; [apply roundtrip_stable|].
  exists (traverseAndMask fields copy).
  assert (Hmask : maskSensitiveFields record fields
                  = Some (traverseAndMask fields copy))
    by (subst copy; unfold maskSensitiveFields, JSON_roundtrip;
        destruct record; [congruence|reflexivity..]).
  split; [exact Hmask|]. split.
  { unfold applyBeforeSend. rewrite Hhook.
    assert (Hlen : (0 <? length (maskFields cfg))%nat = true)
      by (destruct (maskFields cfg); [congruence|reflexivity]).
    rewrite Hlen. fold fields. rewrite Hmask. reflexivity. }
  split; [intros path key value Hk; apply get_path_masked, Hk|].
  split; [intros path key Hp Hk; apply get_path_masked_present; assumption|].
  split; [intros path; apply get_path_unmasked|].
  split; [|intros path key below; apply get_path_below_masked].
  intros path value Hp Hget Hatom.
  rewrite (get_path_unmasked _ _ _ Hp), Hget. simpl.
  destruct value; try discriminate; reflexivity.
Qed.

Lemma masking_step_witness :
  exists masked,
    maskSensitiveFields nested_secret (maskFields masking) = Some masked /\
    get_path masked ["context"; "nested"; "token"] = Some (VStr MASK) /\
    get_path masked ["context"; "nested"; "keep"] = Some (VStr "k").
Proof.
  destruct (masking_step masking (fun logEntry => Some logEntry) nested_secret)
    as (_ & masked & Hmasked & _ & _ & Hpresent & _ & Hatoms & _);
    [discriminate|reflexivity|discriminate|].
  exists masked. split; [exact Hmasked|]. split.
  - apply (Hpresent ["context"; "nested"] "token"); [reflexivity|reflexivity|].
    eexists; reflexivity.
  - apply (Hatoms ["context"; "nested"; "keep"]); reflexivity.
Defined.

(** C6 as stated fails where it says that no value at any other path
    changes: with [maskFields = ["password"; "token"]] the record
    [{context: {password: {keep: "k"}, ...}}] holds ["k"] at the path
    [context.password.keep], whose final key is not masked, and after the
    masking step nothing is found at that path. *)
Lemma masking_drops_values_below_masked_key :
  exists masked,
    applyBeforeSend masking nested_secret = Some (Some masked) /\
    includes (maskFields masking) "keep" = false /\
    get_path (roundtrip nested_secret) ["context"; "password"; "keep"]
    = Some (VStr "k") /\
    get_path masked ["context"; "password"; "keep"] = None /\
    get_path masked ["context"; "password"] = Some (VStr MASK).
Proof.
  eexists. split; [vm_compute; reflexivity|].
  vm_compute. repeat split; reflexivity.
Qed.

End MaskingClaim.

Module CaptureClaim.
Import Js Conf Store Collector Scenario DeliveryFacts.

Lemma logQueue_processQueue st : logQueue (processQueue st) = logQueue st.
Proof. unfold processQueue. destruct (_ <=? _)%Z; reflexivity. Qed.

Lemma logQueue_saveLogsToLocalStorage env uuids st :
  logQueue st = [] -> logQueue (saveLogsToLocalStorage env uuids st) = [].
Proof.
  intros Hq. unfold saveLogsToLocalStorage.
  destruct (localStorageStore st); [|exact Hq].
  rewrite Hq.
  destruct (setItemThrows env); [reflexivity|].
  destruct (_ <? _)%Z; reflexivity.
Qed.

(** With a durable store in place the in-memory queue is empty after
    [enqueue], whether the store accepted the records or not: the [catch]
    clause puts back what the queue holds, which was emptied before the
    writes began. *)
Lemma enqueue_leaves_queue_empty env logEntry st store :
  indexedDBStore st = Some store ->
  logQueue (enqueue env logEntry st) = [].
Proof.
  intros Hstore. unfold enqueue. rewrite logQueue_processQueue.
  change (indexedDBStore (set_logQueue (logQueue st ++ [logEntry]) st))
    with (indexedDBStore st).
  rewrite Hstore.
  destruct (addLogs _ _ _ _ _) as [store' ok].
  destruct ok; [reflexivity|].
  match goal with
  | |- logQueue (match ?ls with Some _ => _ | None => _ end) = _ => destruct ls
  end; [apply logQueue_saveLogsToLocalStorage|]; reflexivity.
Qed.

(** C2 at the failing input: both stores are enabled, the page has both
    storage APIs, the queue is empty, and [info("first")] is accepted.  When
    the store write succeeds the record is in the durable store.  When it
    fails, the error is printed, the in-memory queue is empty, the durable
    store is empty, and there is no fallback store to write to: the record
    is nowhere. *)
Theorem failed_persist_loses_the_batch :
  let st := construct durable page in
  let kept := captureLog (capture uuid_b healthy) Info "first" (VObj []) st in
  let lost := captureLog (capture uuid_b failing) Info "first" (VObj []) st in
  logQueue st = [] /\
  enableLocalStorage (config st) = true /\
  option_map objects (indexedDBStore kept)
  = Some [(uuid_b, info_entry "first" uuid_b)] /\
  logQueue lost = [] /\
  option_map objects (indexedDBStore lost) = Some [] /\
  localStorageStore lost = None /\
  effects lost
  = [ConsoleError "LogCollector: Failed to persist log to IndexedDB. Re-queuing to memory and falling back to LocalStorage if enabled."].
Proof. vm_compute. repeat split; reflexivity. Qed.

(** C4 at the failing input: "first" is accepted before "second", and their
    generated ids are [uuid_b] and [uuid_a].  The store returns them by
    ascending id, so with [batchSize = 1] the flush sends "second" and leaves
    "first", the older record, in the store; and a batch of both would list
    "second" before "first". *)
Theorem flush_sends_by_id_not_by_age :
  let older := info_entry "first" uuid_b in
  let newer := info_entry "second" uuid_a in
  let sent := flushQueue http200 0 false two_captured in
  option_map objects (indexedDBStore two_captured)
  = Some [(uuid_a, newer); (uuid_b, older)] /\
  (selectBatch http200 (set_isSending true two_captured)).1.2 = [newer] /\
  effects sent
  = [Fetch endpoint (Some "super_secret_api_key") [newer] false;
     ConsoleLog "LogCollector: Logs sent successfully via fetch.";
     OnSendSuccess [newer]] /\
  option_map objects (indexedDBStore sent) = Some [(uuid_b, older)] /\
  (selectBatch http200
     (updateConfig morning
        {| Partial.dsn := None; Partial.apiKey := None;
           Partial.batchSize := Some 2%Z;
           Partial.batchInterval := None; Partial.maxRetries := None;
           Partial.retryDelayMs := None; Partial.logLevel := None;
           Partial.maskFields := None; Partial.samplingRates := None;
           Partial.maxLogsPerMinute := None; Partial.beforeSend := None;
           Partial.beforeBreadcrumb := None;
           Partial.enableLocalStorage := None; Partial.localStorageKey := None;
           Partial.maxLocalStorageSize := None; Partial.enableIndexedDB := None;
           Partial.maxBreadcrumbs := None |}
        two_captured)).1.2
  = [newer; older].
Proof. vm_compute. repeat split; reflexivity. Qed.

End CaptureClaim.

Module DeliveryClaim.
Import Js Conf Store Collector Scenario DeliveryFacts.

(** C1 at the failing input: a regular flush, one record per batch, of a
    store that holds two records.  When the endpoint answers HTTP 500 the
    failure is counted, [onSendFailure] runs with the error and the batch,
    and a retry is scheduled.  When [fetch] rejects, the counter stays at
    zero, [onSendFailure] does not run and no retry is scheduled: the flush
    only issues the request and prints the error. *)
Theorem rejected_fetch_is_not_counted :
  let batch := [info_entry "second" uuid_a] in
  let refused := flushQueue http500 0 false two_captured in
  let thrown := flushQueue offline 0 false two_captured in
  consecutiveFailures refused = 1%Z /\
  In (OnSendFailure (HttpError 500 "Internal Server Error") batch) (effects refused) /\
  In (mkTimer 2 (0 + (inject_Z 1000 * 2 ^ 0 + 0 * 100)) (RetryFlush 1)) (timers refused) /\
  consecutiveFailures thrown = 0%Z /\
  effects thrown
  = [Fetch endpoint (Some "super_secret_api_key") batch false; ConsoleLog "error"] /\
  timers thrown = timers two_captured.
Proof. vm_compute. repeat split; auto 10. Qed.

(** C5 at the failing input: two stored records, one record per batch, and
    five flushes in a row whose [fetch] rejects.  None of them is counted,
    so the circuit is still closed, no reset timer is armed, and a sixth
    flush issues the request again.  After five flushes answered with HTTP
    500 instead, the circuit is open and a further flush, even one that the
    endpoint would accept, returns the state as it is. *)
Theorem rejected_fetches_never_open_circuit :
  let refused := flushes five_failures two_captured in
  let thrown := flushes five_rejections two_captured in
  let batch := [info_entry "second" uuid_a] in
  circuitOpen refused = true /\
  flushQueue http200 0 false refused = refused /\
  circuitOpen thrown = false /\
  consecutiveFailures thrown = 0%Z /\
  timers thrown = timers two_captured /\
  effects (flushQueue offline 0 false thrown)
  = effects thrown
    ++ [Fetch endpoint (Some "super_secret_api_key") batch false; ConsoleLog "error"].
Proof. vm_compute. repeat split; reflexivity. Qed.

Lemma two_captured_reachable : reachable two_captured.
Proof. apply runs_reachable. simpl. auto. Qed.

Lemma open_circuit_suppresses_flushes_witness :
  circuitOpen (flushes five_failures two_captured) = true.
Proof.
  apply (open_circuit_suppresses_flushes two_captured five_failures).
  - exact two_captured_reachable.
  - vm_compute. reflexivity.
  - reflexivity.
  - vm_compute. reflexivity.
Defined.

Lemma waited_reachable : reachable waited.
Proof.
  apply (runs_reachable durable page
           ([first_captured; second_captured] ++ five_failed_flushes ++ [Advance 60000])).
  simpl. repeat split; auto. vm_compute. discriminate.
Qed.

Lemma reset_timer_closes_circuit_witness :
  circuitOpen (flushes [(http500, 0%Z)] (circuitReset (clearTimeout 5 waited)))
  = false.
Proof.
  apply (reset_timer_closes_circuit waited reset_timer [(http500, 0%Z)]).
  - exact waited_reachable.
  - vm_compute. tauto.
  - reflexivity.
  - discriminate.
  - vm_compute. reflexivity.
Defined.

(** C3 at the failing input: five failed flushes open the circuit; 60 s
    later the reset timer is due and fires.  Its callback announces the
    half-open state and attempts a flush, which fails with HTTP 500.
    Afterwards the circuit is closed and not open again: the failure
    counter is at 1 and no reset timer is pending. *)
Lemma failure_after_reset_leaves_circuit_closed :
  let after := run (Fire reset_timer http500 morning) waited in
  circuitOpen opened = true /\
  enabled (Advance 60000) opened /\
  enabled (Fire reset_timer http500 morning) waited /\
  In (ConsoleLog "LogCollector: Circuit breaker moved to half-open state. Attempting flush.")
     (skipn (length (effects waited)) (effects after)) /\
  In (OnSendFailure (HttpError 500 "Internal Server Error")
        [info_entry "second" uuid_a]) (skipn (length (effects waited)) (effects after)) /\
  circuitOpen after = false /\
  consecutiveFailures after = 1%Z /\
  List.filter (fun t => match action t with CircuitReset => true | _ => false end)
    (timers after) = [].
Proof.
  vm_compute. repeat split; try reflexivity; try discriminate; auto 10.
Qed.

End DeliveryClaim.

Module LimiterClaim.
Import Js Conf Store Collector Scenario Calendar.


End LimiterClaim.

Module Witnesses.
Import Js Conf Store Collector Scenario.

Lemma updateConfig_replaces_samplingRates_witness :
  samplingRate (config (updateConfig morning resample tuned_collector)) Debug = 1%Q.
Proof.
  apply (ConfFacts.updateConfig_replaces_samplingRates
           morning resample info_only tuned_collector Debug eq_refl).
  reflexivity.
Defined.

Lemma breadcrumb_ring_keeps_last_witness :
  _breadcrumbs (addBreadcrumbs [crumb "a"; crumb "b"; crumb "c"] tuned_collector)
  = [crumb "b"; crumb "c"].
Proof.
  exact (RingFacts.breadcrumb_ring_keeps_last tuned_collector
           [crumb "a"; crumb "b"; crumb "c"] eq_refl).
Defined.


End Witnesses.

(** ** The object store keeps its records by id *)

Module KeyedFacts.
Import Js Conf Store Keyed.

Lemma ascii_compare_trans a b c :
  Ascii.compare a b = Lt -> Ascii.compare b c = Lt -> Ascii.compare a c = Lt.
Proof.
  unfold Ascii.compare. rewrite !N.compare_lt_iff. lia.
Qed.

Lemma compare_trans : forall a b c,
  String.compare a b = Lt -> String.compare b c = Lt -> String.compare a c = Lt.
Proof.
  induction a as [|x a IH]; intros [|y b] [|z c]; simpl; try congruence.
  destruct (Ascii.compare x y) eqn:Hxy; try congruence.
  - apply Ascii.compare_eq_iff in Hxy as ->.
    destruct (Ascii.compare y z) eqn:Hyz; try congruence. apply IH.
  - destruct (Ascii.compare y z) eqn:Hyz; try congruence.
    + apply Ascii.compare_eq_iff in Hyz as <-. rewrite Hxy. reflexivity.
    + rewrite (ascii_compare_trans _ _ _ Hxy Hyz). reflexivity.
Qed.

Lemma compare_refl a : String.compare a a = Eq.
Proof.
  induction a as [|x a IH]; simpl; [reflexivity|].
  unfold Ascii.compare. rewrite N.compare_refl. exact IH.
Qed.

Lemma compare_lt_neq a b : String.compare a b = Lt -> a <> b.
Proof. intros H ->. rewrite compare_refl in H. discriminate. Qed.

Lemma compare_gt_lt a b : String.compare a b = Gt -> String.compare b a = Lt.
Proof. intros H. rewrite String.compare_antisym, H. reflexivity. Qed.

(** [ascending] says that every key is below all later ones. *)
Lemma ascending_cons k keys :
  ascending (k :: keys) = true
  <-> Forall (fun k' => String.compare k k' = Lt) keys /\ ascending keys = true.
Proof.
  revert k. induction keys as [|k2 rest IH]; intros k.
  - simpl. split; [intros _; split; [constructor|reflexivity]|reflexivity].
  - change (ascending (k :: k2 :: rest))
      with (match String.compare k k2 with
            | Lt => ascending (k2 :: rest) | _ => false end).
    destruct (String.compare k k2) eqn:Hk.
    + split; [discriminate|]. intros [H _]. inversion H; congruence.
    + split.
      * intros Hrest. split; [|exact Hrest].
        constructor; [exact Hk|].
        apply IH in Hrest as [Hall _].
        eapply List.Forall_impl; [|exact Hall].
        intros k' Hk'. simpl in Hk'. eapply compare_trans; eassumption.
      * intros [_ H]. exact H.
    + split; [discriminate|]. intros [H _]. inversion H; congruence.
Qed.


Lemma ascending_filter (p : string -> bool) keys :
  ascending keys = true -> ascending (List.filter p keys) = true.
Proof.
  induction keys as [|k rest IH]; [reflexivity|].
  intros H. apply ascending_cons in H as [Hall Hrest]. simpl.
  destruct (p k); [|apply IH, Hrest].
  apply ascending_cons. split; [|apply IH, Hrest].
  apply List.Forall_forall. intros k' Hin.
  apply List.filter_In in Hin as [Hin _].
  exact (proj1 (List.Forall_forall _ _) Hall k' Hin).
Qed.

Lemma map_fst_filter_key (p : string -> bool) (objs : list (string * LogEntry)) :
  List.map fst (List.filter (fun kv => p (fst kv)) objs)
  = List.filter p (List.map fst objs).
Proof.
  induction objs as [|[k o] rest IH]; [reflexivity|].
  simpl. destruct (p k); simpl; congruence.
Qed.

Lemma keyed_by_id_filter (p : string * LogEntry -> bool) objs :
  keyed_by_id objs = true -> keyed_by_id (List.filter p objs) = true.
Proof.
  unfold keyed_by_id. rewrite !List.forallb_forall.
  intros H kv Hin. apply List.filter_In in Hin as [Hin _]. apply H, Hin.
Qed.

Lemma well_keyed_filter_key (p : string -> bool) objs :
  well_keyed objs = true ->
  well_keyed (List.filter (fun kv => p (fst kv)) objs) = true.
Proof.
  unfold well_keyed. rewrite !andb_true_iff. intros [Hasc Hid]. split.
  - rewrite map_fst_filter_key. apply ascending_filter, Hasc.
  - apply keyed_by_id_filter, Hid.
Qed.

(** On ascending records [add] refuses exactly the keys that are there. *)
Lemma idb_add_None key log : forall objs,
  ascending (List.map fst objs) = true ->
  idb_add key log objs = None <-> In key (List.map fst objs).
Proof.
  induction objs as [|[k o] rest IH]; intros Hasc.
  - simpl. split; [discriminate|contradiction].
  - simpl in Hasc. apply ascending_cons in Hasc as [Hall Hrest].
    simpl. destruct (String.compare key k) eqn:Hk.
    + apply String.compare_eq_iff in Hk as ->. split; [auto|reflexivity].
    + split; [discriminate|]. intros [->|Hin].
      * rewrite compare_refl in Hk. discriminate.
      * pose proof (proj1 (List.Forall_forall _ _) Hall key Hin) as Hlt.
        simpl in Hlt. rewrite String.compare_antisym, Hk in Hlt. discriminate.
    + destruct (idb_add key log rest) eqn:Hadd; simpl.
      * split; [discriminate|]. intros [->|Hin].
        -- rewrite compare_refl in Hk. discriminate.
        -- apply IH in Hin; [congruence|exact Hrest].
      * split; [|reflexivity]. intros _. right. apply IH; [exact Hrest|reflexivity].
Qed.

(** A successful [add] puts the record at its place in the key order. *)
Lemma idb_add_Some key log : forall objs objs',
  idb_add key log objs = Some objs' ->
  exists before after,
    objs = before ++ after /\ objs' = before ++ (key, log) :: after /\
    Forall (fun kv => String.compare (fst kv) key = Lt) before /\
    match after with
    | [] => True
    | kv :: _ => String.compare key (fst kv) = Lt
    end.
Proof.
  induction objs as [|[k o] rest IH]; intros objs' Hadd.
  - simpl in Hadd. injection Hadd as <-. exists [], []. repeat split; constructor.
  - simpl in Hadd. destruct (String.compare key k) eqn:Hk; [discriminate| |].
    + injection Hadd as <-. exists [], ((k, o) :: rest).
      repeat split; [constructor|exact Hk].
    + destruct (idb_add key log rest) as [objs1|] eqn:Hrest; [|discriminate].
      injection Hadd as <-.
      destruct (IH objs1 eq_refl) as (before & after & -> & -> & Hbefore & Hafter).
      exists ((k, o) :: before), after. repeat split; [|exact Hafter].
      constructor; [apply compare_gt_lt, Hk|exact Hbefore].
Qed.

Lemma ascending_app_cons before key after :
  ascending (before ++ after) = true ->
  Forall (fun k => String.compare k key = Lt) before ->
  match after with [] => True | k :: _ => String.compare key k = Lt end ->
  ascending (before ++ key :: after) = true.
Proof.
  induction before as [|b before IH]; intros Hasc Hbefore Hafter.
  - simpl app in *. destruct after as [|k after]; [reflexivity|].
    change (ascending (key :: k :: after))
      with (match String.compare key k with
            | Lt => ascending (k :: after) | _ => false end).
    rewrite Hafter. exact Hasc.
  - inversion Hbefore as [|? ? Hb Hbefore']; subst.
    simpl app in *. apply ascending_cons in Hasc as [Hall Hasc].
    apply ascending_cons. split; [|apply IH; assumption].
    apply List.Forall_app in Hall as [Hall1 Hall2].
    apply List.Forall_app. split; [exact Hall1|].
    constructor; [exact Hb|exact Hall2].
Qed.

Lemma well_keyed_idb_add key log objs objs' :
  well_keyed objs = true -> id_string log = Some key ->
  idb_add key log objs = Some objs' -> well_keyed objs' = true.
Proof.
  unfold well_keyed. rewrite !andb_true_iff. intros [Hasc Hid] Hkey Hadd.
  destruct (idb_add_Some _ _ _ _ Hadd) as (before & after & -> & -> & Hbefore & Hafter).
  split.
  - rewrite List.map_app in *. simpl. apply ascending_app_cons.
    + exact Hasc.
    + apply List.Forall_map. exact Hbefore.
    + destruct after; [exact I|exact Hafter].
  - unfold keyed_by_id in *. rewrite List.forallb_app in *. simpl.
    apply andb_true_iff in Hid as [-> ->]. rewrite Hkey, String.eqb_refl. reflexivity.
Qed.


Lemma objects_openDb env s : objects (openDb env s).1 = objects s.
Proof. unfold openDb. destruct (db s), (openFails env); reflexivity. Qed.

Lemma openDb_settled env s :
  (openDb env s).2 = (if db s || negb (openFails env) then Resolved tt else Rejected)
  /\ ((openDb env s).2 = Resolved tt -> db (openDb env s).1 = true).
Proof.
  unfold openDb. destruct (db s) eqn:Hdb, (openFails env); simpl; auto.
  split; [reflexivity|discriminate].
Qed.

Lemma objects_fold_called (ids : list string) : forall s,
  objects (fold_left (fun acc id => called (IdbDelete id) acc) ids s) = objects s
  /\ db (fold_left (fun acc id => called (IdbDelete id) acc) ids s) = db s.
Proof.
  induction ids as [|id rest IH]; intros s; [split; reflexivity|].
  simpl. destruct (IH (called (IdbDelete id) s)) as [-> ->]. split; reflexivity.
Qed.

Lemma fold_idb_delete (ids : list string) : forall objs,
  fold_left (fun objs id => idb_delete id objs) ids objs
  = List.filter (fun kv => negb (listed ids (fst kv))) objs.
Proof.
  induction ids as [|id rest IH]; intros objs.
  - simpl. induction objs as [|kv objs IHo]; [reflexivity|].
    simpl. congruence.
  - simpl. rewrite IH. unfold idb_delete.
    induction objs as [|kv objs IHo]; [reflexivity|].
    simpl. rewrite (String.eqb_sym (fst kv) id).
    destruct (String.eqb id (fst kv)); simpl; [exact IHo|].
    destruct (listed rest (fst kv)); simpl; congruence.
Qed.

(** What [deleteLogs] leaves in the store. *)
Lemma objects_deleteLogs env ids s :
  objects (deleteLogs env ids s).1 = objects s
  \/ exists listed_ids,
       ids = Some listed_ids /\
       objects (deleteLogs env ids s).1
       = List.filter (fun kv => negb (listed listed_ids (fst kv))) (objects s).
Proof.
  destruct ids as [[|id rest]|]; [left; reflexivity| |left; reflexivity].
  unfold deleteLogs.
  destruct (openDb env s) as [s1 [[]|]] eqn:Hopen.
  - pose proof (objects_openDb env s) as Hobj. rewrite Hopen in Hobj. simpl in Hobj.
    destruct (objects_fold_called (id :: rest) (called (IdbTransaction ReadWrite) s1))
      as [Hobjs _].
    destruct (requestFails env).
    + left. cbn [fst]. rewrite Hobjs. exact Hobj.
    + right. exists (id :: rest). split; [reflexivity|].
      cbn [fst objects]. rewrite Hobjs, fold_idb_delete. cbn [called objects].
      rewrite Hobj. reflexivity.
  - left. pose proof (objects_openDb env s) as Hobj. rewrite Hopen in Hobj. exact Hobj.
Qed.

Lemma objects_addLog env uuid log s :
  objects (addLog env uuid log s).1 = objects s
  \/ exists key,
       id_string (Collector.ensure_id uuid log) = Some key /\
       (addLog env uuid log s).2 = Resolved tt /\
       idb_add key (Collector.ensure_id uuid log) (objects s)
       = Some (objects (addLog env uuid log s).1).
Proof.
  unfold addLog, Collector.ensure_id.
  pose proof (objects_openDb env s) as Hobj.
  destruct (openDb env s) as [s1 [[]|]]; simpl in Hobj; [|left; exact Hobj].
  set (log1 := if truthy (log_id log) then log else set_prop log "id" (VStr uuid)).
  destruct (id_string log1) as [key|] eqn:Hkey; [|left; exact Hobj].
  destruct (requestFails env); [left; exact Hobj|].
  cbn [called objects]. rewrite Hobj.
  destruct (idb_add key log1 (objects s)) as [objs|] eqn:Hadd; [|left; exact Hobj].
  right. exists key. repeat split. exact Hadd.
Qed.

Lemma well_keyed_perform step s :
  well_keyed (objects s) = true -> well_keyed (objects (perform step s)) = true.
Proof.
  intros Hwf. destruct step as [env [uuid log| | |ids]]; unfold perform; simpl.
  - destruct (objects_addLog env uuid log s) as [->|(key & Hkey & _ & Hadd)];
      [exact Hwf|].
    eapply well_keyed_idb_add; eassumption.
  - unfold getAllLogs. pose proof (objects_openDb env s) as Hobj.
    destruct (openDb env s) as [s1 [[]|]]; simpl in Hobj.
    + destruct (requestFails env); simpl; rewrite Hobj; exact Hwf.
    + simpl. rewrite Hobj. exact Hwf.
  - unfold clearLogs. pose proof (objects_openDb env s) as Hobj.
    destruct (openDb env s) as [s1 [[]|]]; simpl in Hobj.
    + destruct (requestFails env); simpl; [rewrite Hobj; exact Hwf|reflexivity].
    + simpl. rewrite Hobj. exact Hwf.
  - destruct (objects_deleteLogs env ids s) as [->|(l & _ & ->)]; [exact Hwf|].
    apply (well_keyed_filter_key (fun k => negb (listed l k))), Hwf.
Qed.

Lemma well_keyed_performs steps : forall s,
  well_keyed (objects s) = true -> well_keyed (objects (performs steps s)) = true.
Proof.
  induction steps as [|step rest IH]; intros s Hwf; [exact Hwf|].
  apply IH, well_keyed_perform, Hwf.
Qed.

Lemma keyed_ids objs :
  keyed_by_id objs = true ->
  List.map id_string (List.map snd objs) = List.map Some (List.map fst objs).
Proof.
  induction objs as [|[k o] rest IH]; [reflexivity|].
  simpl. intros H. apply andb_true_iff in H as [Hk Hrest].
  destruct (id_string o) as [key|]; [|discriminate].
  apply String.eqb_eq in Hk as ->. rewrite (IH Hrest). reflexivity.
Qed.

Lemma ascii_keys_perform step s :
  plain_id step = true ->
  forallb ascii_only (keys s) = true ->
  forallb ascii_only (keys (perform step s)) = true.
Proof.
  intros Hplain Hkeys. unfold keys in *.
  destruct step as [env [uuid log| | |ids]]; unfold perform, plain_id in *; simpl in *.
  - destruct (objects_addLog env uuid log s) as [->|(key & Hkey & _ & Hadd)];
      [exact Hkeys|].
    rewrite Hkey in Hplain.
    destruct (idb_add_Some _ _ _ _ Hadd) as (before & after & Hold & Hnew & _).
    rewrite Hnew. rewrite Hold in Hkeys.
    rewrite List.map_app, forallb_app in *. simpl.
    apply andb_true_iff in Hkeys as [-> ->]. rewrite Hplain. reflexivity.
  - unfold getAllLogs. pose proof (objects_openDb env s) as Hobj.
    destruct (openDb env s) as [s1 [[]|]]; simpl in Hobj.
    + destruct (requestFails env); simpl; rewrite Hobj; exact Hkeys.
    + simpl. rewrite Hobj. exact Hkeys.
  - unfold clearLogs. pose proof (objects_openDb env s) as Hobj.
    destruct (openDb env s) as [s1 [[]|]]; simpl in Hobj.
    + destruct (requestFails env); simpl; [rewrite Hobj; exact Hkeys|reflexivity].
    + simpl. rewrite Hobj. exact Hkeys.
  - destruct (objects_deleteLogs env ids s) as [->|(l & _ & ->)]; [exact Hkeys|].
    revert Hkeys. generalize (objects s). intros objs.
    induction objs as [|kv objs IH]; [reflexivity|].
    simpl. intros H. apply andb_true_iff in H as [Hk Hrest].
    destruct (negb (listed l (fst kv))); simpl; [rewrite Hk|]; apply IH, Hrest.
Qed.

Lemma ascii_keys_performs steps : forall s,
  forallb plain_id steps = true ->
  forallb ascii_only (keys s) = true ->
  forallb ascii_only (keys (performs steps s)) = true.
Proof.
  induction steps as [|step rest IH]; intros s Hplain Hkeys; [exact Hkeys|].
  simpl in Hplain. apply andb_true_iff in Hplain as [Hstep Hrest].
  apply IH; [exact Hrest|]. apply ascii_keys_perform; assumption.
Qed.

(** X1. [getAllLogs] returns the records in strictly ascending order of their
    ids, whatever the order of the operations that put them there, as long
    as the ids are ASCII strings. *)
Theorem getAllLogs_in_id_order
  (s : IndexedDBStore) (steps : list (IdbEnv * Request)) (env : IdbEnv)
  (logs : list LogEntry) :
  well_keyed (objects s) = true ->
  forallb ascii_only (keys s) = true ->
  forallb plain_id steps = true ->
  (getAllLogs env (performs steps s)).2 = Resolved logs ->
  exists ids,
    List.map id_string logs = List.map Some ids /\
    forallb ascii_only ids = true /\ ascending ids = true.
Proof.
  intros Hwf Hkeys Hplain Hread.
  pose proof (well_keyed_performs steps s Hwf) as Hwf'.
  pose proof (ascii_keys_performs steps s Hplain Hkeys) as Hkeys'.
  set (s' := performs steps s) in *.
  unfold getAllLogs in Hread. pose proof (objects_openDb env s') as Hobj.
  destruct (openDb env s') as [s1 [[]|]]; simpl in Hobj; [|discriminate].
  destruct (requestFails env); [discriminate|].
  injection Hread as <-. cbn [called objects]. rewrite Hobj.
  unfold well_keyed in Hwf'. apply andb_true_iff in Hwf' as [Hasc Hid].
  exists (List.map fst (objects s')).
  split; [apply keyed_ids, Hid|]. split; [exact Hkeys'|exact Hasc].
Qed.


(** With the database opening and the request going through, [addLog] adds
    at the record's key, unless that key is taken. *)
Lemma addLog_healthy env uuid log s key :
  db s = true \/ openFails env = false -> requestFails env = false ->
  id_string (Collector.ensure_id uuid log) = Some key ->
  db (addLog env uuid log s).1 = true /\
  objects (addLog env uuid log s).1
  = default (objects s) (idb_add key (Collector.ensure_id uuid log) (objects s)) /\
  (addLog env uuid log s).2
  = match idb_add key (Collector.ensure_id uuid log) (objects s) with
    | Some _ => Resolved tt
    | None => Rejected
    end.
Proof.
  intros Hopen Hreq Hkey. unfold addLog, Collector.ensure_id in *.
  assert (exists s1, openDb env s = (s1, Resolved tt) /\ objects s1 = objects s
                     /\ db s1 = true) as (s1 & -> & Hobj & Hdb).
  { unfold openDb. destruct (db s) eqn:Hdb.
    - exists s. auto.
    - destruct Hopen as [Hd| ->]; [discriminate|]. eexists. split; [reflexivity|]. auto. }
  set (log1 := if truthy (log_id log) then log else set_prop log "id" (VStr uuid)) in *.
  rewrite Hkey, Hreq. cbn [called objects db]. rewrite Hobj.
  destruct (idb_add key log1 (objects s)); simpl; auto.
Qed.

Lemma In_idb_add key log objs objs' :
  idb_add key log objs = Some objs' ->
  forall kv, In kv objs' <-> kv = (key, log) \/ In kv objs.
Proof.
  intros Hadd kv.
  destruct (idb_add_Some _ _ _ _ Hadd) as (before & after & -> & -> & _ & _).
  rewrite !List.in_app_iff. simpl. intuition congruence.
Qed.

(** X2. [addLog] resolves exactly when the database opens, the write goes
    through and no stored record has the id of the new one.  The store then
    holds the record, with its id, beside the old ones, and the next
    [getAllLogs] returns it; a rejected [addLog] leaves the records alone. *)
Theorem addLog_stores_record
  (env : IdbEnv) (uuid : string) (log : LogEntry) (s : IndexedDBStore)
  (key : string) :
  well_keyed (objects s) = true ->
  let stored := Collector.ensure_id uuid log in
  id_string stored = Some key ->
  let s' := (addLog env uuid log s).1 in
  ((addLog env uuid log s).2 = Resolved tt
   <-> (db s = true \/ openFails env = false) /\ requestFails env = false
       /\ ~ In key (keys s)) /\
  ((addLog env uuid log s).2 = Resolved tt ->
   db s' = true /\
   (forall kv, In kv (objects s') <-> kv = (key, stored) \/ In kv (objects s)) /\
   forall env', requestFails env' = false ->
     exists logs, (getAllLogs env' s').2 = Resolved logs /\ In stored logs) /\
  ((addLog env uuid log s).2 = Rejected -> objects s' = objects s).
Proof.
  intros Hwf stored Hkey s'.
  assert (Hasc : ascending (List.map fst (objects s)) = true).
  { unfold well_keyed in Hwf. apply andb_true_iff in Hwf as [H _]. exact H. }
  pose proof (idb_add_None key stored (objects s) Hasc) as Hnone.
  destruct (objects_addLog env uuid log s) as [Hsame|(key' & Hkey' & Hres & Hadd)].
  - (* nothing was added *)
    assert (Hrej : (addLog env uuid log s).2 = Rejected).
    { destruct (addLog env uuid log s).2 as [[]|] eqn:Hset; [|reflexivity].
      exfalso.
      assert (Hgood : (db s = true \/ openFails env = false) /\ requestFails env = false).
      { unfold addLog in Hset. pose proof (openDb_settled env s) as [Hs _].
        destruct (openDb env s) as [s1 [[]|]]; simpl in Hs; [|discriminate].
        split.
        - destruct (db s); [auto|]. destruct (openFails env); [discriminate|auto].
        - fold (Collector.ensure_id uuid log) in Hset. fold stored in Hset.
          rewrite Hkey in Hset. destruct (requestFails env); [discriminate|reflexivity]. }
      destruct Hgood as [Hopen Hreq].
      destruct (addLog_healthy env uuid log s key Hopen Hreq Hkey) as (_ & Hobj & Hset').
      fold stored in Hobj, Hset'. fold s' in Hsame.
      destruct (idb_add key stored (objects s)) as [objs|] eqn:Hadd.
      + simpl in Hobj. fold s' in Hobj. rewrite Hsame in Hobj. subst objs.
        pose proof (proj2 (In_idb_add _ _ _ _ Hadd (key, stored)) (or_introl eq_refl)) as Hin.
        apply (List.in_map fst) in Hin. simpl in Hin.
        apply Hnone in Hin. congruence.
      + rewrite Hset in Hset'. discriminate. }
    split; [|split]; [|congruence|intros _; exact Hsame].
    split; [congruence|]. intros (Hopen & Hreq & Hfree). exfalso.
    destruct (addLog_healthy env uuid log s key Hopen Hreq Hkey) as (_ & _ & Hset).
    fold stored in Hset.
    destruct (idb_add key stored (objects s)) eqn:Hadd; [congruence|].
    apply Hfree, Hnone. reflexivity.
  - (* the record was added *)
    fold stored in Hkey', Hadd. assert (key' = key) as -> by congruence.
    fold s' in Hadd.
    assert (Hgood : (db s = true \/ openFails env = false) /\ requestFails env = false).
    { unfold addLog in Hres. pose proof (openDb_settled env s) as [Hs _].
      destruct (openDb env s) as [s1 [[]|]]; simpl in Hs; [|discriminate].
      split.
      - destruct (db s); [auto|]. destruct (openFails env); [discriminate|auto].
      - fold (Collector.ensure_id uuid log) in Hres. fold stored in Hres.
        rewrite Hkey in Hres. destruct (requestFails env); [discriminate|reflexivity]. }
    destruct Hgood as [Hopen Hreq].
    destruct (addLog_healthy env uuid log s key Hopen Hreq Hkey) as (Hdb & _ & _).
    split; [|split]; [| |congruence].
    + split; [|intros _; exact Hres]. intros _. repeat split; try assumption.
      intros Hin. apply Hnone in Hin. congruence.
    + intros _. split; [exact Hdb|]. split; [apply In_idb_add, Hadd|].
      intros env' Hreq'. unfold getAllLogs, openDb.
      change (db s' = true) in Hdb. rewrite Hdb, Hreq'.
      eexists. split; [reflexivity|]. cbn [called objects].
      apply (List.in_map snd _ (key, stored)), (In_idb_add _ _ _ _ Hadd). auto.
Qed.

Lemma filter_listed_nil (objs : list (string * LogEntry)) :
  List.filter (fun kv => negb (listed [] (fst kv))) objs = objs.
Proof. induction objs as [|kv objs IH]; [reflexivity|]. simpl. f_equal. exact IH. Qed.

(** With the database opening and the requests going through, [deleteLogs]
    resolves and leaves the records whose key is not listed. *)
Lemma deleteLogs_healthy env ids s :
  db s = true \/ openFails env = false -> requestFails env = false ->
  (deleteLogs env (Some ids) s).2 = Resolved tt /\
  objects (deleteLogs env (Some ids) s).1
  = List.filter (fun kv => negb (listed ids (fst kv))) (objects s) /\
  (ids <> [] -> db (deleteLogs env (Some ids) s).1 = true).
Proof.
  intros Hopen Hreq. destruct ids as [|id rest].
  - split; [reflexivity|]. split; [simpl; rewrite filter_listed_nil; reflexivity|].
    intros H. exfalso. apply H. reflexivity.
  - unfold deleteLogs.
    assert (exists s1, openDb env s = (s1, Resolved tt) /\ objects s1 = objects s
                       /\ db s1 = true) as (s1 & -> & Hobj & Hdb).
    { unfold openDb. destruct (db s) eqn:Hdb.
      - exists s. auto.
      - destruct Hopen as [Hd| ->]; [discriminate|]. eexists. split; [reflexivity|]. auto. }
    rewrite Hreq. cbn [fst snd objects db].
    destruct (objects_fold_called (id :: rest) (called (IdbTransaction ReadWrite) s1))
      as [-> ->].
    rewrite fold_idb_delete. cbn [called objects db]. rewrite Hobj. auto.
Qed.

(** X3. What [deleteLogs] does when its transaction goes through: exactly the
    records whose id is listed are gone, the others stay in their order;
    an id that is not in the store is passed over, and deleting the same ids
    again changes nothing. *)
Theorem deleteLogs_removes_listed
  (env : IdbEnv) (ids : list string) (s : IndexedDBStore) :
  db s = true \/ openFails env = false -> requestFails env = false ->
  let s' := (deleteLogs env (Some ids) s).1 in
  (deleteLogs env (Some ids) s).2 = Resolved tt /\
  objects s' = List.filter (fun kv => negb (listed ids (fst kv))) (objects s) /\
  (keyed_by_id (objects s) = true ->
   records s'
   = List.filter (fun log => match id_string log with
                             | Some id => negb (listed ids id)
                             | None => true
                             end) (records s)) /\
  (forall id, In id ids -> ~ In id (keys s')) /\
  ((forall id, In id ids -> ~ In id (keys s)) -> objects s' = objects s) /\
  objects (deleteLogs env (Some ids) s').1 = objects s'.
Proof.
  intros Hopen Hreq s'.
  destruct (deleteLogs_healthy env ids s Hopen Hreq) as (Hres & Hobj & Hdb).
  fold s' in Hobj, Hdb.
  assert (Hopen' : db s' = true \/ openFails env = false).
  { destruct ids as [|id rest]; [exact Hopen|]. left. apply Hdb. discriminate. }
  destruct (deleteLogs_healthy env ids s' Hopen' Hreq) as (_ & Hagain & _).
  split; [exact Hres|]. split; [exact Hobj|]. split; [|split; [|split]].
  - unfold records. rewrite Hobj. generalize (objects s). clear.
    intros objs. induction objs as [|[k o] objs IH]; intros Hid; [reflexivity|].
    simpl in Hid. apply andb_true_iff in Hid as [Hk Hrest]. simpl.
    destruct (id_string o) as [id|]; [|discriminate].
    apply String.eqb_eq in Hk as ->.
    destruct (listed ids k); simpl; rewrite (IH Hrest); reflexivity.
  - intros id Hin Hkey. unfold keys in Hkey. rewrite Hobj in Hkey.
    apply List.in_map_iff in Hkey as ([k o] & <- & Hkv).
    apply List.filter_In in Hkv as [_ Hkeep]. simpl in Hkeep.
    apply negb_true_iff in Hkeep.
    assert (listed ids k = true); [|congruence].
    apply List.existsb_exists. exists k. split; [exact Hin|apply String.eqb_refl].
  - intros Hfree. rewrite Hobj. unfold keys in Hfree. revert Hfree.
    generalize (objects s). clear. intros objs Hfree.
    induction objs as [|[k o] objs IH]; [reflexivity|].
    simpl. destruct (listed ids k) eqn:Hk.
    + exfalso. apply List.existsb_exists in Hk as (id & Hin & Heq).
      apply String.eqb_eq in Heq as <-. apply (Hfree k Hin). left. reflexivity.
    + simpl. rewrite IH; [reflexivity|].
      intros id Hin Hkey. apply (Hfree id Hin). right. exact Hkey.
  - rewrite Hagain, Hobj. generalize (objects s). clear.
    intros objs. induction objs as [|kv objs IH]; [reflexivity|].
    simpl. destruct (negb (listed ids (fst kv))) eqn:Hkeep; simpl; [|exact IH].
    rewrite Hkeep, IH. reflexivity.
Qed.

Lemma addLog_resolved env uuid log s :
  (addLog env uuid log s).2 = Resolved tt ->
  exists key,
    id_string (Collector.ensure_id uuid log) = Some key /\
    idb_add key (Collector.ensure_id uuid log) (objects s)
    = Some (objects (addLog env uuid log s).1) /\
    db (addLog env uuid log s).1 = true.
Proof.
  unfold addLog, Collector.ensure_id.
  pose proof (objects_openDb env s) as Hobj.
  pose proof (openDb_settled env s) as [_ Hdb].
  destruct (openDb env s) as [s1 [[]|]]; simpl in Hobj, Hdb; [|discriminate].
  set (log1 := if truthy (log_id log) then log else set_prop log "id" (VStr uuid)).
  destruct (id_string log1) as [key|] eqn:Hkey; [|discriminate].
  destruct (requestFails env); [discriminate|].
  cbn [called objects]. rewrite Hobj.
  destruct (idb_add key log1 (objects s)) as [objs|] eqn:Hadd; [|discriminate].
  intros _. exists key. split; [reflexivity|]. split; [exact Hadd|].
  apply Hdb. reflexivity.
Qed.

Lemma filter_other_keys key (objs : list (string * LogEntry)) :
  ~ In key (List.map fst objs) ->
  idb_delete key objs = objs.
Proof.
  unfold idb_delete. induction objs as [|[k o] objs IH]; [reflexivity|].
  simpl. intros Hfree.
  destruct (String.eqb_spec k key) as [->|Hne]; [exfalso; auto|].
  simpl. rewrite IH; [reflexivity|]. auto.
Qed.

(** X4. Deleting the id of a record just added gives back the store as it was. *)
Theorem deleteLogs_undoes_addLog
  (env env' : IdbEnv) (uuid : string) (log : LogEntry) (s : IndexedDBStore)
  (key : string) :
  well_keyed (objects s) = true ->
  id_string (Collector.ensure_id uuid log) = Some key ->
  (addLog env uuid log s).2 = Resolved tt ->
  requestFails env' = false ->
  let s' := (addLog env uuid log s).1 in
  In key (keys s') /\
  (deleteLogs env' (Some [key]) s').2 = Resolved tt /\
  objects (deleteLogs env' (Some [key]) s').1 = objects s.
Proof.
  intros Hwf Hkey Hres Hreq s'.
  destruct (addLog_resolved env uuid log s Hres) as (key' & Hkey' & Hadd & Hdb).
  assert (key' = key) as -> by congruence. fold s' in Hadd, Hdb.
  assert (Hasc : ascending (List.map fst (objects s)) = true).
  { unfold well_keyed in Hwf. apply andb_true_iff in Hwf as [H _]. exact H. }
  assert (Hfree : ~ In key (List.map fst (objects s))).
  { intros Hin. apply (idb_add_None key (Collector.ensure_id uuid log)) in Hin;
      [congruence|exact Hasc]. }
  destruct (idb_add_Some _ _ _ _ Hadd) as (before & after & Hold & Hnew & _ & _).
  split.
  { unfold keys. rewrite Hnew, List.map_app. apply List.in_app_iff. right. left. reflexivity. }
  unfold deleteLogs, openDb. rewrite Hdb, Hreq. split; [reflexivity|].
  cbn [fst fold_left called objects].
  rewrite Hnew, Hold in *.
  pose proof (filter_other_keys key (before ++ after) Hfree) as Hkeep.
  unfold idb_delete in *. rewrite List.filter_app in *. simpl.
  rewrite String.eqb_refl. exact Hkeep.
Qed.

Lemma ascending_same_members : forall l1 l2 : list (string * LogEntry),
  ascending (List.map fst l1) = true -> ascending (List.map fst l2) = true ->
  (forall kv, In kv l1 <-> In kv l2) -> l1 = l2.
Proof.
  induction l1 as [|x l1 IH]; intros [|y l2] H1 H2 Hsame.
  - reflexivity.
  - exfalso. apply (Hsame y). left. reflexivity.
  - exfalso. apply (Hsame x). left. reflexivity.
  - simpl in H1, H2. apply ascending_cons in H1 as [Hx H1], H2 as [Hy H2].
    rewrite List.Forall_forall in Hx, Hy.
    assert (Hhead : x = y).
    { destruct (proj1 (Hsame x) (or_introl eq_refl)) as [Heq|Hin]; [congruence|].
      destruct (proj2 (Hsame y) (or_introl eq_refl)) as [Heq|Hin']; [congruence|].
      exfalso.
      pose proof (Hy _ (List.in_map fst _ _ Hin)) as Hyx.
      pose proof (Hx _ (List.in_map fst _ _ Hin')) as Hxy.
      pose proof (compare_trans _ _ _ Hxy Hyx) as Hxx.
      rewrite compare_refl in Hxx. discriminate. }
    subst y. f_equal. apply IH; [exact H1|exact H2|].
    intros kv. split; intros Hin.
    + destruct (proj1 (Hsame kv) (or_intror Hin)) as [<-|Hin']; [|exact Hin'].
      exfalso. pose proof (Hx _ (List.in_map fst _ _ Hin)) as Hxx.
      rewrite compare_refl in Hxx. discriminate.
    + destruct (proj2 (Hsame kv) (or_intror Hin)) as [<-|Hin']; [|exact Hin'].
      exfalso. pose proof (Hy _ (List.in_map fst _ _ Hin)) as Hxx.
      rewrite compare_refl in Hxx. discriminate.
Qed.

Lemma put_spec key log objs :
  ascending (List.map fst objs) = true ->
  ascending (List.map fst (put key log objs)) = true /\
  (forall k, In k (List.map fst (put key log objs)) <-> k = key \/ In k (List.map fst objs)) /\
  forall kv, In kv (put key log objs)
    <-> (kv = (key, log) /\ ~ In key (List.map fst objs)) \/ In kv objs.
Proof.
  intros Hasc. unfold put.
  pose proof (idb_add_None key log objs Hasc) as Hnone.
  destruct (idb_add key log objs) as [objs'|] eqn:Hadd; simpl.
  - assert (Hfree : ~ In key (List.map fst objs)).
    { intros Hin. apply Hnone in Hin. discriminate. }
    destruct (idb_add_Some _ _ _ _ Hadd) as (before & after & -> & -> & Hb & Ha).
    split; [|split].
    + rewrite List.map_app in *. simpl. apply ascending_app_cons; [exact Hasc| |].
      * apply List.Forall_map. exact Hb.
      * destruct after; [exact I|exact Ha].
    + intros k. rewrite ?List.map_app, ?List.in_app_iff. simpl.
      rewrite ?List.map_app, ?List.in_app_iff. intuition congruence.
    + intros kv. rewrite ?List.in_app_iff. simpl. rewrite ?List.in_app_iff.
      intuition congruence.
  - assert (Hin : In key (List.map fst objs)) by (apply Hnone; reflexivity).
    split; [exact Hasc|]. split.
    + intros k. split; [auto|]. intros [->|H]; assumption.
    + intros kv. split; [auto|]. intros [[_ H]|H]; [contradiction|exact H].
Qed.

(** X5. The store forgets the order of insertion: two records with different
    ids leave the same store whichever is added first. *)
Theorem addLog_order_is_forgotten
  (env : IdbEnv) (uuid_a uuid_b : string) (a b : LogEntry) (s : IndexedDBStore)
  (key_a key_b : string) :
  well_keyed (objects s) = true ->
  openFails env = false -> requestFails env = false ->
  id_string (Collector.ensure_id uuid_a a) = Some key_a ->
  id_string (Collector.ensure_id uuid_b b) = Some key_b ->
  key_a <> key_b ->
  objects (addLog env uuid_b b (addLog env uuid_a a s).1).1
  = objects (addLog env uuid_a a (addLog env uuid_b b s).1).1.
Proof.
  intros Hwf Hopen Hreq Ha Hb Hne.
  assert (Hasc : ascending (List.map fst (objects s)) = true).
  { unfold well_keyed in Hwf. apply andb_true_iff in Hwf as [H _]. exact H. }
  destruct (addLog_healthy env uuid_a a s key_a (or_intror Hopen) Hreq Ha) as (_ & Ha1 & _).
  destruct (addLog_healthy env uuid_b b s key_b (or_intror Hopen) Hreq Hb) as (_ & Hb1 & _).
  destruct (addLog_healthy env uuid_b b (addLog env uuid_a a s).1 key_b
              (or_intror Hopen) Hreq Hb) as (_ & Hb2 & _).
  destruct (addLog_healthy env uuid_a a (addLog env uuid_b b s).1 key_a
              (or_intror Hopen) Hreq Ha) as (_ & Ha2 & _).
  rewrite Hb2, Ha2, Ha1, Hb1.
  set (la := Collector.ensure_id uuid_a a). set (lb := Collector.ensure_id uuid_b b).
  change (put key_b lb (put key_a la (objects s)) = put key_a la (put key_b lb (objects s))).
  destruct (put_spec key_a la (objects s) Hasc) as (Hasc_a & Hkeys_a & Hin_a).
  destruct (put_spec key_b lb (objects s) Hasc) as (Hasc_b & Hkeys_b & Hin_b).
  destruct (put_spec key_b lb _ Hasc_a) as (Hasc_ab & _ & Hin_ab).
  destruct (put_spec key_a la _ Hasc_b) as (Hasc_ba & _ & Hin_ba).
  apply ascending_same_members; [exact Hasc_ab|exact Hasc_ba|].
  intros kv. rewrite Hin_ab, Hin_ba, Hin_a, Hin_b, Hkeys_a, Hkeys_b.
  intuition congruence.
Qed.

End KeyedFacts.

(** ** Ids and ignore patterns *)

Module UtilFacts.
Import Js Conf Util.

Lemma truncate_draw (q : Q) :
  (0 <= q)%Q -> (q < 1)%Q -> (0 <= truncate (q * 16) <= 15)%Z.
Proof.
  destruct q as [n d]. unfold Qle, Qlt, truncate. simpl. intros H0 H1.
  rewrite Pos.mul_1_r.
  assert (0 <= n)%Z by lia. assert (n < Zpos d)%Z by lia.
  split.
  - apply Z.quot_pos; lia.
  - assert (n * 16 ÷ Zpos d < 16)%Z; [|lia].
    apply Z.quot_lt_upper_bound; lia.
Qed.

Lemma toInt32_draw (q : Q) :
  (0 <= q)%Q -> (q < 1)%Q -> (0 <= toInt32 (q * 16) <= 15)%Z.
Proof.
  intros H0 H1. pose proof (truncate_draw q H0 H1) as Hr. unfold toInt32.
  rewrite Z.mod_small; lia.
Qed.

Lemma small_cases (r : Z) (P : Z -> Prop) :
  (0 <= r <= 15)%Z ->
  P 0%Z -> P 1%Z -> P 2%Z -> P 3%Z -> P 4%Z -> P 5%Z -> P 6%Z -> P 7%Z ->
  P 8%Z -> P 9%Z -> P 10%Z -> P 11%Z -> P 12%Z -> P 13%Z -> P 14%Z -> P 15%Z ->
  P r.
Proof.
  intros Hr. intros.
  assert (r = 0 \/ r = 1 \/ r = 2 \/ r = 3 \/ r = 4 \/ r = 5 \/ r = 6 \/ r = 7 \/
          r = 8 \/ r = 9 \/ r = 10 \/ r = 11 \/ r = 12 \/ r = 13 \/ r = 14 \/ r = 15)%Z
    as Hcases by lia.
  repeat (destruct Hcases as [->|Hcases]; [assumption|]). subst. assumption.
Qed.

Lemma replacement_x (q : Q) :
  (0 <= q)%Q -> (q < 1)%Q ->
  exists c, replacement "x" q = String c "" /\ In c hex_digits.
Proof.
  intros H0 H1. unfold replacement. simpl Ascii.eqb. cbv zeta iota.
  apply (small_cases _ (fun r => exists c, toString16 r = String c "" /\ In c hex_digits)
           (toInt32_draw q H0 H1));
    (eexists; split; [vm_compute; reflexivity|vm_compute; tauto]).
Qed.

Lemma replacement_y (q : Q) :
  (0 <= q)%Q -> (q < 1)%Q ->
  exists c, replacement "y" q = String c "" /\ In c ["8"; "9"; "a"; "b"]%char.
Proof.
  intros H0 H1. unfold replacement. simpl Ascii.eqb. cbv zeta iota.
  apply (small_cases _ (fun r => exists c, toString16 (Z.lor (Z.land r 3) 8) = String c ""
                                           /\ In c ["8"; "9"; "a"; "b"]%char)
           (toInt32_draw q H0 H1));
    (eexists; split; [vm_compute; reflexivity|vm_compute; tauto]).
Qed.


(** X6. Whatever [Math.random()] returns, [generateUUID] builds a string of the
    version-4 form: 36 characters, hyphens at 8, 13, 18 and 23, a [4] at 14,
    one of [8 9 a b] at 19 and lower-case hexadecimal digits elsewhere.  So
    an id it assigns is never empty. *)
Theorem generateUUID_has_version_4_form (draws : nat -> Q) :
  (forall i, 0 <= draws i /\ draws i < 1)%Q ->
  let id := generateUUID draws in
  String.length id = 36%nat /\
  (forall i, In i [8; 13; 18; 23]%nat -> String.get i id = Some "-"%char) /\
  String.get 14 id = Some "4"%char /\
  (exists c, String.get 19 id = Some c /\ In c ["8"; "9"; "a"; "b"]%char) /\
  (forall i, (i < 36)%nat -> ~ In i [8; 13; 18; 23]%nat ->
             exists c, String.get i id = Some c /\ In c hex_digits) /\
  truthy (VStr id) = true.
Proof.
  intros Hdraws id. subst id. unfold generateUUID.
  cbn [replace_xy Ascii.eqb Bool.eqb orb].
  repeat match goal with
         | |- context [replacement "x"%char (draws ?i)] =>
             let c := fresh "c" in
             let Hc := fresh "Hc" in
             destruct (replacement_x (draws i) (proj1 (Hdraws i)) (proj2 (Hdraws i)))
               as (c & -> & Hc)
         end.
  destruct (replacement_y (draws 15%nat) (proj1 (Hdraws _)) (proj2 (Hdraws _)))
    as (y & -> & Hy).
  cbn [String.append].
  split; [reflexivity|]. split.
  { intros i Hi. simpl in Hi.
    destruct Hi as [<-|[<-|[<-|[<-|[]]]]]; reflexivity. }
  split; [reflexivity|]. split; [exists y; split; [reflexivity|exact Hy]|].
  split; [|reflexivity].
  intros i Hi Hdash.
  assert (In "4"%char hex_digits) by (vm_compute; tauto).
  assert (In y hex_digits).
  { simpl in Hy. destruct Hy as [<-|[<-|[<-|[<-|[]]]]]; vm_compute; tauto. }
  do 36 (destruct i as [|i];
         [first [exfalso; apply Hdash; simpl; tauto
                |eexists; split; [reflexivity|assumption]]|]).
  lia.
Qed.

Lemma prefix_app pattern suffix : String.prefix pattern (pattern ++ suffix)%string = true.
Proof.
  induction pattern as [|c pattern IH]; simpl; [destruct suffix; reflexivity|].
  destruct (ascii_dec c c); [exact IH|contradiction].
Qed.

Lemma prefix_split pattern : forall s,
  String.prefix pattern s = true -> exists suffix, s = (pattern ++ suffix)%string.
Proof.
  induction pattern as [|c pattern IH]; intros s H.
  - exists s. reflexivity.
  - destruct s as [|c' s]; simpl in H; [discriminate|].
    destruct (ascii_dec c c') as [<-|]; [|discriminate].
    destruct (IH s H) as (suffix & ->). exists suffix. reflexivity.
Qed.

(** [s.includes(pattern)] holds exactly when [pattern] occurs in [s]. *)
Lemma includes_string_spec s pattern :
  includes_string s pattern = true
  <-> exists before after, s = (before ++ pattern ++ after)%string.
Proof.
  split.
  - induction s as [|c s IH]; cbn [includes_string]; intros H.
    + rewrite orb_false_r in H. apply prefix_split in H as (suffix & ->).
      exists "", suffix. reflexivity.
    + apply orb_true_iff in H as [H|H].
      * apply prefix_split in H as (suffix & ->). exists "", suffix. reflexivity.
      * destruct (IH H) as (before & after & ->).
        exists (String c before), after. reflexivity.
  - intros (before & after & ->).
    induction before as [|c before IH].
    + change ("" ++ pattern ++ after)%string with (pattern ++ after)%string.
      destruct (pattern ++ after)%string eqn:Heq; cbn [includes_string];
        rewrite <- Heq, prefix_app; reflexivity.
    + change (String c before ++ pattern ++ after)%string
        with (String c (before ++ pattern ++ after))%string.
      cbn [includes_string]. rewrite IH. apply orb_true_r.
Qed.

Lemma search_spec matcher s : forall n i,
  (exists e, search matcher s i n = Some e)
  <-> exists j e, (i <= j <= i + n)%nat /\ matcher s j = Some e.
Proof.
  induction n as [|n IH]; intros i; simpl.
  - destruct (matcher s i) as [e|] eqn:Hi.
    + split; [intros _; exists i, e; split; [lia|exact Hi]|intros _; eauto].
    + split; [intros (e & He); discriminate|].
      intros (j & e & Hj & He). assert (j = i) as -> by lia. congruence.
  - destruct (matcher s i) as [e|] eqn:Hi.
    + split; [intros _; exists i, e; split; [lia|exact Hi]|intros _; eauto].
    + rewrite IH. split.
      * intros (j & e & Hj & He). exists j, e. split; [lia|exact He].
      * intros (j & e & Hj & He). exists j, e. split; [|exact He].
        destruct (Nat.eq_dec j i) as [->|]; [congruence|lia].
Qed.

(** Without the [g] and [y] flags [test] is a search from the start and
    leaves the object as it is. *)
Lemma test_flagless r s :
  flagless r = true ->
  (test r s).2 = r /\ ((test r s).1 = true <-> occurs r s).
Proof.
  unfold flagless, test, occurs. intros Hflags. apply negb_true_iff in Hflags.
  rewrite Hflags. apply orb_false_iff in Hflags as [_ ->].
  change (String.length s <? 0)%nat with false. cbv iota. rewrite Nat.sub_0_r.
  pose proof (search_spec (matchAt r) s (String.length s) 0) as Hspec.
  destruct (search (matchAt r) s 0 (String.length s)) as [e|]; simpl.
  - split; [reflexivity|]. split; [intros _|reflexivity].
    destruct (proj1 Hspec (ex_intro _ e eq_refl)) as (j & e' & Hj & He).
    exists j, e'. split; [lia|exact He].
  - split; [reflexivity|]. split; [discriminate|].
    intros (i & e & Hi & He).
    destruct (proj2 Hspec) as (e' & He'); [exists i, e; split; [lia|exact He]|].
    discriminate.
Qed.

(** When the callback changes none of the patterns, [some_of] is
    [existsb]. *)
Lemma some_of_pure {P : Type} (callback : P -> bool * P) (patterns : list P) :
  (forall pattern, In pattern patterns -> (callback pattern).2 = pattern) ->
  some_of callback patterns
  = (existsb (fun pattern => (callback pattern).1) patterns, patterns).
Proof.
  induction patterns as [|pattern rest IH]; intros Hpure; [reflexivity|].
  simpl. pose proof (Hpure pattern (or_introl eq_refl)) as Hhead.
  destruct (callback pattern) as [accepted pattern']. simpl in Hhead. subst pattern'.
  destruct accepted; [reflexivity|].
  rewrite IH; [reflexivity|]. intros p Hin. apply Hpure. right. exact Hin.
Qed.

Lemma existsb_same {P : Type} (f g : P -> bool) (patterns : list P) :
  (forall pattern, f pattern = g pattern) -> existsb f patterns = existsb g patterns.
Proof.
  intros Hfg. induction patterns as [|pattern rest IH]; [reflexivity|].
  simpl. rewrite Hfg, IH. reflexivity.
Qed.

Lemma matchesUrl_flagless url patterns :
  forallb flagless_url patterns = true ->
  matchesUrl url patterns
  = (existsb (fun pattern => match pattern with
                             | UrlString text => includes_string url text
                             | UrlRegExp r => (test r url).1
                             end) patterns, patterns).
Proof.
  intros Hflags. unfold matchesUrl. rewrite some_of_pure.
  - f_equal. apply existsb_same. intros [text|r]; [reflexivity|].
    destruct (test r url); reflexivity.
  - intros [text|r] Hin; [reflexivity|].
    pose proof (proj1 (forallb_forall _ _) Hflags _ Hin) as Hr. simpl in Hr.
    destruct (test_flagless r url Hr) as [Hsame _].
    destruct (test r url) as [found r']. simpl in *. congruence.
Qed.

(** X7. With patterns whose regular expressions have neither the [g] nor
    the [y] flag, [matchesUrl] changes no pattern, and a URL is ignored
    exactly when some string pattern of [ignoreUrls] occurs in it or some
    regular expression matches somewhere in it.  The empty string among the
    patterns ignores every URL. *)
Theorem matchesUrl_spec (url : string) (patterns : list UrlPattern) :
  forallb flagless_url patterns = true ->
  (matchesUrl url patterns).2 = patterns /\
  ((matchesUrl url patterns).1 = true
   <-> exists pattern, In pattern patterns /\
         match pattern with
         | UrlString text => exists before after, url = (before ++ text ++ after)%string
         | UrlRegExp r => occurs r url
         end) /\
  (matchesUrl url (UrlString "" :: patterns)).1 = true /\
  (forall more,
      forallb flagless_url more = true ->
      (matchesUrl url (patterns ++ more)).1
      = (matchesUrl url patterns).1 || (matchesUrl url more).1).
Proof.
  intros Hflags. rewrite (matchesUrl_flagless url patterns Hflags). cbn [fst snd].
  split; [reflexivity|]. split; [|split].
  - rewrite List.existsb_exists. split.
    + intros ([text|r] & Hin & H); eexists; (split; [exact Hin|]).
      * apply includes_string_spec, H.
      * pose proof (proj1 (forallb_forall _ _) Hflags _ Hin) as Hr.
        apply (test_flagless r url Hr), H.
    + intros ([text|r] & Hin & H); eexists; (split; [exact Hin|]).
      * apply includes_string_spec, H.
      * pose proof (proj1 (forallb_forall _ _) Hflags _ Hin) as Hr.
        apply (test_flagless r url Hr), H.
  - unfold matchesUrl. cbn [some_of].
    assert (includes_string url "" = true) as ->; [|reflexivity].
    apply includes_string_spec. exists "", url. reflexivity.
  - intros more Hmore.
    rewrite (matchesUrl_flagless url more Hmore), matchesUrl_flagless.
    + cbn [fst]. apply List.existsb_app.
    + rewrite forallb_app, Hflags, Hmore. reflexivity.
Qed.

Lemma matchesError_flagless error patterns :
  forallb flagless_error patterns = true ->
  matchesError error patterns
  = (existsb (fun pattern =>
                match pattern with
                | ErrorText text =>
                    includes_string (match error with
                                     | ErrorString text => text
                                     | ErrorObject _ message _ => message
                                     end) text
                | ErrorRegExp r =>
                    (test r (match error with
                             | ErrorString text => text
                             | ErrorObject _ message _ => message
                             end)).1
                | ErrorFunction accepts => accepts error
                | ErrorOther => false
                end) patterns, patterns).
Proof.
  intros Hflags. unfold matchesError. rewrite some_of_pure.
  - f_equal. apply existsb_same. intros [text|r|accepts|]; try reflexivity.
    destruct (test r _); reflexivity.
  - intros [text|r|accepts|] Hin; try reflexivity.
    pose proof (proj1 (forallb_forall _ _) Hflags _ Hin) as Hr. simpl in Hr.
    match goal with |- context [test r ?s] =>
      destruct (test_flagless r s Hr) as [Hsame _]; destruct (test r s) as [found r']
    end.
    simpl in *. congruence.
Qed.

(** X8. With patterns whose regular expressions have neither the [g] nor
    the [y] flag, [matchesError] changes no pattern, and an error is ignored
    exactly when some pattern of [ignoreErrors] matches it.  Strings and
    regular expressions are matched against the message, so they cannot tell
    an [Error] from a string with the same text; a function is given the
    error itself. *)
Theorem matchesError_spec (error : ErrorValue) (patterns : list ErrorPattern) :
  forallb flagless_error patterns = true ->
  let text := match error with
              | ErrorString text => text
              | ErrorObject _ message _ => message
              end in
  (matchesError error patterns).2 = patterns /\
  ((matchesError error patterns).1 = true
   <-> exists pattern, In pattern patterns /\
         match pattern with
         | ErrorText part => exists before after, text = (before ++ part ++ after)%string
         | ErrorRegExp r => occurs r text
         | ErrorFunction accepts => accepts error = true
         | ErrorOther => False
         end) /\
  ((forall accepts, ~ In (ErrorFunction accepts) patterns) ->
   (matchesError error patterns).1 = (matchesError (ErrorString text) patterns).1).
Proof.
  intros Hflags text.
  rewrite (matchesError_flagless error patterns Hflags).
  rewrite (matchesError_flagless (ErrorString text) patterns Hflags).
  cbn [fst snd]. fold text.
  split; [reflexivity|]. split.
  - rewrite List.existsb_exists. split.
    + intros ([part|r|accepts|] & Hin & H); try discriminate;
        eexists; (split; [exact Hin|]); try exact H.
      * apply includes_string_spec, H.
      * pose proof (proj1 (forallb_forall _ _) Hflags _ Hin) as Hr.
        apply (test_flagless r text Hr), H.
    + intros ([part|r|accepts|] & Hin & H); try contradiction;
        eexists; (split; [exact Hin|]); try exact H.
      * apply includes_string_spec, H.
      * pose proof (proj1 (forallb_forall _ _) Hflags _ Hin) as Hr.
        apply (test_flagless r text Hr), H.
  - intros Hnone. clear Hflags.
    induction patterns as [|pattern rest IH]; [reflexivity|].
    simpl. rewrite IH.
    + destruct pattern as [part|r|accepts|]; try reflexivity.
      exfalso. apply (Hnone accepts). left. reflexivity.
    + intros accepts Hin. apply (Hnone accepts). right. exact Hin.
Qed.

End UtilFacts.

(** ** Debounced and throttled calls *)

Module WrapperFacts.
Import Wrappers.

Section Debounce.
Context {A : Type}.
Implicit Types (d : Debounced A) (events : list (WrapperEvent A)).

Lemma debounce_runs_tracks delay events : forall d now last d',
  d_clock d = now -> tracks delay d last ->
  debounce_runs delay events d = Some d' ->
  d_applied d' = d_applied d ++ passed_on (snd <$> last) events /\
  tracks delay d' (waiting_call now last events) /\
  d_clock d' = fold_left (fun now e => match e with Elapsed dt => (now + dt)%Q | _ => now end)
                 events now.
Proof.
  induction events as [|e rest IH]; intros d now last d' Hclock Htracks Hruns.
  - simpl in Hruns. injection Hruns as <-. simpl. rewrite app_nil_r. auto.
  - simpl in Hruns. destruct (debounce_enabled e d) eqn:Hen; [|discriminate].
    destruct e as [args|dt|handle]; simpl.
    + (* a call replaces the waiting one *)
      apply (IH _ now (Some (now, args))) in Hruns; [exact Hruns|exact Hclock|].
      simpl. exists (d_next d). split; [reflexivity|]. rewrite Hclock.
      destruct last as [[called_at args']|]; simpl in Htracks.
      * destruct Htracks as (handle & -> & ->). simpl.
        rewrite Nat.eqb_refl. reflexivity.
      * rewrite Htracks. destruct (timeout d); reflexivity.
    + apply (IH _ (now + dt)%Q last) in Hruns; [exact Hruns|simpl; congruence|].
      destruct last as [[called_at args']|]; exact Htracks.
    + (* the timer of the waiting call fires *)
      destruct last as [[called_at args]|]; simpl in Htracks.
      * destruct Htracks as (h & Htimeout & Htimers).
        simpl in Hen. rewrite Htimers in Hen. simpl in Hen.
        rewrite orb_false_r in Hen. apply andb_true_iff in Hen as [Hh _].
        simpl in Hruns. rewrite Htimers in Hruns. simpl in Hruns. rewrite Hh in Hruns.
        simpl in Hruns.
        apply (IH _ now None) in Hruns; [|exact Hclock|reflexivity].
        simpl in Hruns. rewrite <- app_assoc in Hruns. exact Hruns.
      * simpl in Hen. rewrite Htracks in Hen. discriminate.
Qed.

(** X9. The function made by [debounce] passes on only the last call of a
    burst.  After any events, the one timer pending belongs to the most
    recent call and is due [delay] after it, so it can fire only then; and
    [func] was applied to just those calls that were still the most recent
    when their timer fired. *)
Theorem debounce_passes_last_call
  (delay now : Q) (events : list (WrapperEvent A)) (d : Debounced A) :
  debounce_runs delay events (debounce now) = Some d ->
  d_applied d = passed_on None events /\
  match waiting_call now None events with
  | Some (called_at, args) =>
      (exists handle, d_timers d = [(handle, (called_at + delay)%Q, args)]) /\
      (forall handle, debounce_enabled (Fired handle) d = true ->
                      (called_at + delay <= d_clock d)%Q /\
                      d_applied (debounce_run delay (Fired handle) d)
                      = d_applied d ++ [args])
  | None =>
      d_timers d = [] /\
      forall handle, debounce_enabled (Fired handle) d = false
  end.
Proof.
  intros Hruns.
  destruct (debounce_runs_tracks delay events (debounce now) now None d
              eq_refl eq_refl Hruns) as (Happlied & Htracks & _).
  split; [exact Happlied|].
  destruct (waiting_call now None events) as [[called_at args]|]; simpl in Htracks.
  - destruct Htracks as (h & _ & Htimers). split; [exists h; exact Htimers|].
    intros handle Hen. simpl in Hen. rewrite Htimers in Hen. simpl in Hen.
    rewrite orb_false_r in Hen. apply andb_true_iff in Hen as [Hh Hdue].
    split; [apply Qle_bool_iff, Hdue|].
    simpl. rewrite Htimers. simpl. rewrite Hh. reflexivity.
  - split; [exact Htracks|]. intros handle. simpl. rewrite Htracks. reflexivity.
Qed.

End Debounce.

Section Throttle.
Context {A R : Type}.
Implicit Types (t : Throttled A R) (events : list (WrapperEvent A)).

Lemma throttle_runs_window func limit events : forall t now since t',
  t_clock t = now -> window limit t since ->
  throttle_runs func limit events t = Some t' ->
  t_applied t' = t_applied t ++ let_through (negb (inThrottle t)) events /\
  t_returned t' = t_returned t ++ answers func (negb (inThrottle t)) (lastResult t) events /\
  window limit t' (shut_since now since events).
Proof.
  induction events as [|e rest IH]; intros t now since t' Hclock Hwin Hruns.
  - simpl in Hruns. injection Hruns as <-. simpl. rewrite !app_nil_r. auto.
  - simpl in Hruns. destruct (throttle_enabled e t) eqn:Hen; [|discriminate].
    destruct e as [args|dt|handle]; simpl.
    + destruct since as [applied_at|]; simpl in Hwin.
      * destruct Hwin as (Hshut & handle & Htimers).
        unfold throttle_run, throttled in Hruns. rewrite Hshut in Hruns.
        apply (IH _ now (Some applied_at)) in Hruns;
          [|exact Hclock|simpl; split; [reflexivity|exists handle; exact Htimers]].
        simpl in Hruns. rewrite Hshut. simpl.
        rewrite <- !app_assoc in Hruns. exact Hruns.
      * destruct Hwin as (Hopen & Htimers).
        unfold throttle_run, throttled in Hruns. rewrite Hopen in Hruns.
        apply (IH _ now (Some now)) in Hruns; [|exact Hclock|].
        -- simpl in Hruns. rewrite Hopen. simpl.
           rewrite <- !app_assoc in Hruns. exact Hruns.
        -- simpl. split; [reflexivity|]. exists (t_next t).
           rewrite Htimers, Hclock. reflexivity.
    + apply (IH _ (now + dt)%Q since) in Hruns; [exact Hruns|simpl; congruence|].
      destruct since; exact Hwin.
    + destruct since as [applied_at|]; simpl in Hwin.
      * destruct Hwin as (Hshut & h & Htimers).
        simpl in Hen. rewrite Htimers in Hen. simpl in Hen.
        rewrite orb_false_r in Hen. apply andb_true_iff in Hen as [Hh _].
        simpl in Hruns. rewrite Htimers in Hruns. simpl in Hruns. rewrite Hh in Hruns.
        simpl in Hruns.
        apply (IH _ now None) in Hruns; [|exact Hclock|split; reflexivity].
        simpl in Hruns. exact Hruns.
      * destruct Hwin as (_ & Htimers).
        simpl in Hen. rewrite Htimers in Hen. discriminate.
Qed.

(** X10. The function made by [throttle] lets through the first call and then
    the first call after each firing of its timer; the timer is due [limit]
    after the call let through, so two calls that reach [func] are at least
    [limit] apart.  Every call returns the result of the last call let
    through. *)
Theorem throttle_lets_first_call_through
  (func : A -> R) (limit now : Q) (events : list (WrapperEvent A))
  (t : Throttled A R) :
  throttle_runs func limit events (throttle now) = Some t ->
  t_applied t = let_through true events /\
  t_returned t = answers func true None events /\
  match shut_since now None events with
  | Some applied_at =>
      inThrottle t = true /\
      (exists handle, t_timers t = [(handle, (applied_at + limit)%Q)]) /\
      (forall handle, throttle_enabled (Fired handle) t = true ->
                      (applied_at + limit <= t_clock t)%Q) /\
      (forall args, t_applied (throttled func limit args t) = t_applied t)
  | None =>
      inThrottle t = false /\ t_timers t = [] /\
      forall args, t_applied (throttled func limit args t) = t_applied t ++ [args]
  end.
Proof.
  intros Hruns.
  destruct (throttle_runs_window func limit events (throttle now) now None t
              eq_refl (conj eq_refl eq_refl) Hruns) as (Happlied & Hreturned & Hwin).
  split; [exact Happlied|]. split; [exact Hreturned|].
  destruct (shut_since now None events) as [applied_at|]; simpl in Hwin.
  - destruct Hwin as (Hshut & h & Htimers).
    split; [exact Hshut|]. split; [exists h; exact Htimers|]. split.
    + intros handle Hen. simpl in Hen. rewrite Htimers in Hen. simpl in Hen.
      rewrite orb_false_r in Hen. apply andb_true_iff in Hen as [_ Hdue].
      apply Qle_bool_iff, Hdue.
    + intros args. unfold throttled. rewrite Hshut. reflexivity.
  - destruct Hwin as (Hopen & Htimers). split; [exact Hopen|]. split; [exact Htimers|].
    intros args. unfold throttled. rewrite Hopen. reflexivity.
Qed.

End Throttle.
End WrapperFacts.

(** ** What every state of a running collector satisfies *)

Module DisciplineFacts.
Import Js Conf Store Collector Discipline DeliveryFacts.

Lemma loose_refl st : loose st st.
Proof. unfold loose; auto. Qed.

Lemma loose_trans st1 st2 st3 : loose st1 st2 -> loose st2 st3 -> loose st1 st3.
Proof.
  intros (Hi & Hl & Hw & He) (Hi' & Hl' & Hw' & He'). unfold loose.
  split; [congruence|]. split; [congruence|]. split; auto.
Qed.

Lemma tidy_refl st : tidy st st.
Proof. split; [apply loose_refl|reflexivity]. Qed.

Lemma tidy_trans st1 st2 st3 : tidy st1 st2 -> tidy st2 st3 -> tidy st1 st3.
Proof.
  intros [Hl Hs] [Hl' Hs']. split; [eapply loose_trans; eassumption|congruence].
Qed.

Lemma tidy_loose st st' : tidy st st' -> loose st st'.
Proof. intros [H _]. exact H. Qed.

(** A step that touches neither the timers, nor the handles, nor which
    stores there are. *)
Lemma loose_same st st' :
  present (indexedDBStore st') = present (indexedDBStore st) ->
  present (localStorageStore st') = present (localStorageStore st) ->
  timers st' = timers st -> nextTimer st' = nextTimer st ->
  timer st' = timer st -> circuitResetTimer st' = circuitResetTimer st ->
  rateLimitTimer st' = rateLimitTimer st ->
  loose st st'.
Proof.
  intros Hi Hl Ht Hn Hb Hc Hr. unfold loose, timers_owned, batch_pending, owner.
  rewrite Ht, Hn, Hb, Hc, Hr. auto.
Qed.

Lemma tidy_same st st' :
  present (indexedDBStore st') = present (indexedDBStore st) ->
  present (localStorageStore st') = present (localStorageStore st) ->
  timers st' = timers st -> nextTimer st' = nextTimer st ->
  timer st' = timer st -> circuitResetTimer st' = circuitResetTimer st ->
  rateLimitTimer st' = rateLimitTimer st -> isSending st' = isSending st ->
  tidy st st'.
Proof. intros. split; [apply loose_same; assumption|assumption]. Qed.

Lemma tidy_emit e st : tidy st (emit e st).
Proof. apply tidy_same; reflexivity. Qed.

(** Removing timers keeps the rest in order. *)
Lemma owned_clearTimeout handle st :
  timers_owned st -> timers_owned (clearTimeout handle st).
Proof.
  unfold timers_owned, clearTimeout, owner. fields.
  intros (Hnd & Hlt & Hb & Hd & Hown). repeat split; try tauto.
  - clear -Hnd. induction (timers st) as [|t rest IH]; [constructor|].
    inversion Hnd as [|? ? Hnot Hrest]; subst. simpl.
    destruct (negb (tid t =? handle)%nat); [|apply IH, Hrest].
    simpl. constructor; [|apply IH, Hrest].
    intros Hin. apply Hnot. apply List.in_map_iff in Hin as (t' & Heq & Hin).
    apply List.filter_In in Hin as [Hin _]. apply List.in_map_iff. eauto.
  - apply List.Forall_forall. intros t Hin. apply List.filter_In in Hin as [Hin _].
    exact (proj1 (List.Forall_forall _ _) Hlt t Hin).
  - apply List.Forall_forall. intros t Hin. apply List.filter_In in Hin as [Hin _].
    exact (proj1 (List.Forall_forall _ _) Hown t Hin).
Qed.

(** Clearing a handle that is not the batch timer's leaves that timer. *)
Lemma batch_clearTimeout handle st :
  timer st <> Some handle ->
  timers_owned st -> batch_pending st -> batch_pending (clearTimeout handle st).
Proof.
  intros Hne (_ & _ & _ & _ & Hown) (t & Hin & Hact).
  exists t. split; [|exact Hact]. unfold clearTimeout. fields.
  apply List.filter_In. split; [exact Hin|].
  pose proof (proj1 (List.Forall_forall _ _) Hown t Hin) as Ho.
  unfold owner in Ho. rewrite Hact in Ho.
  destruct (Nat.eqb_spec (tid t) handle) as [<-|]; [congruence|reflexivity].
Qed.

(** After [clearTimeout] of the handle held for a callback, no timer with
    that callback is pending. *)
Lemma none_left_after_clear (field : State -> option nat) (act : TimerAction) st :
  (forall t, In t (timers st) -> action t = act -> field st = Some (tid t)) ->
  forall t, In t (timers (match field st with
                          | Some handle => clearTimeout handle st
                          | None => st
                          end)) -> action t <> act.
Proof.
  intros Hfield t Hin Hact.
  destruct (field st) as [h|] eqn:Hh.
  - unfold clearTimeout in Hin. fields. apply List.filter_In in Hin as [Hin Hne].
    specialize (Hfield t Hin Hact). injection Hfield as ->.
    rewrite Nat.eqb_refl in Hne. discriminate.
  - specialize (Hfield t Hin Hact). discriminate.
Qed.

Lemma owner_field st t act :
  timers_owned st -> In t (timers st) -> action t = act ->
  match act with
  | BatchTick => timer st = Some (tid t)
  | CircuitReset => circuitResetTimer st = Some (tid t)
  | RateJanitor => rateLimitTimer st = Some (tid t)
  | RetryFlush _ => True
  end.
Proof.
  intros (_ & _ & _ & _ & Hown) Hin <-.
  exact (proj1 (List.Forall_forall _ _) Hown t Hin).
Qed.


(** Arming a timer with a fresh handle, held in the field for its callback
    when no timer with that callback is pending. *)
Lemma owned_arm st st' due act :
  timers_owned st ->
  timers st' = timers st ++ [mkTimer (nextTimer st) due act] ->
  nextTimer st' = S (nextTimer st) ->
  (forall t, In t (timers st) -> action t = act ->
             match act with RetryFlush _ => True | _ => False end) ->
  timer st' = match act with BatchTick => Some (nextTimer st) | _ => timer st end ->
  circuitResetTimer st'
  = match act with CircuitReset => Some (nextTimer st) | _ => circuitResetTimer st end ->
  rateLimitTimer st'
  = match act with RateJanitor => Some (nextTimer st) | _ => rateLimitTimer st end ->
  timers_owned st'.
Proof.
  intros (Hnd & Hlt & (Hb1 & Hb2 & Hb3) & (Hd1 & Hd2 & Hd3) & Hown) Ht Hn Hnone Hb Hc Hr.
  unfold timers_owned. rewrite Ht, Hn, Hb, Hc, Hr.
  rewrite List.Forall_forall in Hlt, Hown.
  assert (Hfresh : ~ In (nextTimer st) (List.map tid (timers st))).
  { intros Hin. apply List.in_map_iff in Hin as (t & Heq & Hin).
    specialize (Hlt t Hin). lia. }
  split; [|split; [|split; [|split]]].
  - rewrite List.map_app. simpl.
    apply List.NoDup_app; [exact Hnd|constructor; [intros []|constructor]|].
    intros h Hin [<-|[]]. exact (Hfresh Hin).
  - apply List.Forall_app. split; [|constructor; [simpl; lia|constructor]].
    apply List.Forall_forall. intros t Hin. specialize (Hlt t Hin). lia.
  - unfold handle_below in *.
    destruct act, (timer st), (circuitResetTimer st), (rateLimitTimer st);
      repeat split; lia.
  - unfold distinct_handles, handle_below in *.
    destruct act, (timer st), (circuitResetTimer st), (rateLimitTimer st);
      repeat split; lia.
  - apply List.Forall_app. split.
    + apply List.Forall_forall. intros t Hin. specialize (Hown t Hin).
      specialize (Hnone t Hin). unfold owner in *. rewrite Hb, Hc, Hr.
      destruct (action t) eqn:Hact, act; try exact Hown; try exact I;
        exfalso; apply Hnone; reflexivity.
    + constructor; [|constructor]. unfold owner. rewrite Hb, Hc, Hr. simpl.
      destruct act; auto.
Qed.

Lemma batch_arm st st' due act :
  timers st' = timers st ++ [mkTimer (nextTimer st) due act] ->
  batch_pending st \/ act = BatchTick -> batch_pending st'.
Proof.
  intros Ht [(t & Hin & Hact)| ->]; unfold batch_pending; rewrite Ht.
  - exists t. split; [apply in_or_app; left; exact Hin|exact Hact].
  - eexists. split; [apply in_or_app; right; left; reflexivity|reflexivity].
Qed.

Lemma tidy_clearTimeout handle st :
  timer st <> Some handle -> tidy st (clearTimeout handle st).
Proof.
  intros Hne. split; [|reflexivity]. split; [reflexivity|]. split; [reflexivity|].
  split; [apply owned_clearTimeout|apply batch_clearTimeout, Hne].
Qed.

Lemma tidy_setTimeout_retry retries delay st :
  tidy st (setTimeout (RetryFlush retries) delay st).
Proof.
  split; [|reflexivity]. split; [reflexivity|]. split; [reflexivity|]. split.
  - intros Hw. eapply (owned_arm st _ _ (RetryFlush retries) Hw);
      first [reflexivity|intros; exact I].
  - intros _ He. eapply batch_arm; [reflexivity|left; exact He].
Qed.

Lemma tidy_startBatchTimer st : tidy st (startBatchTimer st).
Proof.
  split; [|unfold startBatchTimer; destruct (timer st); reflexivity].
  split; [unfold startBatchTimer; destruct (timer st); reflexivity|].
  split; [unfold startBatchTimer; destruct (timer st); reflexivity|].
  split.
  - intros Hw. unfold startBatchTimer.
    set (st1 := match timer st with Some _ => _ | None => _ end).
    assert (Hw1 : timers_owned st1)
      by (subst st1; destruct (timer st); [apply owned_clearTimeout|]; exact Hw).
    assert (Hnone : forall t, In t (timers st1) -> action t <> BatchTick).
    { apply (none_left_after_clear timer BatchTick st).
      intros t Hin Hact. apply (owner_field st t BatchTick Hw Hin Hact). }
    assert (Hc : circuitResetTimer st1 = circuitResetTimer st)
      by (subst st1; destruct (timer st); reflexivity).
    assert (Hr : rateLimitTimer st1 = rateLimitTimer st)
      by (subst st1; destruct (timer st); reflexivity).
    eapply (owned_arm st1 _ _ BatchTick Hw1); try reflexivity.
    intros t Hin Hact. exact (Hnone t Hin Hact).
  - intros _ _. unfold startBatchTimer.
    set (st1 := match timer st with Some _ => _ | None => _ end).
    eapply (batch_arm st1); [reflexivity|right; reflexivity].
Qed.

Lemma tidy_openCircuit st : tidy st (openCircuit st).
Proof.
  split; [|unfold openCircuit; fields; destruct (circuitResetTimer st); reflexivity].
  split; [unfold openCircuit; fields; destruct (circuitResetTimer st); reflexivity|].
  split; [unfold openCircuit; fields; destruct (circuitResetTimer st); reflexivity|].
  unfold openCircuit.
  set (st0 := set_circuitOpen true st).
  set (st1 := match circuitResetTimer st0 with Some _ => _ | None => _ end).
  assert (Hl0 : loose st st0) by (apply loose_same; reflexivity).
  assert (Hl1 : loose st0 st1).
  { subst st1. destruct (circuitResetTimer st0) as [h|] eqn:Hh; [|apply loose_refl].
    split; [reflexivity|]. split; [reflexivity|].
    split; [apply owned_clearTimeout|].
    intros Hw. apply batch_clearTimeout; [|exact Hw].
    destruct Hw as (_ & _ & _ & (Hd & _ & _) & _). rewrite Hh in Hd.
    unfold distinct_handles in Hd. destruct (timer st0); [congruence|discriminate]. }
  split.
  - intros Hw.
    assert (Hw0 : timers_owned st0) by (apply Hl0, Hw).
    assert (Hw1 : timers_owned st1) by (apply Hl1, Hw0).
    assert (Hnone : forall t, In t (timers st1) -> action t <> CircuitReset).
    { apply (none_left_after_clear circuitResetTimer CircuitReset st0).
      intros t Hin Hact. apply (owner_field st0 t CircuitReset Hw0 Hin Hact). }
    assert (Hb : timer st1 = timer st)
      by (subst st1; destruct (circuitResetTimer st0); reflexivity).
    assert (Hr : rateLimitTimer st1 = rateLimitTimer st)
      by (subst st1; destruct (circuitResetTimer st0); reflexivity).
    eapply (owned_arm st1 _ _ CircuitReset Hw1); try reflexivity.
    intros t Hin Hact. exact (Hnone t Hin Hact).
  - intros Hw He.
    assert (Hw0 : timers_owned st0) by (apply Hl0, Hw).
    assert (He1 : batch_pending st1).
    { apply Hl1; [exact Hw0|]. apply Hl0; assumption. }
    eapply (batch_arm st1); [reflexivity|left; exact He1].
Qed.

Lemma owned_forget_reset st :
  timers_owned st -> (forall t, In t (timers st) -> action t <> CircuitReset) ->
  timers_owned (set_circuitResetTimer None st).
Proof.
  intros (Hnd & Hlt & (Hb1 & Hb2 & Hb3) & (Hd1 & Hd2 & Hd3) & Hown) Hnone.
  unfold timers_owned. fields.
  split; [exact Hnd|]. split; [exact Hlt|].
  split; [repeat split; assumption|].
  split; [unfold distinct_handles in *; destruct (timer st), (rateLimitTimer st); auto|].
  apply List.Forall_forall. intros t Hin.
  pose proof (proj1 (List.Forall_forall _ _) Hown t Hin) as Ho.
  specialize (Hnone t Hin). unfold owner in *. cbn [timer circuitResetTimer rateLimitTimer].
  destruct (action t); try exact Ho; try exact I. contradiction.
Qed.

Lemma owned_forget_janitor st :
  timers_owned st -> (forall t, In t (timers st) -> action t <> RateJanitor) ->
  timers_owned (set_rateLimitTimer None st).
Proof.
  intros (Hnd & Hlt & (Hb1 & Hb2 & Hb3) & (Hd1 & Hd2 & Hd3) & Hown) Hnone.
  unfold timers_owned. fields.
  split; [exact Hnd|]. split; [exact Hlt|].
  split; [repeat split; assumption|].
  split; [unfold distinct_handles in *;
          destruct (timer st), (circuitResetTimer st); auto|].
  apply List.Forall_forall. intros t Hin.
  pose proof (proj1 (List.Forall_forall _ _) Hown t Hin) as Ho.
  specialize (Hnone t Hin). unfold owner in *. cbn [timer circuitResetTimer rateLimitTimer].
  destruct (action t); try exact Ho; try exact I. contradiction.
Qed.

Lemma tidy_closeCircuit st : tidy st (closeCircuit st).
Proof.
  split; [|unfold closeCircuit; fields; destruct (circuitResetTimer st); reflexivity].
  split; [unfold closeCircuit; fields; destruct (circuitResetTimer st); reflexivity|].
  split; [unfold closeCircuit; fields; destruct (circuitResetTimer st); reflexivity|].
  unfold closeCircuit.
  set (st0 := set_consecutiveFailures 0 (set_circuitOpen false st)).
  assert (Hl0 : loose st st0) by (apply loose_same; reflexivity).
  destruct (circuitResetTimer st0) as [h|] eqn:Hh; [|split; apply Hl0].
  split.
  - intros Hw. assert (Hw0 : timers_owned st0) by (apply Hl0, Hw).
    apply owned_forget_reset; [apply owned_clearTimeout, Hw0|].
    pose proof (none_left_after_clear circuitResetTimer CircuitReset st0) as Hn.
    rewrite Hh in Hn. apply Hn.
    intros t Hin Hact. rewrite <- Hh.
    apply (owner_field st0 t CircuitReset Hw0 Hin Hact).
  - intros Hw He. assert (Hw0 : timers_owned st0) by (apply Hl0, Hw).
    assert (He0 : batch_pending st0) by (apply Hl0; assumption).
    assert (Hne : timer st0 <> Some h).
    { destruct Hw0 as (_ & _ & _ & (Hd & _ & _) & _). rewrite Hh in Hd.
      unfold distinct_handles in Hd. destruct (timer st0); [congruence|discriminate]. }
    destruct (batch_clearTimeout h st0 Hne Hw0 He0) as (t & Hin & Hact).
    exists t. split; [exact Hin|exact Hact].
Qed.


(** Close a goal about a step that only updates other fields. *)
Ltac unchanged :=
  first [ reflexivity
        | unfold emit, set_config, set_logQueue, set_breadcrumbs, set_timer,
            set_isSending, set_circuitOpen, set_consecutiveFailures,
            set_circuitResetTimer, set_logCounts, set_currentMinute,
            set_rateLimitTimer, set_localStorageStore, set_indexedDBStore,
            set_clock, set_timers, set_nextTimer, set_effects;
          cbn [localStorageStore indexedDBStore];
          repeat match goal with
                 | H : indexedDBStore _ = _ |- _ => rewrite H
                 | H : localStorageStore _ = _ |- _ => rewrite H
                 end; reflexivity ].

Ltac by_tidy_same := apply tidy_same; unchanged.
Ltac by_loose_same := apply loose_same; unchanged.

Lemma tidy_processQueue st : tidy st (processQueue st).
Proof.
  unfold processQueue. destruct (_ <=? _)%Z; [apply tidy_emit|apply tidy_refl].
Qed.

Lemma loose_finishFlush batch st :
  loose st (finishFlush batch st) /\ isSending (finishFlush batch st) = false.
Proof.
  unfold finishFlush. split.
  - apply loose_trans with (set_isSending false st); [by_loose_same|].
    repeat split_match; first [apply tidy_loose, tidy_processQueue|apply loose_refl].
  - unfold processQueue. repeat split_match; reflexivity.
Qed.

Lemma tidy_selectBatch env st : tidy st (selectBatch env st).1.1.
Proof. unfold selectBatch. repeat split_match; simpl; by_tidy_same. Qed.

Lemma tidy_rateJanitor today st : tidy st (rateJanitor today st).
Proof. by_tidy_same. Qed.

Lemma tidy_rateLimit today st : tidy st (rateLimit today st).1.
Proof. unfold rateLimit. repeat split_match; simpl; by_tidy_same. Qed.

Lemma tidy_saveLogsToLocalStorage env uuids st :
  tidy st (saveLogsToLocalStorage env uuids st).
Proof.
  unfold saveLogsToLocalStorage.
  repeat split_match; try apply tidy_refl; by_tidy_same.
Qed.

Lemma tidy_loadLogsFromLocalStorage st : tidy st (loadLogsFromLocalStorage st).
Proof.
  unfold loadLogsFromLocalStorage.
  repeat split_match; try apply tidy_refl; by_tidy_same.
Qed.

Lemma tidy_loadLogsFromPersistence env st :
  tidy st (loadLogsFromPersistence env st).
Proof.
  unfold loadLogsFromPersistence.
  repeat split_match; try apply tidy_refl; try by_tidy_same.
  all: eapply tidy_trans; [|apply tidy_loadLogsFromLocalStorage]; by_tidy_same.
Qed.

Lemma tidy_enqueue env logEntry st : tidy st (enqueue env logEntry st).
Proof.
  unfold enqueue.
  eapply tidy_trans; [|apply tidy_processQueue].
  set (st1 := set_logQueue _ st).
  assert (H1 : tidy st st1) by by_tidy_same.
  assert (Hsaved : forall x, tidy st x ->
            tidy st match localStorageStore x with
                    | Some _ => saveLogsToLocalStorage (storageEnv env) (uuid env) x
                    | None => x
                    end).
  { intros x Hx. destruct (localStorageStore x); [|exact Hx].
    eapply tidy_trans; [exact Hx|apply tidy_saveLogsToLocalStorage]. }
  destruct (indexedDBStore st1) as [store|] eqn:Hstore; [|apply Hsaved, H1].
  destruct (addLogs _ _ _ _ _) as [store' ok].
  set (st3 := set_indexedDBStore (Some store') (set_logQueue [] st1)).
  assert (H3 : tidy st st3).
  { eapply tidy_trans; [exact H1|]. apply tidy_same; try reflexivity.
    change (present (Some store') = present (indexedDBStore st1)).
    rewrite Hstore. reflexivity. }
  destruct ok; [exact H3|].
  apply Hsaved. eapply tidy_trans; [exact H3|by_tidy_same].
Qed.

Lemma tidy_captureLog env level message ctx st :
  tidy st (captureLog env level message ctx st).
Proof.
  unfold captureLog.
  destruct (_ <? _)%Z; [apply tidy_refl|].
  destruct (negb _); [apply tidy_refl|].
  pose proof (tidy_rateLimit (today env) st) as Hq.
  destruct (rateLimit (today env) st) as [st1 pass]; simpl in Hq.
  destruct (negb pass); [exact Hq|].
  repeat split_match; try exact Hq.
  eapply tidy_trans; [exact Hq|apply tidy_enqueue].
Qed.

Lemma tidy_addBreadcrumb ts ty msg dat st :
  tidy st (addBreadcrumb ts ty msg dat st).
Proof.
  unfold addBreadcrumb.
  repeat split_match; try apply tidy_refl; by_tidy_same.
Qed.

(** [initRateLimiter] arms the janitor; the collector holds no other. *)
Lemma tidy_initRateLimiter today st :
  rateLimitTimer st = None -> tidy st (initRateLimiter today st).
Proof.
  intros Hnone. unfold initRateLimiter.
  set (st2 := set_logCounts _ (set_currentMinute _ st)).
  assert (H2 : tidy st st2) by by_tidy_same.
  apply tidy_trans with st2; [exact H2|].
  split; [|reflexivity]. split; [reflexivity|]. split; [reflexivity|]. split.
  - intros Hw. eapply (owned_arm st2 _ _ RateJanitor Hw); try reflexivity.
    intros t Hin Hact.
    pose proof (owner_field st2 t RateJanitor Hw Hin Hact) as Ho. simpl in Ho.
    change (rateLimitTimer st2) with (rateLimitTimer st) in Ho. congruence.
  - intros _ He. eapply (batch_arm st2); [reflexivity|left; exact He].
Qed.

Lemma tidy_updateConfig today newConfig st :
  tidy st (updateConfig today newConfig st).
Proof.
  unfold updateConfig.
  set (st2 := emit _ (set_config _ st)).
  assert (H2 : tidy st st2) by by_tidy_same.
  set (st3 := match Partial.batchInterval newConfig, Partial.batchSize newConfig with
              | None, None => st2 | _, _ => startBatchTimer st2 end).
  assert (H3 : tidy st st3).
  { subst st3. destruct (Partial.batchInterval newConfig), (Partial.batchSize newConfig);
      try exact H2; (eapply tidy_trans; [exact H2|apply tidy_startBatchTimer]). }
  clearbody st3.
  destruct (Partial.maxLogsPerMinute newConfig); [|exact H3].
  destruct (_ =? _)%Z; [exact H3|].
  set (st4 := match rateLimitTimer st3 with Some _ => _ | None => _ end).
  assert (H4 : tidy st3 st4 /\ rateLimitTimer st4 = None).
  { subst st4. destruct (rateLimitTimer st3) as [h|] eqn:Hh;
      [|split; [apply tidy_refl|exact Hh]].
    split; [|reflexivity].
    split; [|reflexivity]. split; [reflexivity|]. split; [reflexivity|]. split.
    - intros Hw. apply owned_forget_janitor; [apply owned_clearTimeout, Hw|].
      pose proof (none_left_after_clear rateLimitTimer RateJanitor st3) as Hn.
      rewrite Hh in Hn. apply Hn.
      intros t Hin Hact. rewrite <- Hh.
      apply (owner_field st3 t RateJanitor Hw Hin Hact).
    - intros Hw He.
      assert (Hne : timer st3 <> Some h).
      { destruct Hw as (_ & _ & _ & (_ & Hd & _) & _). rewrite Hh in Hd.
        unfold distinct_handles in Hd. destruct (timer st3); [congruence|discriminate]. }
      destruct (batch_clearTimeout h st3 Hne Hw He) as (t & Hin & Hact).
      exists t. split; [exact Hin|exact Hact]. }
  destruct H4 as [H4 Hnone]. clearbody st4.
  destruct (_ <? _)%Z; [|eapply tidy_trans; eassumption].
  eapply tidy_trans; [exact H3|].
  eapply tidy_trans; [exact H4|apply tidy_initRateLimiter, Hnone].
Qed.

Lemma tidy_set_indexedDBStore store' st :
  indexedDBStore st <> None -> tidy st (set_indexedDBStore (Some store') st).
Proof.
  intros Hsome. apply tidy_same; try reflexivity.
  simpl. destruct (indexedDBStore st); [reflexivity|congruence].
Qed.

Lemma tidy_set_localStorageStore slots st :
  localStorageStore st <> None -> tidy st (set_localStorageStore (Some slots) st).
Proof.
  intros Hsome. apply tidy_same; try reflexivity.
  simpl. destruct (localStorageStore st); [reflexivity|congruence].
Qed.

Lemma tidy_handleSendSuccess env logsSent ids st :
  tidy st (handleSendSuccess env logsSent ids st).
Proof.
  unfold handleSendSuccess.
  set (st2 := emit _ (closeCircuit (set_consecutiveFailures 0 st))).
  assert (H2 : tidy st st2).
  { apply tidy_trans with (set_consecutiveFailures 0 st); [by_tidy_same|].
    eapply tidy_trans; [apply tidy_closeCircuit|apply tidy_emit]. }
  clearbody st2.
  destruct (indexedDBStore st2) as [store|] eqn:Hstore.
  - destruct (0 <? _)%nat; [|exact H2].
    destruct (deleteLogs _ _ _) as [store' [[]|]].
    + eapply tidy_trans; [exact H2|apply tidy_set_indexedDBStore; congruence].
    + eapply tidy_trans; [exact H2|].
      eapply tidy_trans; [apply tidy_set_indexedDBStore; congruence|apply tidy_emit].
  - destruct (localStorageStore st2) as [slots|] eqn:Hslots; [|exact H2].
    eapply tidy_trans; [exact H2|apply tidy_set_localStorageStore; congruence].
Qed.

Lemma tidy_handleSendFailure random logsFailed retries error ids st :
  tidy st (handleSendFailure random logsFailed retries error ids st).
Proof.
  unfold handleSendFailure.
  set (st2 := emit _ (set_consecutiveFailures _ st)).
  assert (H2 : tidy st st2) by by_tidy_same.
  clearbody st2.
  destruct (_ <=? _)%Z.
  - eapply tidy_trans; [exact H2|].
    eapply tidy_trans; [apply tidy_openCircuit|apply tidy_emit].
  - destruct (_ <? _)%Z.
    + eapply tidy_trans; [exact H2|].
      eapply tidy_trans; [apply tidy_emit|apply tidy_setTimeout_retry].
    + eapply tidy_trans; [exact H2|apply tidy_emit].
Qed.

Lemma tidy_transmit env logsToSend retries isUnload ids st :
  tidy st (transmit env logsToSend retries isUnload ids st).
Proof.
  unfold transmit.
  repeat split_match;
    repeat first
      [ apply tidy_refl
      | apply tidy_emit
      | eapply tidy_trans; [|apply tidy_handleSendSuccess]
      | eapply tidy_trans; [|apply tidy_handleSendFailure]
      | eapply tidy_trans; [|apply tidy_emit] ].
Qed.

(** [flushQueue] leaves [isSending] as it found it: it returns at once when
    the flag is set, and clears it on every path when it was not. *)
Lemma tidy_flushQueue env retries isUnload st :
  tidy st (flushQueue env retries isUnload st).
Proof.
  unfold flushQueue.
  destruct (isSending st) eqn:Hsending; [apply tidy_refl|]. simpl.
  destruct (_ || _); [apply tidy_refl|].
  pose proof (tidy_selectBatch env (set_isSending true st)) as Hq.
  destruct (selectBatch env (set_isSending true st)) as [[st1 batch] ids].
  simpl in Hq.
  assert (H1 : loose st st1).
  { apply loose_trans with (set_isSending true st); [by_loose_same|apply tidy_loose, Hq]. }
  destruct (_ =? _)%nat.
  - split; [|rewrite Hsending; reflexivity].
    eapply loose_trans; [exact H1|by_loose_same].
  - destruct (loose_finishFlush batch (transmit env batch retries isUnload ids st1))
      as [Hl Hs].
    split; [|rewrite Hs, Hsending; reflexivity].
    eapply loose_trans; [exact H1|].
    eapply loose_trans; [apply tidy_loose, tidy_transmit|exact Hl].
Qed.


Lemma batch_startBatchTimer st : batch_pending (startBatchTimer st).
Proof.
  unfold startBatchTimer.
  set (st1 := match timer st with Some _ => _ | None => _ end).
  eapply (batch_arm st1); [reflexivity|right; reflexivity].
Qed.

(** Two pending timers with one handle are one timer. *)
Lemma same_handle st t t' :
  timers_owned st -> In t (timers st) -> In t' (timers st) -> tid t = tid t' -> t = t'.
Proof.
  intros (Hnd & _) Hin Hin' Heq. revert Hnd Hin Hin'.
  induction (timers st) as [|x rest IH]; [contradiction|].
  simpl. intros Hnd [->|Hin] [->|Hin']; inversion Hnd as [|? ? Hnot Hrest]; subst.
  - reflexivity.
  - exfalso. apply Hnot. rewrite Heq. apply List.in_map, Hin'.
  - exfalso. apply Hnot. rewrite <- Heq. apply List.in_map, Hin.
  - apply IH; assumption.
Qed.

(** Taking a pending timer that is not the batch timer off the list. *)
Lemma tidy_take t st :
  In t (timers st) -> action t <> BatchTick -> tidy st (clearTimeout (tid t) st).
Proof.
  intros Hin Hact. split; [|reflexivity]. split; [reflexivity|]. split; [reflexivity|].
  split; [apply owned_clearTimeout|].
  intros Hw (b & Hinb & Hactb). exists b. split; [|exact Hactb].
  unfold clearTimeout. fields. apply List.filter_In. split; [exact Hinb|].
  destruct (Nat.eqb_spec (tid b) (tid t)) as [Heq|]; [|reflexivity].
  exfalso. apply Hact. rewrite <- (same_handle st b t Hw Hinb Hin Heq). exact Hactb.
Qed.

(** The janitor's interval is armed again under its own handle. *)
Lemma tidy_rearm t st :
  In t (timers st) -> action t = RateJanitor ->
  tidy st (set_timers (timers (clearTimeout (tid t) st)
                       ++ [mkTimer (tid t) (due t + 60000) RateJanitor])
             (clearTimeout (tid t) st)).
Proof.
  intros Hin Hact.
  assert (Htake : tidy st (clearTimeout (tid t) st))
    by (apply tidy_take; [exact Hin|congruence]).
  split; [|reflexivity]. split; [reflexivity|]. split; [reflexivity|]. split.
  - intros Hw.
    pose proof (owner_field st t RateJanitor Hw Hin Hact) as Hheld. simpl in Hheld.
    destruct Hw as (Hnd & Hlt & Hb & Hd & Hown).
    pose proof (owned_clearTimeout (tid t) st (conj Hnd (conj Hlt (conj Hb (conj Hd Hown)))))
      as (Hnd1 & Hlt1 & _ & _ & Hown1).
    unfold timers_owned. fields.
    split; [|split; [|split; [exact Hb|split; [exact Hd|]]]].
    + rewrite List.map_app. simpl.
      apply List.NoDup_app; [exact Hnd1|constructor; [intros []|constructor]|].
      intros h Hinh [<-|[]]. apply List.in_map_iff in Hinh as (t' & Heq & Hin').
      unfold clearTimeout in Hin'. fields. apply List.filter_In in Hin' as [_ Hne].
      rewrite Heq, Nat.eqb_refl in Hne. discriminate.
    + apply List.Forall_app. split; [exact Hlt1|].
      constructor; [|constructor]. simpl.
      exact (proj1 (List.Forall_forall _ _) Hlt t Hin).
    + apply List.Forall_app. split; [exact Hown1|].
      constructor; [|constructor]. unfold owner. simpl. exact Hheld.
  - intros Hw He. destruct Htake as [(_ & _ & _ & Hbatch) _].
    destruct (Hbatch Hw He) as (b & Hinb & Hactb).
    exists b. split; [|exact Hactb]. fields. apply in_or_app. left. exact Hinb.
Qed.

Lemma tidy_fire t env today st :
  In t (timers st) -> tidy st (fire t env today st).
Proof.
  intros Hin. unfold fire. destruct (action t) eqn:Hact.
  - (* the batch tick arms its successor *)
    pose proof (tidy_flushQueue env 0 false (clearTimeout (tid t) st)) as [Hf Hfs].
    pose proof (tidy_startBatchTimer (flushQueue env 0 false (clearTimeout (tid t) st)))
      as [Hb Hbs].
    destruct Hf as (Hf1 & Hf2 & Hf3 & _). destruct Hb as (Hb1 & Hb2 & Hb3 & _).
    split; [|rewrite Hbs, Hfs; reflexivity].
    split; [rewrite Hb1, Hf1; reflexivity|].
    split; [rewrite Hb2, Hf2; reflexivity|].
    split; [intros Hw; apply Hb3, Hf3, owned_clearTimeout, Hw|].
    intros _ _. apply batch_startBatchTimer.
  - eapply tidy_trans; [apply tidy_take; [exact Hin|congruence]|apply tidy_flushQueue].
  - eapply tidy_trans; [apply tidy_take; [exact Hin|congruence]|].
    eapply tidy_trans; [|apply tidy_flushQueue]. unfold circuitReset. by_tidy_same.
  - eapply tidy_trans; [apply (tidy_rearm t st Hin Hact)|apply tidy_rateJanitor].
Qed.

Lemma unloadHandler_tidy_shape env st :
  exists st2, tidy st st2 /\
    (unloadHandler env st = st2 \/
     unloadHandler env st = flushQueue (unloadFlush env) 0 true st2).
Proof.
  unfold unloadHandler.
  set (st1 := match indexedDBStore st with Some _ => _ | None => st end).
  assert (H1 : tidy st st1).
  { subst st1. destruct (indexedDBStore st) as [store|] eqn:Hstore; [|apply tidy_refl].
    destruct (0 <? _)%nat; [|apply tidy_refl].
    destruct (addLogs _ _ _ _ _) as [store' ok].
    assert (H : tidy st (set_logQueue [] (set_indexedDBStore (Some store') st))).
    { eapply tidy_trans; [apply tidy_set_indexedDBStore; congruence|by_tidy_same]. }
    destruct ok; [exact H|]. eapply tidy_trans; [exact H|apply tidy_emit]. }
  clearbody st1.
  destruct (indexedDBStore st1) as [store|] eqn:Hstore;
    [|exists st1; split; [exact H1|right; reflexivity]].
  destruct (isSending st1); [exists st1; split; [exact H1|right; reflexivity]|].
  destruct (getAllLogs (unloadRead env) store) as [store' read].
  set (st2 := set_indexedDBStore (Some store') st1).
  assert (H2 : tidy st st2).
  { eapply tidy_trans; [exact H1|apply tidy_set_indexedDBStore; congruence]. }
  assert (Hsome : forall x, tidy st2 x -> indexedDBStore x <> None).
  { intros x [(Hi & _) _] Hnone. rewrite Hnone in Hi. discriminate. }
  repeat split_match;
    lazymatch goal with
    | |- exists x, _ /\ (flushQueue ?e ?r ?u ?y = x \/ _) =>
        exists y; split; [|right; reflexivity]
    | |- exists x, _ /\ (?y = x \/ _) =>
        exists y; split; [|left; reflexivity]
    end;
    (eapply tidy_trans; [exact H2|]);
    repeat first
      [ apply tidy_refl
      | apply tidy_emit
      | eapply tidy_trans; [|apply tidy_emit]
      | apply tidy_set_indexedDBStore, Hsome
      | eapply tidy_trans; [|apply tidy_set_indexedDBStore, Hsome] ].
Qed.

Lemma tidy_unloadHandler env st : tidy st (unloadHandler env st).
Proof.
  destruct (unloadHandler_tidy_shape env st) as (st2 & Hq & [->| ->]).
  - exact Hq.
  - eapply tidy_trans; [exact Hq|apply tidy_flushQueue].
Qed.

Lemma run_tidy e st : enabled e st -> tidy st (run e st).
Proof.
  intros Hen. destruct e; simpl in *.
  - by_tidy_same.
  - apply tidy_fire, Hen.
  - apply tidy_flushQueue.
  - apply tidy_captureLog.
  - apply tidy_addBreadcrumb.
  - apply tidy_updateConfig.
  - apply tidy_unloadHandler.
Qed.

Lemma tidy_orderly st st' : tidy st st' -> orderly st -> orderly st'.
Proof.
  intros [(Hi & Hl & Hw & He) Hs] (Hw0 & He0 & Hs0 & Hp0).
  split; [apply Hw, Hw0|]. split; [apply He; assumption|]. split; [congruence|].
  rewrite Hi, Hl. exact Hp0.
Qed.

Lemma construct_orderly given boot : orderly (construct given boot).
Proof.
  unfold construct.
  set (st0 := blank _).
  set (st1 := if String.eqb _ _ then _ else st0).
  assert (H1 : tidy st0 st1)
    by (subst st1; destruct (String.eqb _ _); [apply tidy_emit|apply tidy_refl]).
  assert (Hw0 : timers_owned st0).
  { unfold timers_owned. simpl. repeat split; constructor. }
  assert (Hnone0 : rateLimitTimer st0 = None) by reflexivity.
  assert (Hs1 : isSending st1 = false)
    by (subst st1; destruct (String.eqb _ _); reflexivity).
  assert (Hr1 : rateLimitTimer st1 = None)
    by (subst st1; destruct (String.eqb _ _); reflexivity).
  assert (Hp1 : present (indexedDBStore st1) = false /\ present (localStorageStore st1) = false)
    by (subst st1; destruct (String.eqb _ _); split; reflexivity).
  assert (Hw1 : timers_owned st1) by (apply H1, Hw0).
  clearbody st1. clear H1.
  set (st2 := match enableIndexedDB (config st1), indexedDB boot with
              | true, Some _ => _ | _, _ => _ end).
  assert (H2 : timers_owned st2 /\ isSending st2 = false /\ rateLimitTimer st2 = None /\
               present (indexedDBStore st2) && present (localStorageStore st2) = false).
  { destruct Hp1 as [Hpi Hpl]. subst st2.
    destruct (enableIndexedDB (config st1)), (indexedDB boot) as [persisted|].
    - set (st' := set_indexedDBStore _ st1).
      destruct (tidy_loadLogsFromPersistence (bootIdb boot) st') as [(Hi & Hl & Hw & _) Hs].
      split; [apply Hw, Hw1|]. split; [rewrite Hs; exact Hs1|]. split.
      + unfold loadLogsFromPersistence, loadLogsFromLocalStorage.
        repeat split_match; exact Hr1.
      + rewrite Hl. change (localStorageStore st') with (localStorageStore st1).
        rewrite Hpl. apply andb_false_r.
    - destruct (enableLocalStorage (config st1)), (localStorage boot) as [slots|];
        try (split; [exact Hw1|split; [exact Hs1|split; [exact Hr1|rewrite Hpi; reflexivity]]]).
      set (st' := set_localStorageStore _ st1).
      destruct (tidy_loadLogsFromLocalStorage st') as [(Hi & Hl & Hw & _) Hs].
      split; [apply Hw, Hw1|]. split; [rewrite Hs; exact Hs1|]. split.
      + unfold loadLogsFromLocalStorage. repeat split_match; exact Hr1.
      + rewrite Hi. change (indexedDBStore st') with (indexedDBStore st1).
        rewrite Hpi. reflexivity.
    - destruct (enableLocalStorage (config st1)), (localStorage boot) as [slots|];
        try (split; [exact Hw1|split; [exact Hs1|split; [exact Hr1|rewrite Hpi; reflexivity]]]).
      set (st' := set_localStorageStore _ st1).
      destruct (tidy_loadLogsFromLocalStorage st') as [(Hi & Hl & Hw & _) Hs].
      split; [apply Hw, Hw1|]. split; [rewrite Hs; exact Hs1|]. split.
      + unfold loadLogsFromLocalStorage. repeat split_match; exact Hr1.
      + rewrite Hi. change (indexedDBStore st') with (indexedDBStore st1).
        rewrite Hpi. reflexivity.
    - destruct (enableLocalStorage (config st1)), (localStorage boot) as [slots|];
        try (split; [exact Hw1|split; [exact Hs1|split; [exact Hr1|rewrite Hpi; reflexivity]]]).
      set (st' := set_localStorageStore _ st1).
      destruct (tidy_loadLogsFromLocalStorage st') as [(Hi & Hl & Hw & _) Hs].
      split; [apply Hw, Hw1|]. split; [rewrite Hs; exact Hs1|]. split.
      + unfold loadLogsFromLocalStorage. repeat split_match; exact Hr1.
      + rewrite Hi. change (indexedDBStore st') with (indexedDBStore st1).
        rewrite Hpi. reflexivity. }
  destruct H2 as (Hw2 & Hs2 & Hr2 & Hp2). clearbody st2.
  assert (H3 : orderly (startBatchTimer st2)).
  { destruct (tidy_startBatchTimer st2) as [(Hi & Hl & Hw & _) Hs].
    split; [apply Hw, Hw2|]. split; [apply batch_startBatchTimer|].
    split; [congruence|]. rewrite Hi, Hl. exact Hp2. }
  destruct (_ <? _)%Z; [|exact H3].
  eapply tidy_orderly; [apply tidy_initRateLimiter|exact H3].
  unfold startBatchTimer. destruct (timer st2); exact Hr2.
Qed.

Lemma steps_orderly st events st' : steps st events st' -> orderly st -> orderly st'.
Proof.
  induction 1 as [|st e es st' Hen _ IH]; intros Ho; [exact Ho|].
  apply IH. eapply tidy_orderly; [apply run_tidy, Hen|exact Ho].
Qed.

Lemma reachable_orderly st : reachable st -> orderly st.
Proof.
  intros (given & boot & events & Hsteps).
  eapply steps_orderly; [exact Hsteps|apply construct_orderly].
Qed.

(** X11. A running collector never leaks a periodic timer: exactly one batch
    timer is pending, the one whose handle [this.timer] holds, and at most
    one circuit reset timer and one rate-limiter interval. *)
Theorem one_timer_of_each_kind (st : State) :
  reachable st ->
  (exists t, In t (timers st) /\ action t = BatchTick /\ timer st = Some (tid t) /\
             forall t', In t' (timers st) -> action t' = BatchTick -> t' = t) /\
  (forall t t', In t (timers st) -> In t' (timers st) ->
                action t = CircuitReset -> action t' = CircuitReset ->
                t = t' /\ circuitResetTimer st = Some (tid t)) /\
  (forall t t', In t (timers st) -> In t' (timers st) ->
                action t = RateJanitor -> action t' = RateJanitor ->
                t = t' /\ rateLimitTimer st = Some (tid t)).
Proof.
  intros Hreach. destruct (reachable_orderly st Hreach) as (Hw & (b & Hin & Hact) & _).
  split; [|split].
  - exists b. pose proof (owner_field st b BatchTick Hw Hin Hact) as Hb. simpl in Hb.
    repeat split; try assumption.
    intros t' Hin' Hact'.
    pose proof (owner_field st t' BatchTick Hw Hin' Hact') as Hb'. simpl in Hb'.
    apply (same_handle st t' b Hw Hin' Hin). congruence.
  - intros t t' Ht Ht' Ha Ha'.
    pose proof (owner_field st t CircuitReset Hw Ht Ha) as Hh. simpl in Hh.
    pose proof (owner_field st t' CircuitReset Hw Ht' Ha') as Hh'. simpl in Hh'.
    split; [|exact Hh]. apply (same_handle st t t' Hw Ht Ht'). congruence.
  - intros t t' Ht Ht' Ha Ha'.
    pose proof (owner_field st t RateJanitor Hw Ht Ha) as Hh. simpl in Hh.
    pose proof (owner_field st t' RateJanitor Hw Ht' Ha') as Hh'. simpl in Hh'.
    split; [|exact Hh]. apply (same_handle st t t' Hw Ht Ht'). congruence.
Qed.

(** X12. [flushQueue] gives back the sending lock on every path, so between
    events the collector is never left marked as sending. *)
Theorem sending_lock_is_released (st : State) :
  reachable st ->
  isSending st = false /\
  forall env retries isUnload,
    isSending (flushQueue env retries isUnload st) = false.
Proof.
  intros Hreach. destruct (reachable_orderly st Hreach) as (_ & _ & Hs & _).
  split; [exact Hs|]. intros env retries isUnload.
  destruct (tidy_flushQueue env retries isUnload st) as [_ ->]. exact Hs.
Qed.

(** X13. A collector has at most one store, the one the constructor chose: with
    the durable store there is no [localStorageStore], in any state. *)
Theorem durable_store_excludes_fallback (st : State) :
  reachable st ->
  indexedDBStore st <> None -> localStorageStore st = None.
Proof.
  intros Hreach Hidb. destruct (reachable_orderly st Hreach) as (_ & _ & _ & Hp).
  destruct (indexedDBStore st); [|congruence].
  destruct (localStorageStore st); [discriminate|reflexivity].
Qed.

End DisciplineFacts.

(** ** What a flush sends and what it deletes *)

Module BatchFacts.
Import Js Conf Store Collector Keyed KeyedFacts Batches DeliveryFacts.

Lemma ids_of_records (objs : list (string * LogEntry)) :
  keyed_by_id objs = true -> ids_of (List.map snd objs) = List.map fst objs.
Proof.
  unfold ids_of. induction objs as [|[k o] rest IH]; [reflexivity|].
  intros H. simpl in H. apply andb_true_iff in H as [Hk Hrest].
  change (omap id_string (List.map snd ((k, o) :: rest)))
    with (match id_string o with
          | Some y => y :: omap id_string (List.map snd rest)
          | None => omap id_string (List.map snd rest)
          end).
  destruct (id_string o) as [key|]; [|discriminate].
  apply String.eqb_eq in Hk as ->. rewrite (IH Hrest). reflexivity.
Qed.

Lemma keyed_by_id_firstn n : forall objs : list (string * LogEntry),
  keyed_by_id objs = true -> keyed_by_id (firstn n objs) = true.
Proof.
  induction n as [|n IH]; intros [|kv objs] H; try reflexivity.
  simpl in *. apply andb_true_iff in H as [Hk Hrest].
  rewrite Hk. apply IH, Hrest.
Qed.

(** With distinct keys, deleting the keys of the first [n] records leaves
    the records after them. *)
Lemma delete_first_keys n : forall objs : list (string * LogEntry),
  ascending (List.map fst objs) = true ->
  List.filter (fun kv => negb (listed (List.map fst (firstn n objs)) (fst kv))) objs
  = skipn n objs.
Proof.
  induction n as [|n IH]; intros objs Hasc.
  - simpl. induction objs as [|kv objs IHo]; [reflexivity|].
    simpl in *. apply ascending_cons in Hasc as [_ Hasc]. rewrite (IHo Hasc). reflexivity.
  - destruct objs as [|[k o] objs]; [reflexivity|].
    simpl in Hasc. apply ascending_cons in Hasc as [Hall Hasc].
    simpl. rewrite String.eqb_refl. simpl.
    rewrite <- (IH objs Hasc). apply List.filter_ext_in.
    intros [k' o'] Hin. simpl.
    assert (Hlt : String.compare k k' = Lt).
    { exact (proj1 (List.Forall_forall _ _) Hall k' (List.in_map fst _ _ Hin)). }
    destruct (String.eqb_spec k' k) as [->|]; [|reflexivity].
    rewrite compare_refl in Hlt. discriminate.
Qed.

(** *** What the steps of [flushQueue] leave alone *)

Lemma closeCircuit_frame st :
  effects (closeCircuit st) = effects st /\
  indexedDBStore (closeCircuit st) = indexedDBStore st /\
  localStorageStore (closeCircuit st) = localStorageStore st /\
  logQueue (closeCircuit st) = logQueue st /\
  config (closeCircuit st) = config st.
Proof. unfold closeCircuit. destruct (circuitResetTimer _); repeat split. Qed.

Lemma openCircuit_frame st :
  effects (openCircuit st) = effects st /\
  indexedDBStore (openCircuit st) = indexedDBStore st /\
  localStorageStore (openCircuit st) = localStorageStore st /\
  logQueue (openCircuit st) = logQueue st /\
  config (openCircuit st) = config st.
Proof. unfold openCircuit. destruct (circuitResetTimer _); repeat split. Qed.

(** A failure touches neither the stores nor the queue. *)
Lemma handleSendFailure_frame random logsFailed retries error ids st :
  let st' := handleSendFailure random logsFailed retries error ids st in
  indexedDBStore st' = indexedDBStore st /\
  localStorageStore st' = localStorageStore st /\
  logQueue st' = logQueue st /\
  config st' = config st /\
  exists more, effects st' = effects st ++ OnSendFailure error logsFailed :: more
               /\ ~ In CallFlushQueue more.
Proof.
  unfold handleSendFailure.
  set (st2 := emit _ (set_consecutiveFailures _ st)).
  destruct (_ <=? _)%Z; [|destruct (_ <? _)%Z].
  - destruct (openCircuit_frame st2) as (He & Hi & Hl & Hq & Hc).
    fields. rewrite He, Hi, Hl, Hq, Hc. repeat split.
    exists [ConsoleError "LogCollector: Circuit breaker opened due to too many failures."].
    subst st2. fields. rewrite <- app_assoc. split; [reflexivity|].
    intros [H|[]]. discriminate.
  - repeat split. exists [ConsoleWarn "LogCollector: Retrying"].
    subst st2. unfold setTimeout. fields. rewrite <- app_assoc.
    split; [reflexivity|]. intros [H|[]]. discriminate.
  - repeat split. eexists. subst st2. fields. rewrite <- app_assoc.
    split; [reflexivity|]. intros [H|[]]. discriminate.
Qed.

(** After a success the batch is deleted from the durable store, or else
    the slot of the fallback store is removed. *)
Lemma handleSendSuccess_frame env logsSent ids st :
  let st' := handleSendSuccess env logsSent ids st in
  logQueue st' = logQueue st /\
  config st' = config st /\
  (exists more, effects st' = effects st ++ OnSendSuccess logsSent :: more
                /\ ~ In CallFlushQueue more) /\
  match indexedDBStore st with
  | Some store =>
      localStorageStore st' = localStorageStore st /\
      exists store', indexedDBStore st' = Some store' /\
        (ids = [] \/ store' = (deleteLogs env (Some ids) store).1)  /\
        (ids = [] -> store' = store) /\
        ((deleteLogs env (Some ids) store).2 = Resolved tt ->
         effects st' = effects st ++ [OnSendSuccess logsSent])
  | None =>
      indexedDBStore st' = None /\
      localStorageStore st'
      = (fun slots => delete (localStorageKey (config st)) slots) <$> localStorageStore st
  end.
Proof.
  unfold handleSendSuccess.
  destruct (closeCircuit_frame (set_consecutiveFailures 0 st)) as (He & Hi & Hl & Hq & Hc).
  set (st1 := closeCircuit (set_consecutiveFailures 0 st)) in *. clearbody st1.
  set (st2 := emit (OnSendSuccess logsSent) st1).
  assert (He2 : effects st2 = effects st ++ [OnSendSuccess logsSent])
    by (subst st2; fields; rewrite He; reflexivity).
  assert (Hi2 : indexedDBStore st2 = indexedDBStore st) by exact Hi.
  assert (Hl2 : localStorageStore st2 = localStorageStore st) by exact Hl.
  assert (Hq2 : logQueue st2 = logQueue st) by exact Hq.
  assert (Hc2 : config st2 = config st) by exact Hc.
  clearbody st2. clear st1 He Hi Hl Hq Hc.
  rewrite Hi2.
  destruct (indexedDBStore st) as [store|] eqn:Hstore.
  - destruct ids as [|id ids].
    + cbn [length Nat.ltb Nat.leb]. rewrite He2, Hq2, Hc2, Hl2, Hi2.
      split; [reflexivity|]. split; [reflexivity|]. split.
      { exists (@nil Effect). split; [reflexivity|intros []]. }
      split; [reflexivity|]. exists store. auto.
    + change (0 <? length (id :: ids))%nat with true. cbv iota.
      destruct (deleteLogs env (Some (id :: ids)) store) as [store' [[]|]].
      * fields. rewrite He2, Hq2, Hc2, Hl2.
        split; [reflexivity|]. split; [reflexivity|]. split.
        { exists (@nil Effect). split; [reflexivity|intros []]. }
        split; [reflexivity|]. exists store'.
        split; [reflexivity|]. split; [right; reflexivity|].
        split; [discriminate|reflexivity].
      * fields. rewrite He2, Hq2, Hc2, Hl2.
        split; [reflexivity|]. split; [reflexivity|]. split.
        { eexists. rewrite <- app_assoc. split; [reflexivity|].
          intros [H|[]]. discriminate. }
        split; [reflexivity|]. exists store'.
        split; [reflexivity|]. split; [right; reflexivity|].
        split; discriminate.
  - rewrite Hl2. destruct (localStorageStore st) as [slots|] eqn:Hslots.
    + fields. rewrite He2, Hq2, Hc2, Hi2.
      split; [reflexivity|]. split; [reflexivity|]. split.
      { exists (@nil Effect). split; [reflexivity|intros []]. }
      split; reflexivity.
    + rewrite He2, Hq2, Hc2, Hi2, Hl2.
      split; [reflexivity|]. split; [reflexivity|]. split.
      { exists (@nil Effect). split; [reflexivity|intros []]. }
      split; reflexivity.
Qed.


Lemma processQueue_frame st :
  indexedDBStore (processQueue st) = indexedDBStore st /\
  localStorageStore (processQueue st) = localStorageStore st /\
  logQueue (processQueue st) = logQueue st /\
  config (processQueue st) = config st /\
  effects (processQueue st)
  = effects st ++ (if (batchSize (config st) <=? Z.of_nat (length (logQueue st)))%Z
                   then [CallFlushQueue] else []).
Proof.
  unfold processQueue. destruct (_ <=? _)%Z; fields; rewrite ?app_nil_r; repeat split.
Qed.

(** The [finally] block: the stores and the queue stay, and another flush
    is asked for when the queue holds a full batch. *)
Lemma finishFlush_frame batch st :
  let st' := finishFlush batch st in
  indexedDBStore st' = indexedDBStore st /\
  localStorageStore st' = localStorageStore st /\
  logQueue st' = logQueue st /\
  config st' = config st /\
  exists more, effects st' = effects st ++ more /\
    (more = [] \/ more = [CallFlushQueue]) /\
    ((Z.of_nat (length (logQueue st)) < batchSize (config st))%Z -> more = []).
Proof.
  unfold finishFlush.
  destruct (processQueue_frame (set_isSending false st)) as (Hi & Hl & Hq & Hc & He).
  set (st1 := set_isSending false st) in *.
  assert (Hfinal : forall b : bool,
    let st' := if b then processQueue st1 else st1 in
    indexedDBStore st' = indexedDBStore st /\
    localStorageStore st' = localStorageStore st /\
    logQueue st' = logQueue st /\
    config st' = config st /\
    exists more, effects st' = effects st ++ more /\
      (more = [] \/ more = [CallFlushQueue]) /\
      ((Z.of_nat (length (logQueue st)) < batchSize (config st))%Z -> more = [])).
  { intros [|]; cbv zeta.
    - rewrite Hi, Hl, Hq, Hc, He. repeat split.
      change (config st1) with (config st). change (logQueue st1) with (logQueue st).
      change (effects st1) with (effects st).
      destruct (Z.leb_spec (batchSize (config st)) (Z.of_nat (length (logQueue st)))).
      + exists [CallFlushQueue]. split; [reflexivity|]. split; [right; reflexivity|lia].
      + exists (@nil Effect). split; [reflexivity|]. split; [left; reflexivity|reflexivity].
    - repeat split. exists (@nil Effect). rewrite app_nil_r.
      split; [reflexivity|]. split; [left; reflexivity|reflexivity]. }
  change (indexedDBStore st1) with (indexedDBStore st).
  destruct (indexedDBStore st); apply Hfinal.
Qed.

(** A flush that is attempted is the request between the choice of the
    batch and the [finally] block. *)
Lemma flushQueue_attempted env retries isUnload st st1 batch ids :
  isSending st = false -> circuitOpen st = false ->
  String.eqb (dsn (config st)) "" = false ->
  selectBatch env (set_isSending true st) = (st1, batch, ids) ->
  flushQueue env retries isUnload st
  = if (length batch =? 0)%nat then set_isSending false st1
    else finishFlush batch (transmit env batch retries isUnload ids st1).
Proof.
  intros Hidle Hclosed Hdsn Hsel. unfold flushQueue.
  rewrite Hidle, Hclosed, Hdsn, Hsel. reflexivity.
Qed.

(** The batch of a flush from the durable store: the first [batchSize]
    records in id order, with their ids. *)
Lemma selectBatch_durable env st store :
  indexedDBStore st = Some store -> lets_through (idb env) store = true ->
  keyed_by_id (objects store) = true -> (0 <= batchSize (config st))%Z ->
  let n := Z.to_nat (batchSize (config st)) in
  exists read,
    objects read = objects store /\ db read = true /\
    selectBatch env st
    = (set_indexedDBStore (Some read) st, firstn n (records store),
       List.map fst (firstn n (objects store))).
Proof.
  intros Hstore Hthrough Hid Hsize n. unfold selectBatch. rewrite Hstore.
  unfold lets_through in Hthrough. apply andb_true_iff in Hthrough as [Hopen Hreq].
  apply negb_true_iff in Hreq.
  assert (Hread : exists read, objects read = objects store /\ db read = true /\
            getAllLogs (idb env) store = (read, Resolved (records store))).
  { unfold getAllLogs, openDb. destruct (db store) eqn:Hdb.
    - rewrite Hreq. eexists. split; [|split; [|reflexivity]]; [reflexivity|exact Hdb].
    - simpl in Hopen. apply negb_true_iff in Hopen. rewrite Hopen, Hreq.
      eexists. split; [|split; [|reflexivity]]; reflexivity. }
  destruct Hread as (read & Hobj & Hdb & ->). exists read.
  split; [exact Hobj|]. split; [exact Hdb|].
  unfold slice0. destruct (Z.ltb_spec (batchSize (config st)) 0); [lia|].
  fold n. f_equal. unfold records. rewrite List.firstn_map.
  apply ids_of_records, keyed_by_id_firstn, Hid.
Qed.

Lemma deleteLogs_through env ids s :
  lets_through env s = true ->
  (deleteLogs env (Some ids) s).2 = Resolved tt /\
  objects (deleteLogs env (Some ids) s).1
  = List.filter (fun kv => negb (listed ids (fst kv))) (objects s).
Proof.
  intros Hthrough. unfold lets_through in Hthrough.
  apply andb_true_iff in Hthrough as [Hopen Hreq]. apply negb_true_iff in Hreq.
  assert (Hopen' : db s = true \/ openFails env = false).
  { destruct (db s); [auto|]. right. apply negb_true_iff, Hopen. }
  destruct (deleteLogs_healthy env ids s Hopen' Hreq) as (Hres & Hobj & _).
  split; assumption.
Qed.


Lemma transmit_regular env batch retries ids st :
  transmit env batch retries false ids st
  = match fetched env with
    | NoFetch =>
        handleSendSuccess (idb env) batch ids
          (emit (ConsoleLog "LogCollector: Logs sent successfully via fetch.") st)
    | Responds ok status errorText =>
        let st1 := emit (Fetch (dsn (config st)) (apiKeyHeader (config st)) batch false) st in
        if ok then
          handleSendSuccess (idb env) batch ids
            (emit (ConsoleLog "LogCollector: Logs sent successfully via fetch.") st1)
        else
          match errorText with
          | Some text =>
              handleSendFailure (jitter env) batch retries (HttpError status text) ids
                (emit (ConsoleError "LogCollector: Failed to send logs") st1)
          | None => emit (ConsoleLog "error") st1
          end
    | FetchRejects reason =>
        emit (ConsoleLog "error")
          (emit (Fetch (dsn (config st)) (apiKeyHeader (config st)) batch false) st)
    end.
Proof. reflexivity. Qed.

Lemma firstn_nonempty {A} (n : nat) (l : list A) :
  (0 < n)%nat -> l <> [] -> firstn n l <> [].
Proof. destruct n, l; simpl; intros; try lia; congruence. Qed.

Lemma length_nonempty {A} (l : list A) : l <> [] -> (length l =? 0)%nat = false.
Proof. destruct l; [congruence|reflexivity]. Qed.

(** What a regular flush from the durable store does with a batch that
    reaches the endpoint. *)
Lemma durable_flush env retries st store :
  indexedDBStore st = Some store -> well_keyed (objects store) = true ->
  objects store <> [] ->
  isSending st = false -> circuitOpen st = false ->
  String.eqb (dsn (config st)) "" = false ->
  (0 < batchSize (config st))%Z ->
  lets_through (idb env) store = true ->
  let n := Z.to_nat (batchSize (config st)) in
  let batch := firstn n (records store) in
  let ids := List.map fst (firstn n (objects store)) in
  exists read st1,
    objects read = objects store /\ lets_through (idb env) read = true /\
    indexedDBStore st1 = Some read /\
    localStorageStore st1 = localStorageStore st /\
    logQueue st1 = logQueue st /\ config st1 = config st /\
    effects st1 = effects st /\
    batch <> [] /\ ids <> [] /\
    flushQueue env retries false st
    = finishFlush batch (transmit env batch retries false ids st1) /\
    List.filter (fun kv => negb (listed ids (fst kv))) (objects read)
    = skipn n (objects store).
Proof.
  intros Hstore Hwf Hsome Hidle Hclosed Hdsn Hsize Hthrough n batch ids.
  unfold well_keyed in Hwf. apply andb_true_iff in Hwf as [Hasc Hid].
  destruct (selectBatch_durable env (set_isSending true st) store Hstore Hthrough Hid)
    as (read & Hobj & Hdb & Hsel); [simpl; lia|].
  change (batchSize (config (set_isSending true st))) with (batchSize (config st)) in Hsel.
  fold n in Hsel. fold batch in Hsel. fold ids in Hsel.
  assert (Hn : (0 < n)%nat) by (subst n; lia).
  assert (Hbatch : batch <> []).
  { subst batch. apply firstn_nonempty; [exact Hn|]. unfold records.
    destruct (objects store); [congruence|discriminate]. }
  assert (Hids : ids <> []).
  { subst ids. destruct (objects store) as [|kv objs]; [congruence|].
    destruct n; [lia|discriminate]. }
  exists read, (set_indexedDBStore (Some read) (set_isSending true st)).
  split; [exact Hobj|]. split.
  { unfold lets_through in *. rewrite Hdb. simpl.
    apply andb_true_iff in Hthrough as [_ ->]. reflexivity. }
  repeat (split; [reflexivity|]).
  split; [exact Hbatch|]. split; [exact Hids|]. split.
  - rewrite (flushQueue_attempted env retries false st _ batch ids Hidle Hclosed Hdsn Hsel).
    destruct batch; [congruence|reflexivity].
  - rewrite Hobj. apply delete_first_keys, Hasc.
Qed.

(** X14. A regular flush from the durable store sends the first [batchSize]
    records in id order, and deletes them only once the endpoint has
    accepted them: after a response that is not 2xx every record is still
    in the store.  With the queue empty no further flush is started. *)
Theorem durable_flush_deletes_after_success
  (env : FlushEnv) (retries : Z) (st : State) (store : IndexedDBStore)
  (ok : bool) (status : Z) (text : string) :
  indexedDBStore st = Some store -> well_keyed (objects store) = true ->
  objects store <> [] -> logQueue st = [] ->
  isSending st = false -> circuitOpen st = false ->
  String.eqb (dsn (config st)) "" = false ->
  (0 < batchSize (config st))%Z ->
  lets_through (idb env) store = true ->
  fetched env = Responds ok status (Some text) ->
  let n := Z.to_nat (batchSize (config st)) in
  let batch := firstn n (records store) in
  let st' := flushQueue env retries false st in
  (exists more,
      effects st'
      = effects st
        ++ Fetch (dsn (config st)) (apiKeyHeader (config st)) batch false :: more /\
      In (if ok then OnSendSuccess batch
          else OnSendFailure (HttpError status text) batch) more /\
      ~ In CallFlushQueue more) /\
  (exists store',
      indexedDBStore st' = Some store' /\
      (ok = true -> objects store' = skipn n (objects store)) /\
      (ok = false -> forall kv, In kv (objects store) -> In kv (objects store'))) /\
  logQueue st' = [].
Proof.
  intros Hstore Hwf Hsome Hqueue Hidle Hclosed Hdsn Hsize Hthrough Hfetch n batch st'.
  destruct (durable_flush env retries st store Hstore Hwf Hsome Hidle Hclosed Hdsn
              Hsize Hthrough)
    as (read & st1 & Hobj & Hthrough1 & Hi1 & Hl1 & Hq1 & Hc1 & He1 & Hbatch & Hids
        & Hflush & Hdel).
  fold n in Hflush, Hdel, Hids. fold batch in Hflush, Hbatch.
  set (ids := List.map fst (firstn n (objects store))) in *.
  subst st'. rewrite Hflush, transmit_regular, Hfetch. cbv zeta.
  rewrite Hc1.
  set (request := Fetch (dsn (config st)) (apiKeyHeader (config st)) batch false).
  assert (Hshort : forall x,
            logQueue x = [] -> config x = config st ->
            (Z.of_nat (length (logQueue x)) < batchSize (config x))%Z).
  { intros x -> ->. simpl. lia. }
  destruct ok.
  - set (sent := emit (ConsoleLog "LogCollector: Logs sent successfully via fetch.")
                   (emit request st1)).
    pose proof (handleSendSuccess_frame (idb env) batch ids sent)
      as (Hq & Hc & (more & He & Hcalm) & Hstores).
    change (indexedDBStore sent) with (indexedDBStore st1) in Hstores.
    rewrite Hi1 in Hstores.
    destruct Hstores as (_ & store' & Hi & [Hnil|Hstore'] & _); [congruence|].
    change (logQueue sent) with (logQueue st1) in Hq. rewrite Hq1, Hqueue in Hq.
    change (config sent) with (config st1) in Hc. rewrite Hc1 in Hc.
    set (done := handleSendSuccess (idb env) batch ids sent) in *. clearbody done.
    destruct (finishFlush_frame batch done)
      as (Hfi & _ & Hfq & _ & (tail & Hfe & _ & Hnone)).
    rewrite (Hnone (Hshort done Hq Hc)), app_nil_r in Hfe.
    split; [|split].
    + exists (ConsoleLog "LogCollector: Logs sent successfully via fetch."
              :: OnSendSuccess batch :: more).
      split; [|split; [right; left; reflexivity|]].
      * rewrite Hfe, He. subst sent. fields. rewrite He1, <- !app_assoc. reflexivity.
      * intros [H|[H|H]]; [discriminate H|discriminate H|exact (Hcalm H)].
    + exists store'. rewrite Hfi. split; [exact Hi|]. split; [|discriminate].
      intros _. rewrite Hstore'.
      rewrite (proj2 (deleteLogs_through (idb env) ids read Hthrough1)).
      exact Hdel.
    + rewrite Hfq. exact Hq.
  - set (sent := emit (ConsoleError "LogCollector: Failed to send logs") (emit request st1)).
    pose proof (handleSendFailure_frame (jitter env) batch retries (HttpError status text)
                  ids sent) as (Hi & _ & Hq & Hc & (more & He & Hcalm)).
    change (logQueue sent) with (logQueue st1) in Hq. rewrite Hq1, Hqueue in Hq.
    change (config sent) with (config st1) in Hc. rewrite Hc1 in Hc.
    set (failed := handleSendFailure _ _ _ _ _ sent) in *. clearbody failed.
    destruct (finishFlush_frame batch failed)
      as (Hfi & _ & Hfq & _ & (tail & Hfe & _ & Hnone)).
    rewrite (Hnone (Hshort failed Hq Hc)), app_nil_r in Hfe.
    split; [|split].
    + exists (ConsoleError "LogCollector: Failed to send logs"
              :: OnSendFailure (HttpError status text) batch :: more).
      split; [|split; [right; left; reflexivity|]].
      * rewrite Hfe, He. subst sent. fields. rewrite He1, <- !app_assoc. reflexivity.
      * intros [H|[H|H]]; [discriminate H|discriminate H|exact (Hcalm H)].
    + exists read. rewrite Hfi, Hi. split; [exact Hi1|]. split; [discriminate|].
      intros _ kv Hin. rewrite Hobj. exact Hin.
    + rewrite Hfq. exact Hq.
Qed.


(** X15. When [this.originalFetch] was never saved (it is set by
    [wrapNetworkRequests], which runs only with [enableNetworkCapture]), a
    flush makes no request at all and still takes the batch for sent:
    [onSendSuccess] is called, the failure counter is reset and the batch is
    deleted from the durable store. *)
Theorem flush_without_fetch_reports_success
  (env : FlushEnv) (retries : Z) (st : State) (store : IndexedDBStore) :
  indexedDBStore st = Some store -> well_keyed (objects store) = true ->
  objects store <> [] ->
  isSending st = false -> circuitOpen st = false ->
  String.eqb (dsn (config st)) "" = false ->
  (0 < batchSize (config st))%Z ->
  lets_through (idb env) store = true ->
  fetched env = NoFetch ->
  let n := Z.to_nat (batchSize (config st)) in
  let batch := firstn n (records store) in
  let st' := flushQueue env retries false st in
  (exists more,
      effects st' = effects st ++ more /\
      In (OnSendSuccess batch) more /\
      forall effect, In effect more ->
        match effect with
        | Fetch _ _ _ _ | SendBeacon _ _ | OnSendFailure _ _ => False
        | _ => True
        end) /\
  (exists store',
      indexedDBStore st' = Some store' /\ objects store' = skipn n (objects store)) /\
  consecutiveFailures st' = 0%Z /\ circuitOpen st' = false.
Proof.
  intros Hstore Hwf Hsome Hidle Hclosed Hdsn Hsize Hthrough Hfetch n batch st'.
  destruct (durable_flush env retries st store Hstore Hwf Hsome Hidle Hclosed Hdsn
              Hsize Hthrough)
    as (read & st1 & Hobj & Hthrough1 & Hi1 & Hl1 & Hq1 & Hc1 & He1 & Hbatch & Hids
        & Hflush & Hdel).
  fold n in Hflush, Hdel, Hids. fold batch in Hflush, Hbatch.
  set (ids := List.map fst (firstn n (objects store))) in *.
  subst st'. rewrite Hflush, transmit_regular, Hfetch.
  set (sent := emit (ConsoleLog "LogCollector: Logs sent successfully via fetch.") st1).
  pose proof (handleSendSuccess_frame (idb env) batch ids sent)
    as (Hq & Hc & _ & Hstores).
  pose proof (handleSendSuccess_closed (idb env) batch ids sent) as [Hopen Hcount].
  change (indexedDBStore sent) with (indexedDBStore st1) in Hstores.
  rewrite Hi1 in Hstores.
  destruct Hstores as (_ & store' & Hi & [Hnil|Hstore'] & _ & He); [congruence|].
  destruct (deleteLogs_through (idb env) ids read Hthrough1) as [Hres Hleft].
  specialize (He Hres).
  set (done := handleSendSuccess (idb env) batch ids sent) in *. clearbody done.
  destruct (finishFlush_frame batch done) as (Hfi & _ & _ & _ & (tail & Hfe & Htail & _)).
  destruct (quiet_finishFlush batch done) as (_ & Ho2 & Hf2 & _).
  split; [|split; [|split]].
  - exists ([ConsoleLog "LogCollector: Logs sent successfully via fetch.";
             OnSendSuccess batch] ++ tail).
    split; [|split].
    + rewrite Hfe, He. subst sent. fields. rewrite He1, <- !app_assoc. reflexivity.
    + right. left. reflexivity.
    + intros effect Hin.
      destruct Htail as [-> | ->]; simpl in Hin;
        repeat (destruct Hin as [<-|Hin]; [exact I|]); destruct Hin.
  - exists store'. rewrite Hfi. split; [exact Hi|].
    rewrite Hstore', Hleft. exact Hdel.
  - rewrite Hf2. exact Hcount.
  - rewrite Ho2. exact Hopen.
Qed.

(** [transmit] touches neither the queue nor the configuration, and makes
    no durable store. *)
Lemma transmit_frame env batch retries isUnload ids st :
  let st' := transmit env batch retries isUnload ids st in
  logQueue st' = logQueue st /\ config st' = config st /\
  (indexedDBStore st = None -> indexedDBStore st' = None) /\
  calm st st'.
Proof.
  assert (Hemit : forall e x,
    e <> CallFlushQueue ->
    logQueue x = logQueue st /\ config x = config st /\
    (indexedDBStore st = None -> indexedDBStore x = None) /\ calm st x ->
    logQueue (emit e x) = logQueue st /\ config (emit e x) = config st /\
    (indexedDBStore st = None -> indexedDBStore (emit e x) = None) /\ calm st (emit e x)).
  { intros e x Hne (Hq & Hc & Hi & (more & He & Hcalm)).
    split; [exact Hq|]. split; [exact Hc|]. split; [exact Hi|].
    exists (more ++ [e]). fields. rewrite He, <- app_assoc. split; [reflexivity|].
    intros Hin. apply in_app_or in Hin as [Hin|[Hin|[]]]; [auto|congruence]. }
  assert (Hok : forall x,
    logQueue x = logQueue st /\ config x = config st /\
    (indexedDBStore st = None -> indexedDBStore x = None) /\ calm st x ->
    let y := handleSendSuccess (idb env) batch ids x in
    logQueue y = logQueue st /\ config y = config st /\
    (indexedDBStore st = None -> indexedDBStore y = None) /\ calm st y).
  { intros x (Hq & Hc & Hi & (more & He & Hcalm)) y.
    pose proof (handleSendSuccess_frame (idb env) batch ids x)
      as (Hq' & Hc' & (more' & He' & Hcalm') & Hstores).
    fold y in Hq', Hc', He', Hstores.
    split; [congruence|]. split; [congruence|]. split.
    - intros Hnone. rewrite (Hi Hnone) in Hstores. apply Hstores.
    - exists (more ++ OnSendSuccess batch :: more'). rewrite He', He, <- app_assoc.
      split; [reflexivity|].
      intros Hin. apply in_app_or in Hin as [Hin|[Hin|Hin]]; [auto|discriminate|auto]. }
  assert (Hfail : forall error x,
    logQueue x = logQueue st /\ config x = config st /\
    (indexedDBStore st = None -> indexedDBStore x = None) /\ calm st x ->
    let y := handleSendFailure (jitter env) batch retries error ids x in
    logQueue y = logQueue st /\ config y = config st /\
    (indexedDBStore st = None -> indexedDBStore y = None) /\ calm st y).
  { intros error x (Hq & Hc & Hi & (more & He & Hcalm)) y.
    pose proof (handleSendFailure_frame (jitter env) batch retries error ids x)
      as (Hi' & _ & Hq' & Hc' & (more' & He' & Hcalm')).
    fold y in Hi', Hq', Hc', He'.
    split; [congruence|]. split; [congruence|]. split.
    - intros Hnone. rewrite Hi'. apply Hi, Hnone.
    - exists (more ++ OnSendFailure error batch :: more'). rewrite He', He, <- app_assoc.
      split; [reflexivity|].
      intros Hin. apply in_app_or in Hin as [Hin|[Hin|Hin]]; [auto|discriminate|auto]. }
  assert (Hbase : logQueue st = logQueue st /\ config st = config st /\
            (indexedDBStore st = None -> indexedDBStore st = None) /\ calm st st).
  { repeat split; auto. exists (@nil Effect). rewrite app_nil_r. split; [reflexivity|intros []]. }
  unfold transmit. cbv zeta.
  repeat split_match;
    repeat first [ exact Hbase
                 | apply Hok
                 | apply Hfail
                 | apply Hemit; [discriminate|] ].
Qed.

(** X16. Without the durable store a flush takes its batch off the front of
    the queue for good.  When the request is rejected (the endpoint cannot
    be reached), the batch is gone without notice: neither callback is
    called, no retry is armed, nothing is counted, and the next flush sends
    the records that followed.  A batch that the endpoint accepts goes to
    [onSendSuccess], one that it refuses to [onSendFailure]. *)
Theorem memory_flush_forgets_the_batch
  (env : FlushEnv) (retries : Z) (st : State) :
  indexedDBStore st = None ->
  isSending st = false -> circuitOpen st = false ->
  String.eqb (dsn (config st)) "" = false ->
  (0 < batchSize (config st))%Z -> logQueue st <> [] ->
  (Z.of_nat (length (logQueue st)) < 2 * batchSize (config st))%Z ->
  let n := Z.to_nat (batchSize (config st)) in
  let batch := firstn n (logQueue st) in
  let request := Fetch (dsn (config st)) (apiKeyHeader (config st)) batch false in
  let st' := flushQueue env retries false st in
  (forall reason,
      fetched env = FetchRejects reason ->
      logQueue st' = skipn n (logQueue st) /\
      (exists message, effects st' = effects st ++ [request; ConsoleLog message]) /\
      timers st' = timers st /\
      consecutiveFailures st' = consecutiveFailures st /\
      localStorageStore st' = localStorageStore st /\
      forall env', (selectBatch env' (set_isSending true st')).1.2
                   = skipn n (logQueue st)) /\
  (forall status text,
      fetched env = Responds true status text ->
      logQueue st' = skipn n (logQueue st) /\
      In (OnSendSuccess batch) (skipn (length (effects st)) (effects st'))) /\
  (forall status text,
      fetched env = Responds false status (Some text) ->
      In (OnSendFailure (HttpError status text) batch)
         (skipn (length (effects st)) (effects st'))).
Proof.
  intros Hnone Hidle Hclosed Hdsn Hsize Hsome Hshort n batch request st'.
  assert (Hn : (0 < n)%nat) by (subst n; lia).
  assert (Hrest : (Z.of_nat (length (skipn n (logQueue st))) < batchSize (config st))%Z).
  { rewrite length_skipn. subst n. lia. }
  assert (Hbatch : batch <> []) by (apply firstn_nonempty; assumption).
  assert (Hsel : selectBatch env (set_isSending true st)
                 = (set_logQueue (skipn n (logQueue st)) (set_isSending true st), batch, [])).
  { unfold selectBatch. change (indexedDBStore (set_isSending true st)) with (indexedDBStore st).
    rewrite Hnone. reflexivity. }
  set (st1 := set_logQueue (skipn n (logQueue st)) (set_isSending true st)) in *.
  assert (Hflush := flushQueue_attempted env retries false st st1 batch [] Hidle Hclosed
                      Hdsn Hsel).
  fold st' in Hflush. rewrite (length_nonempty batch Hbatch) in Hflush.
  pose proof (transmit_frame env batch retries false [] st1) as (Hq & Hc & Hi & _).
  rewrite transmit_regular in *.
  change (dsn (config st1)) with (dsn (config st)) in *.
  change (apiKeyHeader (config st1)) with (apiKeyHeader (config st)) in *.
  fold request in Hflush, Hq, Hc, Hi |- *.
  split; [|split].
  - intros reason Hfetch. rewrite Hfetch in *.
    set (sent := emit (ConsoleLog "error") (emit request st1)) in *.
    destruct (finishFlush_frame batch sent)
      as (Hfi & Hfl & Hfq & Hfc & (tail & Hfe & _ & Hnil)).
    rewrite (Hnil ltac:(rewrite Hq, Hc; exact Hrest)), app_nil_r in Hfe.
    assert (Hqueue : logQueue st' = skipn n (logQueue st)) by (rewrite Hflush, Hfq; exact Hq).
    split; [exact Hqueue|]. split; [|split; [|split; [|split]]].
    + exists "error". rewrite Hflush, Hfe. subst sent st1.
      unfold emit, set_logQueue, set_isSending, set_effects. cbn [effects].
      rewrite <- app_assoc. reflexivity.
    + rewrite Hflush. unfold finishFlush, processQueue.
      repeat match goal with |- context [if ?c then _ else _] => destruct c end;
        repeat match goal with |- context [match ?c with Some _ => _ | None => _ end] =>
                 destruct c end; reflexivity.
    + rewrite Hflush. unfold finishFlush, processQueue.
      repeat match goal with |- context [if ?c then _ else _] => destruct c end;
        repeat match goal with |- context [match ?c with Some _ => _ | None => _ end] =>
                 destruct c end; reflexivity.
    + rewrite Hflush, Hfl. reflexivity.
    + intros env'. unfold selectBatch.
      change (indexedDBStore (set_isSending true st')) with (indexedDBStore st').
      rewrite Hflush, Hfi, (Hi Hnone), <- Hflush. cbn [fst snd splice0].
      change (logQueue (set_isSending true st')) with (logQueue st').
      change (config (set_isSending true st')) with (config st').
      unfold splice0. cbn [fst snd]. rewrite Hqueue. apply firstn_all2.
      rewrite Hflush, Hfc, Hc. change (config st1) with (config st). lia.
  - intros status text Hfetch. rewrite Hfetch in *. cbv zeta in *.
    set (sent := emit (ConsoleLog "LogCollector: Logs sent successfully via fetch.")
                   (emit request st1)) in *.
    pose proof (handleSendSuccess_frame (idb env) batch [] sent)
      as (_ & _ & (more & He & _) & _).
    set (done := handleSendSuccess (idb env) batch [] sent) in *.
    destruct (finishFlush_frame batch done) as (_ & _ & Hfq & _ & (tail & Hfe & _)).
    split; [rewrite Hflush, Hfq; exact Hq|].
    rewrite Hflush, Hfe, He. subst sent st1.
    unfold emit at 1 2, set_logQueue, set_isSending, set_effects. cbn [effects].
    rewrite <- !app_assoc, skipn_app, Nat.sub_diag, skipn_all. simpl. auto.
  - intros status text Hfetch. rewrite Hfetch in *. cbv zeta in *.
    set (asked := emit (ConsoleError "LogCollector: Failed to send logs")
                    (emit request st1)) in *.
    pose proof (handleSendFailure_frame (jitter env) batch retries (HttpError status text)
                  [] asked) as (_ & _ & _ & _ & (more & He & _)).
    set (failed := handleSendFailure _ _ _ _ _ asked) in *.
    destruct (finishFlush_frame batch failed) as (_ & _ & _ & _ & (tail & Hfe & _)).
    rewrite Hflush, Hfe, He. subst asked st1.
    unfold emit at 1 2, set_logQueue, set_isSending, set_effects. cbn [effects].
    rewrite <- !app_assoc, skipn_app, Nat.sub_diag, skipn_all. simpl. auto.
Qed.



(** *** Calm steps *)

Lemma calm_refl st : calm st st.
Proof. exists (@nil Effect). rewrite app_nil_r. split; [reflexivity|intros []]. Qed.

Lemma calm_trans st1 st2 st3 : calm st1 st2 -> calm st2 st3 -> calm st1 st3.
Proof.
  intros (m1 & H1 & C1) (m2 & H2 & C2). exists (m1 ++ m2).
  rewrite H2, H1, <- app_assoc. split; [reflexivity|].
  intros Hin. apply in_app_or in Hin as [Hin|Hin]; auto.
Qed.

Lemma calm_emit e st : e <> CallFlushQueue -> calm st (emit e st).
Proof.
  intros Hne. exists [e]. split; [reflexivity|]. intros [Hin|[]]. congruence.
Qed.

Lemma calm_same st st' : effects st' = effects st -> calm st st'.
Proof. intros H. exists (@nil Effect). rewrite app_nil_r. split; [exact H|intros []]. Qed.

Ltac calm_leaf :=
  first [ apply calm_refl
        | apply calm_same; reflexivity
        | eapply calm_trans; [|apply calm_emit; discriminate]; calm_leaf ].


Lemma saveLogsToLocalStorage_calm env uuids st :
  let st' := saveLogsToLocalStorage env uuids st in
  calm st st' /\ config st' = config st /\ indexedDBStore st' = indexedDBStore st /\
  length (logQueue st') = length (logQueue st).
Proof.
  unfold saveLogsToLocalStorage.
  assert (Hlen : length (imap (fun i log => ensure_id (uuids i) log) (logQueue st))
                 = length (logQueue st)) by apply length_imap.
  repeat split_match; simpl; (split; [calm_leaf|repeat split; try exact Hlen]).
Qed.

(** With the durable store and a positive [batchSize], lines 669-692 leave
    the queue empty and ask for no flush. *)
Lemma enqueue_durable env logEntry st :
  indexedDBStore st <> None -> (0 < batchSize (config st))%Z ->
  let st' := enqueue env logEntry st in
  calm st st' /\ logQueue st' = [] /\ config st' = config st /\
  indexedDBStore st' <> None.
Proof.
  intros Hsome Hsize. unfold enqueue.
  set (st1 := set_logQueue _ st).
  change (indexedDBStore st1) with (indexedDBStore st).
  destruct (indexedDBStore st) as [store|] eqn:Hstore; [|congruence].
  destruct (addLogs _ _ _ _ _) as [store' ok].
  set (st3 := set_indexedDBStore (Some store') (set_logQueue [] st1)).
  assert (H3 : calm st st3 /\ logQueue st3 = [] /\ config st3 = config st /\
               indexedDBStore st3 <> None).
  { split; [apply calm_same; reflexivity|]. repeat split. discriminate. }
  assert (Hdone : forall x,
            calm st x /\ logQueue x = [] /\ config x = config st /\ indexedDBStore x <> None ->
            let y := processQueue x in
            calm st y /\ logQueue y = [] /\ config y = config st /\ indexedDBStore y <> None).
  { intros x (Hcalm & Hq & Hc & Hi) y.
    destruct (processQueue_frame x) as (Hi' & _ & Hq' & Hc' & He).
    fold y in Hi', Hq', Hc', He. rewrite Hq, Hc in He.
    change (Z.of_nat (length (@nil LogEntry))) with 0%Z in He.
    destruct (Z.leb_spec (batchSize (config st)) 0); [lia|]. rewrite app_nil_r in He.
    split; [eapply calm_trans; [exact Hcalm|apply calm_same, He]|].
    split; [congruence|]. split; [congruence|]. rewrite Hi'. exact Hi. }
  destruct ok; [apply Hdone, H3|].
  set (st5 := set_logQueue _ (emit _ st3)).
  assert (H5 : calm st st5 /\ logQueue st5 = [] /\ config st5 = config st /\
               indexedDBStore st5 <> None).
  { destruct H3 as (Hcalm & Hq & Hc & Hi). split.
    - eapply calm_trans; [exact Hcalm|].
      eexists. split; [subst st5; fields; reflexivity|].
      intros [H|[]]; discriminate.
    - split; [subst st5 st3; fields; reflexivity|]. split; assumption. }
  clearbody st5. clear H3 st3.
  destruct (localStorageStore st5); [|apply Hdone, H5].
  apply Hdone.
  destruct H5 as (Hcalm & Hq & Hc & Hi).
  destruct (saveLogsToLocalStorage_calm (storageEnv env) (uuid env) st5)
    as (Hcalm' & Hc' & Hi' & Hlen).
  split; [eapply calm_trans; eassumption|].
  split; [|split; [congruence|rewrite Hi'; exact Hi]].
  rewrite Hq in Hlen. simpl in Hlen. apply length_zero_iff_nil, Hlen.
Qed.


Lemma getAllLogs_through env s :
  lets_through env s = true ->
  exists read, objects read = objects s /\ db read = true /\
               getAllLogs env s = (read, Resolved (records s)).
Proof.
  intros Hthrough. unfold lets_through in Hthrough.
  apply andb_true_iff in Hthrough as [Hopen Hreq]. apply negb_true_iff in Hreq.
  unfold getAllLogs, openDb. destruct (db s) eqn:Hdb.
  - rewrite Hreq. eexists. split; [|split; [|reflexivity]]; [reflexivity|exact Hdb].
  - simpl in Hopen. apply negb_true_iff in Hopen. rewrite Hopen, Hreq.
    eexists. split; [|split; [|reflexivity]]; reflexivity.
Qed.

Lemma delete_all_keys (objs : list (string * LogEntry)) :
  ascending (List.map fst objs) = true ->
  List.filter (fun kv => negb (listed (List.map fst objs) (fst kv))) objs = [].
Proof.
  intros Hasc. pose proof (delete_first_keys (length objs) objs Hasc) as H.
  rewrite List.firstn_all, List.skipn_all in H. exact H.
Qed.

(** X19. On unload, with the durable store and a working [sendBeacon], the
    handler sends every stored record in one beacon, however many there
    are and whether or not the circuit is open, and then deletes them all;
    no [fetch] follows. *)
Theorem unload_beacon_sends_the_whole_store
  (env : UnloadEnv) (st : State) (store : IndexedDBStore) :
  indexedDBStore st = Some store -> well_keyed (objects store) = true ->
  objects store <> [] -> logQueue st = [] -> isSending st = false ->
  String.eqb (dsn (config st)) "" = false ->
  lets_through (unloadRead env) store = true ->
  requestFails (unloadDelete env) = false ->
  unloadBeacon env = BeaconReturns true ->
  (unloadPayloadLength env < 60 * 1024)%Z ->
  let st' := unloadHandler env st in
  effects st'
  = effects st
    ++ [SendBeacon (dsn (config st)) (records store);
        ConsoleLog "LogCollector: Logs sent via navigator.sendBeacon on unload."] /\
  exists emptied, indexedDBStore st' = Some emptied /\ objects emptied = [].
Proof.
  intros Hstore Hwf Hsome Hqueue Hidle Hdsn Hthrough Hdelete Hbeacon Hsmall st'.
  unfold well_keyed in Hwf. apply andb_true_iff in Hwf as [Hasc Hid].
  destruct (getAllLogs_through (unloadRead env) store Hthrough) as (read & Hobj & Hdb & Hread).
  assert (Hrecords : (0 <? length (records store))%nat = true).
  { unfold records. destruct (objects store); [congruence|reflexivity]. }
  assert (Hids : ids_of (records store) = List.map fst (objects store))
    by apply ids_of_records, Hid.
  assert (Hsent : (0 <? length (ids_of (records store)))%nat = true).
  { rewrite Hids. destruct (objects store); [congruence|reflexivity]. }
  assert (Hthrough' : lets_through (unloadDelete env) read = true).
  { unfold lets_through. rewrite Hdb, Hdelete. reflexivity. }
  destruct (deleteLogs_through (unloadDelete env) (ids_of (records store)) read Hthrough')
    as [Hres Hleft].
  assert (Hempty : List.filter (fun kv => negb (listed (ids_of (records store)) (fst kv)))
                      (objects read) = []).
  { rewrite Hobj, Hids. apply delete_all_keys, Hasc. }
  rewrite Hempty in Hleft.
  subst st'. unfold unloadHandler. rewrite Hstore, Hqueue.
  change (0 <? length (@nil LogEntry))%nat with false.
  cbv iota zeta. rewrite Hstore, Hidle, Hread, Hbeacon.
  change (dsn (config (set_indexedDBStore (Some read) st))) with (dsn (config st)).
  rewrite Hrecords, Hdsn. simpl andb. cbv iota.
  destruct (Z.ltb_spec (unloadPayloadLength env) (60 * 1024)); [|lia].
  rewrite Hsent.
  destruct (deleteLogs (unloadDelete env) (Some (ids_of (records store))) read)
    as [emptied settled]. cbn [fst snd] in Hres, Hleft. subst settled.
  split; [fields; rewrite <- app_assoc; reflexivity|].
  exists emptied. split; [reflexivity|exact Hleft].
Qed.

End BatchFacts.

(** ** Configuration updates, retries and restarts *)

Module RunFacts.
Import Js Conf Store Collector Keyed KeyedFacts Batches BatchFacts DeliveryFacts ConfFacts LimiterFacts.

Lemma initRateLimiter_spec today st :
  let st' := initRateLimiter today st in
  config st' = config st /\ currentMinute st' = minuteKey today /\
  counted (minuteKey today) st' = 0%nat.
Proof.
  intros st'. split; [reflexivity|]. split; [reflexivity|].
  unfold counted. subst st'.
  change (logCounts (initRateLimiter today st))
    with (<[minuteKey today := 0%nat]> (logCounts st)).
  rewrite lookup_insert_eq. reflexivity.
Qed.

(** X20. A new positive [maxLogsPerMinute] starts the count of the current
    minute at zero again: after [updateConfig] the next [m] logs of the
    minute pass, however many the collector had let through in it. *)
Theorem updateConfig_renews_the_rate_budget
  (today : LocalDate) (newConfig : Partial.t) (st : State) (m : Z)
  (dates : list LocalDate) :
  Partial.maxLogsPerMinute newConfig = Some m ->
  m <> maxLogsPerMinute (config st) -> (0 < m)%Z ->
  Forall (fun d => minuteKey d = minuteKey today) dates ->
  let st' := updateConfig today newConfig st in
  maxLogsPerMinute (config st') = m /\
  currentMinute st' = minuteKey today /\
  counted (minuteKey today) st' = 0%nat /\
  List.map snd (limiterRun (List.map Arrival dates) st')
  = List.map (fun i => (Z.of_nat i <? m)%Z) (seq 0 (length dates)).
Proof.
  intros Hgiven Hnew Hpos Hdates st'.
  assert (Hmax : maxLogsPerMinute (config st') = m).
  { subst st'. rewrite config_updateConfig. unfold spread. simpl.
    rewrite Hgiven. reflexivity. }
  assert (Hinit : currentMinute st' = minuteKey today /\ counted (minuteKey today) st' = 0%nat).
  { subst st'. unfold updateConfig in *. rewrite Hgiven in *.
    set (st3 := match Partial.batchInterval newConfig, Partial.batchSize newConfig with
                | None, None => _ | _, _ => _ end) in *.
    destruct (Z.eqb_spec m (maxLogsPerMinute (config st))) as [|_]; [contradiction|].
    set (st4 := match rateLimitTimer st3 with Some _ => _ | None => _ end) in *.
    destruct (0 <? maxLogsPerMinute (config st4))%Z eqn:Hif.
    - destruct (initRateLimiter_spec today st4) as (_ & Hc & Hn). split; assumption.
    - exfalso. rewrite Hmax in Hif. apply Z.ltb_ge in Hif. lia. }
  destruct Hinit as [Hminute Hcount].
  split; [exact Hmax|]. split; [exact Hminute|]. split; [exact Hcount|].
  rewrite (verdicts_in_minute (minuteKey today) dates st'); [|rewrite Hmax; exact Hpos|exact Hdates].
  unfold base_count. rewrite Hminute, Z.eqb_refl, Hcount, Hmax. reflexivity.
Qed.

Lemma selectBatch_frame env st :
  let st1 := (selectBatch env st).1.1 in
  timers st1 = timers st /\ nextTimer st1 = nextTimer st /\ clock st1 = clock st /\
  config st1 = config st /\ consecutiveFailures st1 = consecutiveFailures st.
Proof. unfold selectBatch. repeat split_match; repeat split. Qed.

Lemma timers_handleSendFailure random logsFailed retries error ids st :
  (consecutiveFailures st + 1 < CIRCUIT_BREAKER_THRESHOLD)%Z ->
  timers (handleSendFailure random logsFailed retries error ids st)
  = if (retries <? maxRetries (config st))%Z
    then timers st
         ++ [mkTimer (nextTimer st)
               (clock st + (inject_Z (retryDelayMs (config st)) * 2 ^ retries + random * 100))
               (RetryFlush (retries + 1))]
    else timers st.
Proof.
  intros Hbelow. unfold handleSendFailure.
  change (consecutiveFailures (emit (OnSendFailure error logsFailed)
            (set_consecutiveFailures (consecutiveFailures st + 1) st)))
    with (consecutiveFailures st + 1)%Z.
  change (config (emit (OnSendFailure error logsFailed)
            (set_consecutiveFailures (consecutiveFailures st + 1) st)))
    with (config st).
  destruct (Z.leb_spec CIRCUIT_BREAKER_THRESHOLD (consecutiveFailures st + 1)); [lia|].
  destruct (retries <? maxRetries (config st))%Z; reflexivity.
Qed.

(** X21. A flush that the endpoint refuses, below the breaker's threshold, arms
    one retry with exponential backoff while [retries < maxRetries]: it is
    due [retryDelayMs * 2^retries] plus a jitter under 100 ms from now and
    will call [flushQueue(retries + 1)].  At [maxRetries] no retry is
    armed. *)
Theorem failed_flush_backs_off (env : FlushEnv) (retries : Z) (st : State) :
  http_failed_flush env st = true ->
  (consecutiveFailures st + 1 < CIRCUIT_BREAKER_THRESHOLD)%Z ->
  let st' := flushQueue env retries false st in
  let base := (inject_Z (retryDelayMs (config st)) * 2 ^ retries)%Q in
  let retry := mkTimer (nextTimer st) (clock st + (base + jitter env * 100))
                 (RetryFlush (retries + 1)) in
  timers st' = (if (retries <? maxRetries (config st))%Z
                then timers st ++ [retry] else timers st) /\
  ((0 <= jitter env)%Q -> (jitter env < 1)%Q ->
   (clock st + base <= due retry)%Q /\ (due retry < clock st + base + 100)%Q) /\
  (forall env' today, fire retry env' today st'
                      = flushQueue env' (retries + 1) false (clearTimeout (tid retry) st')).
Proof.
  intros Hfail Hbelow st' base retry.
  destruct (http_failed_flush_shape env retries st Hfail)
    as (st1 & batch & ids & status & text & Hsel & Hflush).
  pose proof (selectBatch_frame env (set_isSending true st)) as Hframe.
  rewrite Hsel in Hframe. cbn [fst] in Hframe.
  destruct Hframe as (Ht & Hn & Hc & Hcfg & Hf).
  change (timers (set_isSending true st)) with (timers st) in Ht.
  change (nextTimer (set_isSending true st)) with (nextTimer st) in Hn.
  change (clock (set_isSending true st)) with (clock st) in Hc.
  change (config (set_isSending true st)) with (config st) in Hcfg.
  change (consecutiveFailures (set_isSending true st)) with (consecutiveFailures st) in Hf.
  clear Hfail Hsel.
  split; [|split].
  - subst st'. rewrite Hflush, timers_finishFlush. clear Hflush.
    set (st2 := emit _ (emit _ st1)).
    assert (H2 : timers st2 = timers st /\ nextTimer st2 = nextTimer st /\
                 clock st2 = clock st /\ config st2 = config st /\
                 consecutiveFailures st2 = consecutiveFailures st)
      by (subst st2; repeat split; assumption).
    clearbody st2. destruct H2 as (Ht2 & Hn2 & Hc2 & Hcfg2 & Hf2).
    rewrite timers_handleSendFailure by (rewrite Hf2; exact Hbelow).
    rewrite Hcfg2, Ht2, Hn2, Hc2. reflexivity.
  - intros H0 H1. subst retry. cbn [due]. split; lra.
  - intros env' today. reflexivity.
Qed.

(** X22. Failures count only while they are consecutive: a flush that succeeds
    in between puts the counter back to zero, so the failures after it
    open the circuit only when there are five of them again. *)
Theorem success_restarts_the_failure_count
  (st : State) (before after : list (FlushEnv * Z)) (env : FlushEnv) (retries : Z) :
  reachable st -> all_http_failed before st = true ->
  http_ok_flush env (flushes before st) = true ->
  let recovered := flushQueue env retries false (flushes before st) in
  all_http_failed after recovered = true ->
  consecutiveFailures recovered = 0%Z /\ circuitOpen recovered = false /\
  consecutiveFailures (flushes after recovered) = Z.of_nat (length after) /\
  circuitOpen (flushes after recovered)
  = (CIRCUIT_BREAKER_THRESHOLD <=? Z.of_nat (length after))%Z.
Proof.
  intros Hreach Hbefore Hok recovered Hafter.
  pose proof (all_http_failed_spec before st Hbefore (reachable_tracked st Hreach))
    as (_ & _ & Htracked & _).
  destruct (http_ok_flush_spec env retries (flushes before st) Hok) as [Hopen Hcount].
  fold recovered in Hopen, Hcount.
  assert (Htracked' : reset_tracked recovered)
    by (apply (fair_flushQueue env retries false (flushes before st)), Htracked).
  pose proof (all_http_failed_spec after recovered Hafter Htracked')
    as (Hcount' & _ & _ & Hbreaker).
  rewrite Hcount in Hcount', Hbreaker. simpl Z.add in Hcount', Hbreaker.
  split; [exact Hcount|]. split; [exact Hopen|]. split; [exact Hcount'|].
  destruct after as [|call rest]; [exact Hopen|].
  specialize (Hbreaker ltac:(discriminate)).
  destruct (_ <=? _)%Z; [apply Hbreaker|exact Hbreaker].
Qed.

Lemma enqueue_memory env logEntry st :
  indexedDBStore st = None -> localStorageStore st = None ->
  let st' := enqueue env logEntry st in
  logQueue st' = logQueue st ++ [logEntry] /\ config st' = config st /\
  indexedDBStore st' = None /\ localStorageStore st' = None /\
  effects st'
  = effects st ++ (if (batchSize (config st) <=? Z.of_nat (length (logQueue st)) + 1)%Z
                   then [CallFlushQueue] else []).
Proof.
  intros Hi Hl. unfold enqueue.
  set (st1 := set_logQueue (logQueue st ++ [logEntry]) st).
  change (indexedDBStore st1) with (indexedDBStore st).
  change (localStorageStore st1) with (localStorageStore st).
  rewrite Hi, Hl.
  destruct (processQueue_frame st1) as (Hi' & Hl' & Hq' & Hc' & He').
  rewrite Hi', Hl', Hq', Hc', He'. subst st1. fields.
  rewrite length_app, Nat2Z.inj_add. simpl length. repeat split; assumption.
Qed.

(** X23. Without a store, and while the queue stays below [batchSize], the
    queue is first in, first out: accepted logs join the queue at the end,
    in the order of their capture, no flush is started, and the next flush
    sends them in that order.  The capture that brings the queue to
    [batchSize] records is the one that calls [flushQueue]. *)
Theorem memory_queue_is_first_in_first_out
  (envs : list CaptureEnv) (entries : list LogEntry) (st : State) :
  indexedDBStore st = None -> localStorageStore st = None ->
  length envs = length entries ->
  (Z.of_nat (length (logQueue st) + length entries) < batchSize (config st))%Z ->
  let st' := enqueues envs entries st in
  logQueue st' = logQueue st ++ entries /\
  effects st' = effects st /\
  (forall env, (selectBatch env st').1.2 = logQueue st ++ entries) /\
  (forall env entry,
      In CallFlushQueue (skipn (length (effects st')) (effects (enqueue env entry st')))
      <-> batchSize (config st) = (Z.of_nat (length (logQueue st ++ entries)) + 1)%Z).
Proof.
  intros Hi Hl Hlen Hbelow st'.
  assert (Hrun : logQueue st' = logQueue st ++ entries /\ config st' = config st /\
                 indexedDBStore st' = None /\ localStorageStore st' = None /\
                 effects st' = effects st).
  { subst st'. unfold enqueues. revert entries st Hi Hl Hlen Hbelow.
    induction envs as [|env envs IH]; intros [|entry entries] st Hi Hl Hlen Hbelow;
      try discriminate.
    - simpl. rewrite app_nil_r. auto.
    - simpl. destruct (enqueue_memory env entry st Hi Hl) as (Hq & Hc & Hi' & Hl' & He).
      destruct (Z.leb_spec (batchSize (config st)) (Z.of_nat (length (logQueue st)) + 1))
        as [Hle|_]; [simpl in Hbelow; lia|].
      rewrite app_nil_r in He.
      destruct (IH entries (enqueue env entry st) Hi' Hl') as (Hq2 & Hc2 & Hi2 & Hl2 & He2).
      + simpl in Hlen; lia.
      + rewrite Hq, Hc, length_app. simpl in *. lia.
      + rewrite Hq2, Hc2, He2, Hq, Hc, He, <- app_assoc. auto. }
  destruct Hrun as (Hq & Hc & Hi' & Hl' & He).
  assert (Hlength : (Z.of_nat (length (logQueue st ++ entries)) < batchSize (config st))%Z)
    by (rewrite length_app; exact Hbelow).
  split; [exact Hq|]. split; [exact He|]. split.
  - intros env. unfold selectBatch. rewrite Hi'. unfold splice0. cbn [fst snd].
    rewrite Hq, Hc. apply firstn_all2. lia.
  - intros env entry.
    destruct (enqueue_memory env entry st' Hi' Hl') as (_ & _ & _ & _ & He1).
    rewrite He1, List.skipn_app, List.skipn_all, Nat.sub_diag. simpl.
    rewrite Hq, Hc.
    destruct (Z.leb_spec (batchSize (config st))
                (Z.of_nat (length (logQueue st ++ entries)) + 1)) as [Hle|Hgt]; simpl.
    + split; [intros _; lia|intros _; left; reflexivity].
    + split; [intros []|intros Heq; lia].
Qed.


Lemma ensure_id_kept uuid log key :
  id_string log = Some key -> key <> "" -> ensure_id uuid log = log.
Proof.
  unfold ensure_id, id_string. intros Hid Hne.
  destruct (log_id log) as [| | | |s| |]; try discriminate.
  injection Hid as ->. simpl. destruct (String.eqb_spec key ""); [contradiction|reflexivity].
Qed.

(** Writing records that the store already holds: every [addLog] is
    refused and the store keeps its records. *)
Lemma addLogs_known envs uuids : forall logs i s,
  ascending (List.map fst (objects s)) = true ->
  (forall j, openFails (envs j) = false /\ requestFails (envs j) = false) ->
  Forall (fun log => exists key, id_string log = Some key /\ key <> "" /\ In key (keys s)) logs ->
  objects (addLogs envs uuids i logs s).1 = objects s /\
  (addLogs envs uuids i logs s).2 = match logs with [] => true | _ => false end.
Proof.
  induction logs as [|log rest IH]; intros i s Hasc Henv Hknown; [split; reflexivity|].
  inversion Hknown as [|? ? (key & Hid & Hne & Hin) Hrest]; subst.
  simpl. destruct (Henv i) as [Hopen Hreq].
  pose proof (ensure_id_kept (uuids (S i)) log key Hid Hne) as Hkept.
  destruct (addLog_healthy (envs i) (uuids (S i)) log s key (or_intror Hopen) Hreq)
    as (_ & Hobj & Hset); [rewrite Hkept; exact Hid|].
  rewrite Hkept in Hobj, Hset.
  assert (Hnone : idb_add key log (objects s) = None) by (apply idb_add_None; assumption).
  rewrite Hnone in Hobj, Hset. simpl in Hobj.
  destruct (addLog (envs i) (uuids (S i)) log s) as [s1 settled]. simpl in Hobj, Hset.
  subst settled.
  destruct (IH (S i) s1) as [Hobj' _]; [rewrite Hobj; exact Hasc|exact Henv| |].
  { eapply List.Forall_impl; [|exact Hrest]. intros l (k & ? & ? & Hk).
    exists k. repeat split; try assumption. unfold keys in *. rewrite Hobj. exact Hk. }
  destruct (addLogs envs uuids (S i) rest s1) as [s2 ok]. simpl in *.
  split; [congruence|reflexivity].
Qed.

Lemma addLogs_app envs uuids : forall known i more s,
  (addLogs envs uuids i (known ++ more) s).1
  = (addLogs envs uuids (i + length known) more (addLogs envs uuids i known s).1).1 /\
  (addLogs envs uuids i (known ++ more) s).2
  = (addLogs envs uuids i known s).2
    && (addLogs envs uuids (i + length known) more (addLogs envs uuids i known s).1).2.
Proof.
  induction known as [|log rest IH]; intros i more s.
  - simpl. rewrite Nat.add_0_r. split; reflexivity.
  - simpl. destruct (addLog (envs i) (uuids (S i)) log s) as [s1 settled].
    destruct (IH (S i) more s1) as [H1 H2].
    replace (i + S (length rest))%nat with (S i + length rest)%nat by lia.
    destruct (addLogs envs uuids (S i) (rest ++ more) s1) as [s2 ok].
    destruct (addLogs envs uuids (S i) rest s1) as [s3 ok3].
    simpl in *.
    destruct (addLogs envs uuids (S (i + length rest)) more s3) as [s4 ok4].
    simpl in *. subst. split; [reflexivity|]. destruct settled; reflexivity.
Qed.

Lemma startBatchTimer_frame st :
  logQueue (startBatchTimer st) = logQueue st /\
  indexedDBStore (startBatchTimer st) = indexedDBStore st /\
  effects (startBatchTimer st) = effects st.
Proof. unfold startBatchTimer. destruct (timer st); repeat split. Qed.

Lemma initRateLimiter_frame today st :
  logQueue (initRateLimiter today st) = logQueue st /\
  indexedDBStore (initRateLimiter today st) = indexedDBStore st /\
  effects (initRateLimiter today st) = effects st.
Proof. repeat split. Qed.

Lemma effects_requeued queue effect st :
  effects (set_logQueue queue (emit effect st)) = effects st ++ [effect].
Proof. reflexivity. Qed.

Lemma requeued_frame queue effect store st :
  localStorageStore
    (set_logQueue queue (emit effect (set_indexedDBStore store (set_logQueue [] st))))
  = localStorageStore st.
Proof. reflexivity. Qed.

(** The constructor loads the records of the durable store into the
    in-memory queue and leaves them in the store.  So the first capture
    after a restart writes them again, every one of those writes is refused
    as a duplicate, and the collector reports a failed persist although the
    new record was stored and nothing is lost; the loaded copies are
    dropped from memory. *)
Lemma restart_then_capture
  (given : Partial.t) (boot : BootEnv) (persisted : list (string * LogEntry))
  (env : CaptureEnv) (entry : LogEntry) (key : string) :
  enableIndexedDB (spread defaults given) = true ->
  indexedDB boot = Some persisted -> persisted <> [] ->
  well_keyed persisted = true -> ~ In "" (List.map fst persisted) ->
  openFails (bootIdb boot) = false -> requestFails (bootIdb boot) = false ->
  (forall i, openFails (addEnv env i) = false /\ requestFails (addEnv env i) = false) ->
  id_string entry = Some key -> key <> "" -> ~ In key (List.map fst persisted) ->
  let st := construct given boot in
  let st' := enqueue env entry st in
  logQueue st = List.map snd persisted /\
  (exists store, indexedDBStore st = Some store /\ objects store = persisted) /\
  (exists store', indexedDBStore st' = Some store' /\
                  objects store' = put key entry persisted /\
                  In (key, entry) (objects store')) /\
  logQueue st' = [] /\
  In (ConsoleError "LogCollector: Failed to persist log to IndexedDB. Re-queuing to memory and falling back to LocalStorage if enabled.")
     (effects st').
Proof.
  intros Henabled Hboot Hsome Hwf Hnoempty Hopen Hreq Hwrites Hid Hne Hfresh st st'.
  unfold well_keyed in Hwf. apply andb_true_iff in Hwf as [Hasc Hkeyed].
  (* the constructor *)
  assert (Hst : exists store, indexedDBStore st = Some store /\ objects store = persisted /\
                  logQueue st = List.map snd persisted /\ localStorageStore st = None).
  { subst st. unfold construct.
    set (st0 := blank _).
    set (st1 := if String.eqb _ _ then _ else st0).
    assert (H1 : logQueue st1 = [] /\ localStorageStore st1 = None /\
                 enableIndexedDB (config st1) = true).
    { subst st1. destruct (String.eqb _ _); repeat split; exact Henabled. }
    destruct H1 as (Hq1 & Hl1 & He1). clearbody st1.
    rewrite He1, Hboot.
    set (loaded := loadLogsFromPersistence _ _).
    assert (Hloaded : exists store, indexedDBStore loaded = Some store /\
              objects store = persisted /\ logQueue loaded = List.map snd persisted /\
              localStorageStore loaded = None).
    { subst loaded. unfold loadLogsFromPersistence.
      change (indexedDBStore (set_indexedDBStore (Some (mkStore false persisted [])) st1))
        with (Some (mkStore false persisted [])).
      unfold getAllLogs, openDb. simpl db. rewrite Hopen, Hreq. cbn [called objects calls db].
      destruct persisted as [|kv rest]; [congruence|].
      eexists. cbn. rewrite Hq1, app_nil_r. repeat split. exact Hl1. }
    clearbody loaded. destruct Hloaded as (store & Hi & Hobj & Hq & Hl).
    destruct (startBatchTimer_frame loaded) as (Hq3 & Hi3 & _).
    assert (Hl3 : localStorageStore (startBatchTimer loaded) = None)
      by (unfold startBatchTimer; destruct (timer loaded); exact Hl).
    set (st3 := startBatchTimer loaded) in *.
    assert (H3 : indexedDBStore st3 = Some store /\ objects store = persisted /\
                 logQueue st3 = List.map snd persisted /\ localStorageStore st3 = None).
    { rewrite Hi3, Hq3. auto. }
    exists store. destruct (_ <? _)%Z; [|exact H3].
    destruct (initRateLimiter_frame (bootDate boot) st3) as (Hq4 & Hi4 & _).
    rewrite Hq4, Hi4. exact H3. }
  destruct Hst as (store & Hi & Hobj & Hq & Hl).
  split; [exact Hq|]. split; [exists store; split; assumption|].
  (* the first capture *)
  subst st'. unfold enqueue.
  set (st1 := set_logQueue _ st).
  change (indexedDBStore st1) with (indexedDBStore st). rewrite Hi.
  change (logQueue st1) with (logQueue st ++ [entry]). rewrite Hq.
  destruct (addLogs_app (addEnv env) (uuid env) (List.map snd persisted) 0 [entry] store)
    as [Hstore' Hok].
  destruct (addLogs_known (addEnv env) (uuid env) (List.map snd persisted) 0 store)
    as [Hsame Hrefused]; [rewrite Hobj; exact Hasc|exact Hwrites| |].
  { apply List.Forall_forall. intros log Hin.
    apply List.in_map_iff in Hin as ([k o] & <- & Hin). exists k. simpl.
    unfold keyed_by_id in Hkeyed.
    pose proof (proj1 (List.forallb_forall _ _) Hkeyed (k, o) Hin) as Hk. simpl in Hk.
    destruct (id_string o) as [k'|]; [|discriminate].
    apply String.eqb_eq in Hk as ->. split; [reflexivity|]. split.
    - intros ->. apply Hnoempty. apply (List.in_map fst _ _ Hin).
    - unfold keys. rewrite Hobj. apply (List.in_map fst _ _ Hin). }
  set (known := (addLogs (addEnv env) (uuid env) 0 (List.map snd persisted) store).1) in *.
  assert (Hlast : objects (addLogs (addEnv env) (uuid env) (0 + length (List.map snd persisted))
                             [entry] known).1
                  = put key entry persisted).
  { simpl. destruct (Hwrites (0 + length (List.map snd persisted))%nat) as [Ho Hr].
    pose proof (ensure_id_kept (uuid env (S (0 + length (List.map snd persisted)))) entry key
                  Hid Hne) as Hkept.
    destruct (addLog_healthy (addEnv env (0 + length (List.map snd persisted))%nat)
                (uuid env (S (0 + length (List.map snd persisted)))) entry known key
                (or_intror Ho) Hr) as (_ & Hput & _); [rewrite Hkept; exact Hid|].
    rewrite Hkept, Hsame, Hobj in Hput.
    destruct (addLog _ _ entry known) as [s1 settled]. simpl in *. exact Hput. }
  rewrite <- Hstore' in Hlast.
  assert (Hfailed : (addLogs (addEnv env) (uuid env) 0 (List.map snd persisted ++ [entry])
                       store).2 = false).
  { rewrite Hok, Hrefused. destruct persisted; [congruence|reflexivity]. }
  destruct (addLogs (addEnv env) (uuid env) 0 (List.map snd persisted ++ [entry]) store)
    as [store' ok]. simpl in Hlast, Hfailed. subst ok.
  set (st5 := set_logQueue _ (emit _ _)).
  assert (H5 : indexedDBStore st5 = Some store' /\ logQueue st5 = [] /\
               localStorageStore st5 = None /\
               In (ConsoleError "LogCollector: Failed to persist log to IndexedDB. Re-queuing to memory and falling back to LocalStorage if enabled.")
                  (effects st5)).
  { split; [reflexivity|]. split; [reflexivity|]. split.
    - subst st5. rewrite requeued_frame. exact Hl.
    - subst st5. rewrite effects_requeued.
      apply in_or_app. right. left. reflexivity. }
  clearbody st5. destruct H5 as (Hi5 & Hq5 & Hl5 & He5). rewrite Hl5.
  destruct (processQueue_frame st5) as (Hip & _ & Hqp & _ & Hep).
  split; [|split].
  - exists store'. rewrite Hip. split; [exact Hi5|]. split; [exact Hlast|].
    rewrite Hlast.
    destruct (put_spec key entry persisted Hasc) as (_ & _ & Hin). apply Hin.
    left. split; [reflexivity|exact Hfresh].
  - rewrite Hqp. exact Hq5.
  - rewrite Hep. apply in_or_app. left. exact He5.
Qed.

(** X24. The constructor loads the records of the durable store into the
    in-memory queue and leaves them in the store.  So the first capture
    after a restart writes them again, every one of those writes is refused
    as a duplicate, and the collector reports a failed persist although the
    new record is stored and no stored record is lost; the loaded copies
    are dropped from memory. *)
Theorem first_capture_after_restart_reports_failure
  (given : Partial.t) (boot : BootEnv) (persisted : list (string * LogEntry))
  (env : CaptureEnv) (entry : LogEntry) (key : string) :
  enableIndexedDB (spread defaults given) = true ->
  indexedDB boot = Some persisted -> persisted <> [] ->
  well_keyed persisted = true -> ~ In "" (List.map fst persisted) ->
  openFails (bootIdb boot) = false -> requestFails (bootIdb boot) = false ->
  (forall i, openFails (addEnv env i) = false /\ requestFails (addEnv env i) = false) ->
  id_string entry = Some key -> key <> "" -> ~ In key (List.map fst persisted) ->
  (0 < batchSize (config (construct given boot)))%Z ->
  let st := construct given boot in
  let st' := enqueue env entry st in
  logQueue st = List.map snd persisted /\
  (exists store, indexedDBStore st = Some store /\ objects store = persisted) /\
  (exists store', indexedDBStore st' = Some store' /\
                  (forall kv, In kv persisted -> In kv (objects store')) /\
                  In (key, entry) (objects store')) /\
  logQueue st' = [] /\
  In (ConsoleError "LogCollector: Failed to persist log to IndexedDB. Re-queuing to memory and falling back to LocalStorage if enabled.")
     (effects st') /\
  calm st st'.
Proof.
  intros Henabled Hboot Hsome Hwf Hnoempty Hopen Hreq Hwrites Hid Hne Hfresh Hsize st st'.
  destruct (restart_then_capture given boot persisted env entry key Henabled Hboot
              Hsome Hwf Hnoempty Hopen Hreq Hwrites Hid Hne Hfresh)
    as (Hloaded & Hstore & (store' & Hi & Hput & Hin) & Hqueue & Hreport).
  fold st in Hloaded, Hstore. fold st' in Hi, Hqueue, Hreport.
  assert (Hcalm : calm st st').
  { destruct Hstore as (store & Hsome' & _).
    apply (enqueue_durable env entry st); [rewrite Hsome'; discriminate|exact Hsize]. }
  split; [exact Hloaded|]. split; [exact Hstore|].
  split; [|split; [exact Hqueue|split; [exact Hreport|exact Hcalm]]].
  exists store'. split; [exact Hi|]. split; [|exact Hin].
  intros kv Hkv. rewrite Hput.
  unfold well_keyed in Hwf. apply andb_true_iff in Hwf as [Hasc _].
  apply (put_spec key entry persisted Hasc). right. exact Hkv.
Qed.

End RunFacts.

(** ** The theorems at the runs of [Cases] *)

Module Examples.
Import Js Conf Store Collector Scenario Util Wrappers Keyed Batches Cases.

Lemma getAllLogs_in_id_order_witness :
  exists ids,
    List.map id_string [second_entry; first_entry] = List.map Some ids /\
    forallb ascii_only ids = true /\ ascending ids = true.
Proof.
  apply (KeyedFacts.getAllLogs_in_id_order fresh two_adds healthy).
  - reflexivity.
  - reflexivity.
  - vm_compute. reflexivity.
  - vm_compute. reflexivity.
Defined.

Lemma addLog_stores_record_witness :
  (addLog healthy uuid_a second_entry one_stored).2 = Resolved tt.
Proof.
  destruct (KeyedFacts.addLog_stores_record healthy uuid_a second_entry one_stored uuid_a)
    as ((_ & Hresolves) & _).
  - vm_compute. reflexivity.
  - vm_compute. reflexivity.
  - apply Hresolves. vm_compute. split; [left; reflexivity|]. split; [reflexivity|].
    intros [H|[]]. discriminate H.
Defined.

Lemma deleteLogs_removes_listed_witness :
  objects (deleteLogs healthy (Some [uuid_b]) two_stored).1
  = List.filter (fun kv => negb (listed [uuid_b] (fst kv))) (objects two_stored).
Proof.
  destruct (KeyedFacts.deleteLogs_removes_listed healthy [uuid_b] two_stored)
    as (_ & Hleft & _).
  - right. reflexivity.
  - reflexivity.
  - exact Hleft.
Defined.

Lemma deleteLogs_undoes_addLog_witness :
  objects (deleteLogs healthy (Some [uuid_a])
             (addLog healthy uuid_a second_entry one_stored).1).1
  = objects one_stored.
Proof.
  destruct (KeyedFacts.deleteLogs_undoes_addLog healthy healthy uuid_a second_entry
              one_stored uuid_a) as (_ & _ & Hback).
  - vm_compute. reflexivity.
  - vm_compute. reflexivity.
  - vm_compute. reflexivity.
  - reflexivity.
  - exact Hback.
Defined.

Lemma addLog_order_is_forgotten_witness :
  objects (addLog healthy uuid_a second_entry (addLog healthy uuid_b first_entry fresh).1).1
  = objects (addLog healthy uuid_b first_entry (addLog healthy uuid_a second_entry fresh).1).1.
Proof.
  apply (KeyedFacts.addLog_order_is_forgotten healthy uuid_b uuid_a first_entry
           second_entry fresh uuid_b uuid_a).
  - reflexivity.
  - reflexivity.
  - reflexivity.
  - vm_compute. reflexivity.
  - vm_compute. reflexivity.
  - discriminate.
Defined.

Lemma generateUUID_has_version_4_form_witness :
  String.length (generateUUID half) = 36%nat.
Proof.
  destruct (UtilFacts.generateUUID_has_version_4_form half) as [Hlength _].
  - intros i. unfold half. split; lra.
  - exact Hlength.
Defined.

Lemma matchesUrl_spec_witness :
  (matchesUrl "https://example.com/analytics/collect" ignored_urls).2 = ignored_urls.
Proof.
  exact (proj1 (UtilFacts.matchesUrl_spec "https://example.com/analytics/collect"
                  ignored_urls eq_refl)).
Defined.

Lemma matchesError_spec_witness :
  (matchesError (ErrorObject "Error" "Script error." None) ignored_errors).2
  = ignored_errors.
Proof.
  exact (proj1 (UtilFacts.matchesError_spec (ErrorObject "Error" "Script error." None)
                  ignored_errors eq_refl)).
Defined.

Lemma debounce_passes_last_call_witness :
  d_applied <$> debounce_runs 300 burst (debounce 0) = Some ["b"].
Proof.
  destruct (debounce_runs 300 burst (debounce 0)) as [d|] eqn:Hruns;
    [|vm_compute in Hruns; discriminate Hruns].
  destruct (WrapperFacts.debounce_passes_last_call 300 0 burst d Hruns) as [Hpassed _].
  simpl. rewrite Hpassed. reflexivity.
Defined.

Lemma throttle_lets_first_call_through_witness :
  t_applied <$> throttle_runs String.length 1000 clicks (throttle 0)
  = Some ["a"; "ccc"].
Proof.
  destruct (throttle_runs String.length 1000 clicks (throttle 0)) as [t|] eqn:Hruns;
    [|vm_compute in Hruns; discriminate Hruns].
  destruct (WrapperFacts.throttle_lets_first_call_through String.length 1000 0 clicks t
              Hruns) as [Hthrough _].
  simpl. rewrite Hthrough. reflexivity.
Defined.

Lemma one_timer_of_each_kind_witness :
  exists t, In t (timers two_captured) /\ action t = BatchTick /\
            timer two_captured = Some (tid t) /\
            forall t', In t' (timers two_captured) -> action t' = BatchTick -> t' = t.
Proof.
  exact (proj1 (DisciplineFacts.one_timer_of_each_kind two_captured
                  DeliveryClaim.two_captured_reachable)).
Defined.

Lemma sending_lock_is_released_witness :
  isSending (flushQueue http500 0 false two_captured) = false.
Proof.
  exact (proj2 (DisciplineFacts.sending_lock_is_released two_captured
                  DeliveryClaim.two_captured_reachable) http500 0%Z false).
Defined.

Lemma durable_store_excludes_fallback_witness :
  localStorageStore two_captured = None.
Proof.
  apply (DisciplineFacts.durable_store_excludes_fallback two_captured
           DeliveryClaim.two_captured_reachable).
  vm_compute. discriminate.
Defined.

Lemma durable_flush_deletes_after_success_witness :
  logQueue (flushQueue http500 0 false two_captured) = [].
Proof.
  destruct (BatchFacts.durable_flush_deletes_after_success http500 0 two_captured
              two_stored false 500 "Internal Server Error") as (_ & _ & Hqueue).
  - vm_compute. reflexivity.
  - vm_compute. reflexivity.
  - vm_compute. discriminate.
  - vm_compute. reflexivity.
  - vm_compute. reflexivity.
  - vm_compute. reflexivity.
  - vm_compute. reflexivity.
  - vm_compute. reflexivity.
  - vm_compute. reflexivity.
  - reflexivity.
  - exact Hqueue.
Defined.

Lemma flush_without_fetch_reports_success_witness :
  consecutiveFailures (flushQueue no_fetch 0 false two_captured) = 0%Z.
Proof.
  destruct (BatchFacts.flush_without_fetch_reports_success no_fetch 0 two_captured
              two_stored) as (_ & _ & Hcount & _).
  - vm_compute. reflexivity.
  - vm_compute. reflexivity.
  - vm_compute. discriminate.
  - vm_compute. reflexivity.
  - vm_compute. reflexivity.
  - vm_compute. reflexivity.
  - vm_compute. reflexivity.
  - vm_compute. reflexivity.
  - reflexivity.
  - exact Hcount.
Defined.

Lemma memory_flush_forgets_the_batch_witness :
  logQueue (flushQueue offline 0 false three_queued)
  = skipn (Z.to_nat (batchSize (config three_queued))) (logQueue three_queued).
Proof.
  destruct (BatchFacts.memory_flush_forgets_the_batch offline 0 three_queued)
    as (Hrejected & _).
  - vm_compute. reflexivity.
  - vm_compute. reflexivity.
  - vm_compute. reflexivity.
  - vm_compute. reflexivity.
  - vm_compute. reflexivity.
  - vm_compute. discriminate.
  - vm_compute. reflexivity.
  - destruct (Hrejected "TypeError: Failed to fetch" eq_refl) as (Hqueue & _).
    exact Hqueue.
Defined.



Lemma unload_beacon_sends_the_whole_store_witness :
  effects (unloadHandler leaving two_captured)
  = effects two_captured
    ++ [SendBeacon (dsn (config two_captured)) (records two_stored);
        ConsoleLog "LogCollector: Logs sent via navigator.sendBeacon on unload."].
Proof.
  destruct (BatchFacts.unload_beacon_sends_the_whole_store leaving two_captured two_stored)
    as [Heffects _].
  - vm_compute. reflexivity.
  - vm_compute. reflexivity.
  - vm_compute. discriminate.
  - vm_compute. reflexivity.
  - vm_compute. reflexivity.
  - vm_compute. reflexivity.
  - vm_compute. reflexivity.
  - reflexivity.
  - reflexivity.
  - vm_compute. reflexivity.
  - exact Heffects.
Defined.

Lemma updateConfig_renews_the_rate_budget_witness :
  counted (minuteKey morning) (updateConfig morning five_per_minute tuned_collector)
  = 0%nat.
Proof.
  destruct (RunFacts.updateConfig_renews_the_rate_budget morning five_per_minute
              tuned_collector 5 [morning; morning]) as (_ & _ & Hcount & _).
  - reflexivity.
  - vm_compute. discriminate.
  - lia.
  - repeat constructor.
  - exact Hcount.
Defined.

Lemma failed_flush_backs_off_witness :
  timers (flushQueue http500 0 false two_captured)
  = (if (0 <? maxRetries (config two_captured))%Z
     then timers two_captured
          ++ [mkTimer (nextTimer two_captured)
                (clock two_captured
                 + (inject_Z (retryDelayMs (config two_captured)) * 2 ^ 0
                    + jitter http500 * 100))
                (RetryFlush (0 + 1))]
     else timers two_captured).
Proof.
  destruct (RunFacts.failed_flush_backs_off http500 0 two_captured) as [Htimers _].
  - vm_compute. reflexivity.
  - vm_compute. reflexivity.
  - exact Htimers.
Defined.

Lemma success_restarts_the_failure_count_witness :
  consecutiveFailures
    (flushes one_failure (flushQueue http200 0 false (flushes two_failures two_captured)))
  = Z.of_nat (length one_failure).
Proof.
  destruct (RunFacts.success_restarts_the_failure_count two_captured two_failures
              one_failure http200 0 DeliveryClaim.two_captured_reachable)
    as (_ & _ & Hcount & _).
  - vm_compute. reflexivity.
  - vm_compute. reflexivity.
  - vm_compute. reflexivity.
  - exact Hcount.
Defined.

Lemma memory_queue_is_first_in_first_out_witness :
  logQueue (enqueues [capture uuid_b healthy; capture uuid_a healthy]
              [first_entry; second_entry] three_queued)
  = logQueue three_queued ++ [first_entry; second_entry].
Proof.
  destruct (RunFacts.memory_queue_is_first_in_first_out
              [capture uuid_b healthy; capture uuid_a healthy]
              [first_entry; second_entry] three_queued) as [Hqueue _].
  - vm_compute. reflexivity.
  - vm_compute. reflexivity.
  - reflexivity.
  - vm_compute. reflexivity.
  - exact Hqueue.
Defined.

Lemma first_capture_after_restart_reports_failure_witness :
  logQueue (enqueue (capture uuid_a healthy) second_entry (construct durable reloaded))
  = [].
Proof.
  destruct (RunFacts.first_capture_after_restart_reports_failure durable reloaded
              [(uuid_b, first_entry)] (capture uuid_a healthy) second_entry uuid_a)
    as (_ & _ & _ & Hqueue & _).
  - reflexivity.
  - reflexivity.
  - discriminate.
  - vm_compute. reflexivity.
  - intros [H|[]]. discriminate H.
  - reflexivity.
  - reflexivity.
  - intros i. split; reflexivity.
  - vm_compute. reflexivity.
  - discriminate.
  - intros [H|[]]. discriminate H.
  - vm_compute. reflexivity.
  - exact Hqueue.
Defined.

End Examples.
